(** * octet-sdn: the chunked wire codec of [generator.ts] and [parser.ts]

    A shallow embedding of the encoder ([CommonIterator], [StreamIterator],
    [hasCircular], [generator], [multiGenerator]) and of the decoder
    ([parser]), followed by the properties of the wire protocol. *)

From Stdlib Require Import ZArith List Lia Bool.
From stdpp Require Import base option list gmap relations.

Open Scope Z_scope.

(** ** Bytes and big-endian fields

    A [Uint8Array] is a list of integers; every writer below produces
    values in [0, 256). *)

Abbreviation bytes := (list Z).

Definition blen (b : bytes) : Z := Z.of_nat (length b).

(** [DataView.setUint32(0, x, false)] over a fresh 4-byte buffer. *)
Definition setUint32 (x : Z) : bytes :=
  let w := x mod 4294967296 in
  [w / 16777216; (w / 65536) mod 256; (w / 256) mod 256; w mod 256].

(** The big-endian reading of a 4-byte length field. *)
Definition getUint32 (b0 b1 b2 b3 : Z) : Z :=
  ((b0 * 256 + b1) * 256 + b2) * 256 + b3.

(** [DataView.setFloat64(0, x, false)]: a Number is identified with the
    64-bit pattern that its IEEE-754 binary64 form occupies. *)
Definition setFloat64 (x : Z) : bytes :=
  let w := x mod 18446744073709551616 in
  [w / 72057594037927936; (w / 281474976710656) mod 256;
   (w / 1099511627776) mod 256; (w / 4294967296) mod 256;
   (w / 16777216) mod 256; (w / 65536) mod 256; (w / 256) mod 256; w mod 256].

(** [DataView.getFloat64(0, false)] over 8 bytes. *)
Definition getFloat64 (b : bytes) : Z :=
  fold_left (fun acc x => acc * 256 + x) b 0.

(** ** Type tags

    [constants.ts] is not among the sources: the eight members of the
    [TYPES] enum are known, their numeric codes are a parameter, one
    distinct byte per member. *)

Inductive TYPES :=
  NULL | UNDEFINED | BOOLEAN | NUMBER | STREAM | STRING | ARRAY | OBJECT.

#[global] Instance TYPES_eq_dec : EqDecision TYPES.
Proof. solve_decision. Defined.

Class TagCodes := {
  code : TYPES -> Z;
  code_inj : forall a b, code a = code b -> a = b;
  code_byte : forall a, 0 <= code a < 256
}.

(** ** Errors thrown by either half of the codec *)

Inductive error :=
| InvalidData            (* Error("Invalid data") *)
| CircularReference      (* Error("Circular reference!") *)
| NotAnObject            (* TypeError of the [in] operator on a primitive *)
| DepthExceeded          (* Error("Depth exceeded ...") *)
| StringSizeExceeded     (* Error("String size exceeded ...") *)
| ArrayLengthExceeded    (* Error("Array length exceeded ...") *)
| ObjectLengthExceeded   (* Error("Object key value pairs count exceeded ...") *)
| InvalidKey             (* Error("Invalid key") *)
| InvalidType            (* Error("Invalid type") *)
| NotEnoughData          (* the byte source ended before a read was served *)
| StreamSizeExceeded.    (* readChunkedStream went over its maxSize *)

(** The outcome of a computation: a value, a thrown error, or no answer
    from the model (it ran out of fuel, or the program left what is
    modelled). *)
Inductive result (A : Type) :=
| Ok (a : A)
| Err (e : error)
| OutOfFuel
| Unmodelled.
Arguments Ok {A} a.
Arguments Err {A} e.
Arguments OutOfFuel {A}.
Arguments Unmodelled {A}.

Definition rbind {A B} (r : result A) (k : A -> result B) : result B :=
  match r with
  | Ok a => k a
  | Err e => Err e
  | OutOfFuel => OutOfFuel
  | Unmodelled => Unmodelled
  end.

Notation "'do' x <- r ; k" := (rbind r (fun x => k))
  (at level 10, x pattern, r at level 100, k at level 200).

(** A limit of [options]: [Infinity] or a finite number. *)
Inductive limit := Infinity | Finite (n : Z).

(** [x > l] for a limit [l]. *)
Definition exceeds (x : Z) (l : limit) : bool :=
  match l with Infinity => false | Finite n => n <? x end.

(** [x >= l] for a limit [l]. *)
Definition reaches (x : Z) (l : limit) : bool :=
  match l with Infinity => false | Finite n => n <=? x end.

(** ** UTF-8: [TextEncoder] and [TextDecoder]

    Platform primitives, modelled after the Encoding standard.  A string is
    the list of its code points. *)

Module Utf8.

Abbreviation text := (list Z).

Definition is_surrogate (c : Z) : bool := (55296 <=? c) && (c <=? 57343).

Definition is_scalar (c : Z) : bool :=
  (0 <=? c) && (c <=? 1114111) && negb (is_surrogate c).

Definition encode_cp (c : Z) : bytes :=
  if c <? 128 then [c]
  else if c <? 2048 then [192 + c / 64; 128 + c mod 64]
  else if c <? 65536 then [224 + c / 4096; 128 + (c / 64) mod 64; 128 + c mod 64]
  else [240 + c / 262144; 128 + (c / 4096) mod 64;
        128 + (c / 64) mod 64; 128 + c mod 64].

(** [new TextEncoder().encode(s)]: a lone surrogate is written as U+FFFD. *)
Definition encode (s : text) : bytes :=
  flat_map (fun c => encode_cp (if is_surrogate c then 65533 else c)) s.

(** The state of the UTF-8 decoder: code point under construction, bytes
    needed, bytes seen, and the bounds of the next continuation byte. *)
Record state := {
  cp : Z; needed : Z; seen : Z; lower : Z; upper : Z
}.

Definition init : state :=
  {| cp := 0; needed := 0; seen := 0; lower := 128; upper := 191 |}.

(** A byte met when no sequence is open. *)
Definition lead (b : Z) : text * state :=
  if (0 <=? b) && (b <=? 127) then ([b], init)
  else if (194 <=? b) && (b <=? 223) then
    ([], {| cp := b - 192; needed := 1; seen := 0; lower := 128; upper := 191 |})
  else if (224 <=? b) && (b <=? 239) then
    ([], {| cp := b - 224; needed := 2; seen := 0;
            lower := if b =? 224 then 160 else 128;
            upper := if b =? 237 then 159 else 191 |})
  else if (240 <=? b) && (b <=? 244) then
    ([], {| cp := b - 240; needed := 3; seen := 0;
            lower := if b =? 240 then 144 else 128;
            upper := if b =? 244 then 143 else 191 |})
  else ([65533], init).

Definition step (st : state) (b : Z) : text * state :=
  if needed st =? 0 then lead b
  else if (b <? lower st) || (upper st <? b) then
    let '(o, st') := lead b in (65533 :: o, st')
  else
    let c := cp st * 64 + (b - 128) in
    if seen st + 1 =? needed st then ([c], init)
    else ([], {| cp := c; needed := needed st; seen := seen st + 1;
                 lower := 128; upper := 191 |}).

Fixpoint run (st : state) (bs : bytes) : text * state :=
  match bs with
  | [] => ([], st)
  | b :: bs' =>
      let '(o, st1) := step st b in
      let '(o', st2) := run st1 bs' in
      (o ++ o', st2)
  end.

(** A [TextDecoder("utf-8")]: decoder state and the "BOM seen" flag
    ([ignoreBOM] is left at its default, false). *)
Record TextDecoder := { dstate : state; bom_seen : bool }.

Definition newTextDecoder : TextDecoder :=
  {| dstate := init; bom_seen := false |}.

(** Output serialisation: the first code point is dropped when it is
    U+FEFF. *)
Definition serialize (seen_bom : bool) (o : text) : text * bool :=
  if seen_bom then (o, true)
  else match o with
       | [] => ([], false)
       | c :: o' => (if c =? 65279 then o' else o, true)
       end.

(** [decoder.decode(chunk, { stream: true })]. *)
Definition decode_stream (d : TextDecoder) (chunk : bytes)
  : text * TextDecoder :=
  let '(o, st) := run (dstate d) chunk in
  let '(o', bs) := serialize (bom_seen d) o in
  (o', {| dstate := st; bom_seen := bs |}).

(** [new TextDecoder("utf-8").decode(data)]: the whole input at once; an
    unfinished sequence at the end yields U+FFFD. *)
Definition decode (data : bytes) : text :=
  let '(o, st) := run init data in
  let o1 := if needed st =? 0 then o else o ++ [65533] in
  fst (serialize false o1).

End Utf8.

(** ** JavaScript values

    Objects live in a heap and are referred to by identity, so that a value
    may be shared or may contain itself. *)

Abbreviation loc := nat.

Inductive jsval :=
| JNull
| JUndefined
| JBool (b : bool)
| JNumber (bits : Z)
| JString (s : Utf8.text)
| JSymbol                      (* a symbol or a bigint *)
| JRef (l : loc).

(** What an iterator hands out: a [Uint8Array] or something else. *)
Inductive item := Piece (b : bytes) | NotBytes.

Inductive jsobj :=
| OBoolean (b : bool)                       (* new Boolean(b) *)
| ONumber (bits : Z)                        (* new Number(x) *)
| OString (s : Utf8.text)                   (* new String(s) *)
| OUint8Array (b : bytes)
| OAsyncIterable (items : list item)        (* has Symbol.asyncIterator *)
| OArray (elems : list jsval)
| OObject (props : list (Utf8.text * jsval))
| OOther.                                   (* a function, Date, Map, ... *)

(** A location outside the heap behaves like an object of no known class. *)
Definition deref (h : gmap loc jsobj) (l : loc) : jsobj :=
  default OOther (h !! l).

(** The binary64 pattern of an integer in [0, 255]. *)
Definition float_of_byte (x : Z) : Z :=
  if x =? 0 then 0
  else let e := Z.log2 x in
       (1023 + e) * 4503599627370496 + (x - 2 ^ e) * 2 ^ (52 - e).

(** The UTF-16 code units of a string, each as a one-unit string. *)
Definition code_units (s : Utf8.text) : list jsval :=
  flat_map (fun c =>
    if c <? 65536 then [JString [c]]
    else [JString [55296 + (c - 65536) / 1024];
          JString [56320 + (c - 65536) mod 1024]]) s.

(** The values [value[key]] met by [for (const key in value)]. *)
Definition for_in_values (o : jsobj) : list jsval :=
  match o with
  | OBoolean _ | ONumber _ | OAsyncIterable _ | OOther => []
  | OString s => code_units s
  | OUint8Array b => map (fun x => JNumber (float_of_byte x)) b
  | OArray elems => elems
  | OObject props => map snd props
  end.

(** [hasCircular(value, refs)]: the [WeakSet] is threaded through the
    calls; a [true] answer leaves the visited ancestors in it. *)
Fixpoint hasCircular (fuel : nat) (h : gmap loc jsobj) (value : jsval)
  (refs : gset loc) : result (bool * gset loc) :=
  match fuel with
  | O => OutOfFuel
  | S fuel' =>
      match value with
      | JRef l =>
          if decide (l ∈ refs) then Ok (true, refs)
          else
            (fix for_in (vs : list jsval) (refs : gset loc) :=
               match vs with
               | [] => Ok (false, refs ∖ {[l]})
               | v :: vs' =>
                   do (c, refs') <- hasCircular fuel' h v refs;
                   if c then Ok (true, refs') else for_in vs' refs'
               end) (for_in_values (deref h l)) ({[l]} ∪ refs)
      | _ => Ok (false, refs)
      end
  end.

(** ** The encoder: iterators of [generator.ts] *)

Inductive IteratorResult := IValue (v : item) | IDone.

(** The iterators of the encoder, each with its fields.  An array iterator
    (also the iterator of a user's async iterable) is the list of what it
    has still to hand out. *)
#[warnings="-register-all"]
Inductive iter :=
| ArrayIterator (items : list item)
| CommonIterator (done : bool) (prefix : option bytes) (source : iter)
| StreamIterator (done : bool) (prefix : option bytes) (source : iter)
    (chunkData : list bytes) (chunkSize : Z) (remain : option bytes)
| MultiIterator (values : list jsval) (index : nat) (iterator : option iter).

(** The iterables returned by [generator]: which closure is waiting behind
    [Symbol.asyncIterator]. *)
Inductive iterable :=
| CommonIterable (type : TYPES) (source : list item)
| StreamIterable (type : TYPES) (source : list item)
| ArrayIterable (value : loc)
| ObjectIterable (value : loc).

(** [StreamIterator.flushChunk(done)] on the staging fields: the chunk that
    is returned; the fields are reset by the caller. *)
Definition flushChunk (chunkData : list bytes) (chunkSize : Z) (done : bool)
  : bytes :=
  let chunkData1 := setUint32 chunkSize :: chunkData in
  let chunkData2 :=
    if negb (chunkSize =? 0) && done then chunkData1 ++ [[0; 0; 0; 0]]
    else chunkData1 in
  concat chunkData2.

Section Encoder.

Context {T : TagCodes}.

(** [generator(value)]: the dispatch on the kind of the value. *)
Definition generator (h : gmap loc jsobj) (value : jsval) : result iterable :=
  match value with
  | JNull => Ok (CommonIterable NULL [])
  | JUndefined => Ok (CommonIterable UNDEFINED [])
  | JBool b => Ok (CommonIterable BOOLEAN [Piece [if b then 1 else 0]])
  | JNumber x => Ok (CommonIterable NUMBER [Piece (setFloat64 x)])
  | JString s => Ok (StreamIterable STRING [Piece (Utf8.encode s)])
  | JSymbol => Err NotAnObject
  | JRef l =>
      match deref h l with
      | OBoolean b => Ok (CommonIterable BOOLEAN [Piece [if b then 1 else 0]])
      | ONumber x => Ok (CommonIterable NUMBER [Piece (setFloat64 x)])
      | OString s => Ok (StreamIterable STRING [Piece (Utf8.encode s)])
      | OUint8Array b => Ok (StreamIterable STREAM [Piece b])
      | OAsyncIterable items => Ok (StreamIterable STREAM items)
      | OArray _ => Ok (ArrayIterable l)
      | OObject _ => Ok (ObjectIterable l)
      | OOther => Err InvalidData
      end
  end.

(** The [flatted] array of the Object case: key, value, key, value, ... *)
Definition flatted (props : list (Utf8.text * jsval)) : list jsval :=
  flat_map (fun kv => [JString (fst kv); snd kv]) props.

(** [iterable[Symbol.asyncIterator]()]. *)
Definition asyncIterator (fuel : nat) (h : gmap loc jsobj) (it : iterable)
  : result iter :=
  match it with
  | CommonIterable type source =>
      Ok (CommonIterator false (Some [code type]) (ArrayIterator source))
  | StreamIterable type source =>
      Ok (StreamIterator false (Some [code type]) (ArrayIterator source)
            [] 0 None)
  | ArrayIterable l =>
      do (c, _) <- hasCircular fuel h (JRef l) ∅;
      if c then Err CircularReference
      else Ok (StreamIterator false (Some [code ARRAY])
                 (MultiIterator
                    (match deref h l with OArray e => e | _ => [] end) 0 None)
                 [] 0 None)
  | ObjectIterable l =>
      do (c, _) <- hasCircular fuel h (JRef l) ∅;
      if c then Err CircularReference
      else
        let props := match deref h l with OObject p => p | _ => [] end in
        Ok (StreamIterator false (Some [code OBJECT])
              (MultiIterator (flatted props) 0 None) [] 0 None)
  end.

(** [generator(value)[Symbol.asyncIterator]()]. *)
Definition open_generator (fuel : nat) (h : gmap loc jsobj) (value : jsval)
  : result iter :=
  do it <- generator h value; asyncIterator fuel h it.

(** [iterator.next()] for every iterator of the encoder. *)
Fixpoint next (fuel : nat) (h : gmap loc jsobj) (it : iter)
  : result (IteratorResult * iter) :=
  match fuel with
  | O => OutOfFuel
  | S fuel' =>
      match it with
      | ArrayIterator [] => Ok (IDone, it)
      | ArrayIterator (x :: rest) => Ok (IValue x, ArrayIterator rest)
      | CommonIterator done prefix source =>
          if done then Ok (IDone, it)
          else
            match prefix with
            | Some p =>
                Ok (IValue (Piece p), CommonIterator false None source)
            | None =>
                do (item, source') <- next fuel' h source;
                match item with
                | IDone => Ok (IDone, CommonIterator true None source')
                | IValue NotBytes => Err InvalidData
                | IValue (Piece b) =>
                    Ok (IValue (Piece b), CommonIterator false None source')
                end
            end
      | StreamIterator done prefix source chunkData chunkSize remain =>
          if done then Ok (IDone, it)
          else
            match prefix with
            | Some p =>
                Ok (IValue (Piece p),
                    StreamIterator false None source chunkData chunkSize remain)
            | None =>
                if 65536 <=? chunkSize then
                  Ok (IValue (Piece (flushChunk chunkData chunkSize false)),
                      StreamIterator false None source [] 0 remain)
                else
                  do (item, source', remain') <-
                    match remain with
                    | Some r =>
                        if negb (blen r =? 0) then Ok (IValue (Piece r), source, None)
                        else do (i, s) <- next fuel' h source; Ok (i, s, remain)
                    | None =>
                        do (i, s) <- next fuel' h source; Ok (i, s, remain)
                    end;
                  match item with
                  | IDone =>
                      Ok (IValue (Piece (flushChunk chunkData chunkSize true)),
                          StreamIterator true None source' [] 0 remain')
                  | IValue NotBytes => Err InvalidData
                  | IValue (Piece value) =>
                      let space := 4294967295 - chunkSize in
                      if blen value <=? space then
                        next fuel' h
                          (StreamIterator false None source'
                             (chunkData ++ [value]) (chunkSize + blen value)
                             remain')
                      else
                        next fuel' h
                          (StreamIterator false None source'
                             (chunkData ++ [take (Z.to_nat space) value])
                             4294967295
                             (Some (drop (Z.to_nat space) value)))
                  end
            end
      | MultiIterator values index iterator =>
          if (index =? length values)%nat then Ok (IDone, it)
          else
            do iterator1 <-
              match iterator with
              | Some i => Ok i
              | None => open_generator fuel' h (nth index values JUndefined)
              end;
            do (item, iterator2) <- next fuel' h iterator1;
            match item with
            | IValue v => Ok (IValue v, MultiIterator values index (Some iterator2))
            | IDone => next fuel' h (MultiIterator values (index + 1) None)
            end
      end
  end.

(** Draining an iterator ([for await], [asyncConcat]): the pieces handed
    out, and how the iteration ended. *)
Fixpoint drain (fuel : nat) (h : gmap loc jsobj) (it : iter)
  : list item * result unit :=
  match fuel with
  | O => ([], OutOfFuel)
  | S fuel' =>
      match next fuel h it with
      | Ok (IValue v, it') =>
          let '(vs, r) := drain fuel' h it' in (v :: vs, r)
      | Ok (IDone, _) => ([], Ok tt)
      | Err e => ([], Err e)
      | OutOfFuel => ([], OutOfFuel)
      | Unmodelled => ([], Unmodelled)
      end
  end.

(** Encoding a value and draining the result; the pieces are [Uint8Array]s. *)
Definition encode (fuel : nat) (h : gmap loc jsobj) (value : jsval)
  : list item * result unit :=
  match open_generator fuel h value with
  | Ok it => drain fuel h it
  | Err e => ([], Err e)
  | OutOfFuel => ([], OutOfFuel)
  | Unmodelled => ([], Unmodelled)
  end.

(** The bytes of a sequence of pieces ([concat]). *)
Definition bytes_of (items : list item) : bytes :=
  flat_map (fun i => match i with Piece b => b | NotBytes => [] end) items.

End Encoder.

(** ** The byte source of the decoder *)

(** Modelled from the spec: [Splitable] comes from the package
    async-iterable-split, which is not part of the repository.  Its
    operations follow the contract the specification states for the byte
    source: read exactly N bytes or fail, expose the remaining chunked
    stream as a further source, report whether bytes remain.  A source is
    the lazy sequence of the bytes it will still deliver; a read that would
    throw is an [LErr] at that position, so that what is never read never
    fails. *)

Inductive lstream :=
| LNil                         (* the outermost source is exhausted *)
| LRet (parent : lstream)      (* a sub-stream has ended; its parent goes on *)
| LErr (e : error)             (* reading here throws *)
| LCons (b : Z) (s : lstream).

(** The chunks of a chunked stream, as its sub-iterable hands them out. *)
Inductive cstream :=
| CEnd (parent : lstream)      (* the zero-length chunk was read *)
| CErr (e : error)
| CChunk (data : bytes) (rest : cstream).

Fixpoint lapp (b : bytes) (s : lstream) : lstream :=
  match b with
  | [] => s
  | x :: b' => LCons x (lapp b' s)
  end.

(** [createSplitable(bytes)]. *)
Definition createSplitable (b : bytes) : lstream := lapp b LNil.

(** [splitable.readEnoughSize(n)]. *)
Fixpoint readEnoughSize (n : nat) (s : lstream) : result (bytes * lstream) :=
  match n with
  | O => Ok ([], s)
  | S n' =>
      match s with
      | LCons b s' => do (bs, s'') <- readEnoughSize n' s'; Ok (b :: bs, s'')
      | LErr e => Err e
      | LNil | LRet _ => Err NotEnoughData
      end
  end.

(** [await splitable.hasValue]. *)
Definition hasValue (s : lstream) : result bool :=
  match s with
  | LCons _ _ => Ok true
  | LNil | LRet _ => Ok false
  | LErr e => Err e
  end.

(** [splitable.splitChunkedStream()]: each chunk is a 4-byte big-endian
    length and that many bytes; a length of 0 ends the stream. *)
Fixpoint split_data (left : Z) (acc : bytes) (s : lstream) {struct s}
  : cstream :=
  match s with
  | LCons b s' =>
      if left =? 1 then CChunk (rev (b :: acc)) (split_head s')
      else split_data (left - 1) (b :: acc) s'
  | LErr e => CErr e
  | LNil | LRet _ => CErr NotEnoughData
  end
with split_head (s : lstream) {struct s} : cstream :=
  match s with
  | LCons b0 (LCons b1 (LCons b2 (LCons b3 s'))) =>
      let size := getUint32 b0 b1 b2 b3 in
      if size =? 0 then CEnd s' else split_data size [] s'
  | LErr e
  | LCons _ (LErr e)
  | LCons _ (LCons _ (LErr e))
  | LCons _ (LCons _ (LCons _ (LErr e))) => CErr e
  | _ => CErr NotEnoughData
  end.

Definition splitChunkedStream (s : lstream) : cstream := split_head s.

(** [new Splitable(subIterable)]: the bytes of the chunks; after the last
    one the parent source is where the zero-length chunk left it. *)
Fixpoint Splitable (c : cstream) : lstream :=
  match c with
  | CEnd p => LRet p
  | CErr e => LErr e
  | CChunk d r => lapp d (Splitable r)
  end.

(** The parent of an exhausted sub-stream. *)
Definition parent_of (s : lstream) : lstream :=
  match s with LRet p => p | _ => LNil end.

(** [splitable.readChunkedStream(maxSize)]: the whole chunked stream in one
    buffer. *)
Fixpoint concatChunks (c : cstream) (maxSize : limit) (size : Z) (acc : bytes)
  : result (bytes * lstream) :=
  match c with
  | CEnd p => Ok (acc, p)
  | CErr e => Err e
  | CChunk d r =>
      if exceeds (size + blen d) maxSize then Err StreamSizeExceeded
      else concatChunks r maxSize (size + blen d) (acc ++ d)
  end.

Definition readChunkedStream (maxSize : limit) (s : lstream)
  : result (bytes * lstream) :=
  concatChunks (splitChunkedStream s) maxSize 0 [].

(** ** The decoder: [parser.ts] *)

(** The values built by the decoder: fresh, unshared trees. *)
#[warnings="-register-all"]
Inductive Value :=
| VNull
| VUndefined
| VBool (b : bool)
| VNumber (bits : Z)
| VString (s : Utf8.text)
| VStream (b : bytes)
| VArray (elems : list Value)
| VObject (props : list (Utf8.text * Value)).

Record options := {
  streamMaxSize : limit;
  stringMaxSize : limit;
  arrayMaxLength : limit;
  objectMaxLength : limit;
  maxDepth : limit
}.

(** [{}] as options: every limit is [Infinity]. *)
Definition default_options : options :=
  {| streamMaxSize := Infinity; stringMaxSize := Infinity;
     arrayMaxLength := Infinity; objectMaxLength := Infinity;
     maxDepth := Infinity |}.

(** The key [__proto__]. *)
Definition proto_key : Utf8.text := [95; 95; 112; 114; 111; 116; 111; 95; 95].

(** Replacing or appending an own property, in insertion order. *)
Fixpoint set_property (props : list (Utf8.text * Value)) (key : Utf8.text)
  (value : Value) : list (Utf8.text * Value) :=
  match props with
  | [] => [(key, value)]
  | (k, v) :: rest =>
      if bool_decide (k = key) then (k, value) :: rest
      else (k, v) :: set_property rest key value
  end.

(** [result[key] = value] on an object that started as [{}].  The key
    [__proto__] reaches the setter of [Object.prototype]: no own property
    is made; a primitive other than [null] is ignored, anything else
    replaces the prototype, which is where the model stops. *)
Definition assign (props : list (Utf8.text * Value)) (key : Utf8.text)
  (value : Value) : result (list (Utf8.text * Value)) :=
  if bool_decide (key = proto_key) then
    match value with
    | VUndefined | VBool _ | VNumber _ | VString _ => Ok props
    | VNull | VStream _ | VArray _ | VObject _ => Unmodelled
    end
  else Ok (set_property props key value).

(** The loop of the STRING case over the chunks of the payload. *)
Fixpoint string_loop (c : cstream) (stringMax : limit) (size : Z)
  (text : Utf8.text) (decoder : Utf8.TextDecoder)
  : result (Utf8.text * lstream) :=
  match c with
  | CEnd p => Ok (text, p)
  | CErr e => Err e
  | CChunk chunk r =>
      if exceeds (size + blen chunk) stringMax then Err StringSizeExceeded
      else
        let '(o, decoder') := Utf8.decode_stream decoder chunk in
        string_loop r stringMax (size + blen chunk) (text ++ o) decoder'
  end.

(** The byte-to-tag dispatch, in the order of the [if] chain of [parser]. *)
Definition type_of_byte {T : TagCodes} (b : Z) : option TYPES :=
  if b =? code NULL then Some NULL
  else if b =? code UNDEFINED then Some UNDEFINED
  else if b =? code BOOLEAN then Some BOOLEAN
  else if b =? code NUMBER then Some NUMBER
  else if b =? code STREAM then Some STREAM
  else if b =? code STRING then Some STRING
  else if b =? code ARRAY then Some ARRAY
  else if b =? code OBJECT then Some OBJECT
  else None.

(** The [while (await subSplitable.hasValue)] loop of the ARRAY case;
    [parse] is the recursive call of [parser]. *)
Definition array_loop
  (parse : lstream -> list (Utf8.text + Z) -> result (Value * lstream))
  (o : options) (paths : list (Utf8.text + Z))
  : nat -> lstream -> list Value -> result (Value * lstream) :=
  fix while (n : nat) (subSplitable : lstream) (elems : list Value) :=
    match n with
    | O => OutOfFuel
    | S n' =>
        do more <- hasValue subSplitable;
        if more : bool then
          if reaches (Z.of_nat (length elems)) (arrayMaxLength o)
          then Err ArrayLengthExceeded
          else
            do (element, sub') <-
              parse subSplitable (paths ++ [inr (Z.of_nat (length elems))]);
            while n' sub' (elems ++ [element])
        else Ok (VArray elems, parent_of subSplitable)
    end.

(** The loop of the OBJECT case.  The counter [length] of the source is
    never incremented, so the limit is compared with 0. *)
Definition object_loop {T : TagCodes}
  (parse : lstream -> list (Utf8.text + Z) -> result (Value * lstream))
  (o : options) (paths : list (Utf8.text + Z))
  : nat -> lstream -> list (Utf8.text * Value) -> result (Value * lstream) :=
  fix while (n : nat) (subSplitable : lstream)
    (props : list (Utf8.text * Value)) :=
    match n with
    | O => OutOfFuel
    | S n' =>
        do more <- hasValue subSplitable;
        if more : bool then
          if reaches 0 (objectMaxLength o) then Err ObjectLengthExceeded
          else
            do (t, sub1) <- readEnoughSize 1 subSplitable;
            if negb (hd 0 t =? code STRING) then Err InvalidKey
            else
              do (raw, sub2) <- readChunkedStream (stringMaxSize o) sub1;
              let key := Utf8.decode raw in
              do (value, sub3) <- parse sub2 (paths ++ [inl key]);
              do props' <- assign props key value;
              while n' sub3 props'
        else Ok (VObject props, parent_of subSplitable)
    end.

Section Decoder.

Context {T : TagCodes}.

(** [parser(splitable, options, paths)]: the value read and the source as
    the reads have left it. *)
Fixpoint parser (fuel : nat) (splitable : lstream) (o : options)
  (paths : list (Utf8.text + Z)) : result (Value * lstream) :=
  match fuel with
  | O => OutOfFuel
  | S fuel' =>
      if exceeds (Z.of_nat (length paths)) (maxDepth o) then Err DepthExceeded
      else
        do (tag, s1) <- readEnoughSize 1 splitable;
        match type_of_byte (hd 0 tag) with
        | Some NULL => Ok (VNull, s1)
        | Some UNDEFINED => Ok (VUndefined, s1)
        | Some BOOLEAN =>
            do (data, s2) <- readEnoughSize 1 s1;
            if hd 0 data =? 0 then Ok (VBool false, s2)
            else if hd 0 data =? 1 then Ok (VBool true, s2)
            else Err InvalidData
        | Some NUMBER =>
            do (data, s2) <- readEnoughSize 8 s1;
            Ok (VNumber (getFloat64 data), s2)
        | Some STREAM =>
            do (data, s2) <- readChunkedStream (streamMaxSize o) s1;
            Ok (VStream data, s2)
        | Some STRING =>
            do (text, s2) <-
              string_loop (splitChunkedStream s1) (stringMaxSize o) 0 []
                Utf8.newTextDecoder;
            Ok (VString text, s2)
        | Some ARRAY =>
            array_loop (fun s p => parser fuel' s o p) o paths fuel'
              (Splitable (splitChunkedStream s1)) []
        | Some OBJECT =>
            object_loop (fun s p => parser fuel' s o p) o paths fuel'
              (Splitable (splitChunkedStream s1)) []
        | None => Err InvalidType
        end
  end.

(** [parser(bytes, options)] on a whole buffer. *)
Definition decode (fuel : nat) (o : options) (b : bytes) : result Value :=
  do (v, _) <- parser fuel (createSplitable b) o []; Ok v.

End Decoder.

(** ** A concrete tag table *)

(** Modelled from the spec: [constants.ts], which gives the members of
    [TYPES] their codes, is missing.  The specification asks for eight
    distinct one-byte tags and names no number; this table numbers them in
    the order of the enum.  It is used only where a closed example is
    evaluated; every general statement is over any [TagCodes]. *)
Definition enum_code (t : TYPES) : Z :=
  match t with
  | NULL => 0 | UNDEFINED => 1 | BOOLEAN => 2 | NUMBER => 3
  | STREAM => 4 | STRING => 5 | ARRAY => 6 | OBJECT => 7
  end.

Definition enum_codes : TagCodes :=
  {| code := enum_code;
     code_inj := ltac:(intros [] []; simpl; intros E;
                       first [reflexivity | discriminate E]);
     code_byte := ltac:(intros []; simpl; lia) |}.

(** ** The wire format, as the specification words it *)

(** One chunk on the wire: its length field, then its data. *)
Definition frame (d : bytes) : bytes := setUint32 (blen d) ++ d.

(** A data chunk carries between 1 and 4294967295 bytes. *)
Definition valid_chunk (d : bytes) : Prop := 1 <= blen d <= 4294967295.

(** A chunked stream: data chunks, then the zero-length chunk. *)
Definition frames (cs : list bytes) : bytes :=
  flat_map frame cs ++ [0; 0; 0; 0].

(** What the sub-iterable of a well-formed chunked stream hands out. *)
Fixpoint chunks_then (cs : list bytes) (p : lstream) : cstream :=
  match cs with
  | [] => CEnd p
  | c :: cs' => CChunk c (chunks_then cs' p)
  end.

(** ** Iteration, as seen by a consumer *)

Section Iteration.

Context {T : TagCodes}.

(** [it.next()] settles with [r]. *)
Definition Next (h : gmap loc jsobj) (it : iter)
  (r : result (IteratorResult * iter)) : Prop :=
  exists n, next n h it = r /\ r <> OutOfFuel.

(** Pulling from [it] until it is done or throws hands out [vs] and ends
    with [r]. *)
Inductive Steps (h : gmap loc jsobj) : iter -> list item -> result unit -> Prop :=
| Steps_done it it' :
    Next h it (Ok (IDone, it')) -> Steps h it [] (Ok tt)
| Steps_throw it e :
    Next h it (Err e) -> Steps h it [] (Err e)
| Steps_value it v it' vs r :
    Next h it (Ok (IValue v, it')) -> Steps h it' vs r ->
    Steps h it (v :: vs) r.

End Iteration.

(** What was handed out, against the staged and incoming bytes [data]: on
    success the framing of [data]; on a throw only whole flushed chunks,
    fewer than 65536 bytes being lost. *)
Definition chunker_post (res : result unit) (data : bytes)
  (out chunks : list bytes) : Prop :=
  Forall valid_chunk chunks /\
  match res with
  | Ok _ => concat out = frames chunks /\ concat chunks = data
  | _ =>
      concat out = flat_map frame chunks /\
      Forall (fun c => 65536 <= blen c) chunks /\
      exists rest, data = concat chunks ++ rest /\ blen rest < 65536
  end.

(** What a [StreamIterator] with empty [remain] does over a source whose
    remaining pieces hold [tail]. *)
Definition chunker_ok {T : TagCodes} (h : gmap loc jsobj) (src : iter)
  (res : result unit) (tail : bytes) : Prop :=
  forall cd cs, cs = blen (concat cd) -> cs < 65536 ->
  exists out chunks,
    Steps h (StreamIterator false None src cd cs None) (map Piece out) res /\
    chunker_post res (concat cd ++ tail) out chunks.

(** [generator(value)[Symbol.asyncIterator]()] returns [it]. *)
Definition Opens {T : TagCodes} (h : gmap loc jsobj) (v : jsval)
  (r : result iter) : Prop :=
  exists n, open_generator n h v = r /\ r <> OutOfFuel.

(** Encoding [v] hands out [vs] and ends with [r]: the iterator may fail
    to open, fail on the way, or finish. *)
Definition Encodes {T : TagCodes} (h : gmap loc jsobj) (v : jsval)
  (vs : list item) (r : result unit) : Prop :=
  (exists it, Opens h v (Ok it) /\ Steps h it vs r) \/
  (exists e, Opens h v (Err e) /\ vs = [] /\ r = Err e).

(** Encoding the values of a list one after the other, as
    [multiGenerator] does: it stops at the first one that throws. *)
Inductive EncodesAll {T : TagCodes} (h : gmap loc jsobj)
  : list jsval -> list item -> result unit -> Prop :=
| EncodesAll_nil : EncodesAll h [] [] (Ok tt)
| EncodesAll_cons v vs out rest r :
    Encodes h v out (Ok tt) -> EncodesAll h vs rest r ->
    EncodesAll h (v :: vs) (out ++ rest) r
| EncodesAll_throw v vs out e :
    Encodes h v out (Err e) -> EncodesAll h (v :: vs) out (Err e).

(** ** Reference cycles *)

(** [l'] is the value of an enumerable property of the object at [l]. *)
Definition edge (h : gmap loc jsobj) (l l' : loc) : Prop :=
  JRef l' ∈ for_in_values (deref h l).

(** A reference cycle can be reached from the object at [l]. *)
Definition has_cycle (h : gmap loc jsobj) (l : loc) : Prop :=
  exists m, rtc (edge h) l m /\ tc (edge h) m m.

(** The traversal from [v] meets one of its ancestors [anc]. *)
Inductive Hit (h : gmap loc jsobj) : gset loc -> jsval -> Prop :=
| Hit_here anc l : l ∈ anc -> Hit h anc (JRef l)
| Hit_below anc l c :
    l ∉ anc -> c ∈ for_in_values (deref h l) -> Hit h ({[l]} ∪ anc) c ->
    Hit h anc (JRef l).

(** A walk along edges. *)
Fixpoint walk (h : gmap loc jsobj) (x : loc) (w : list loc) : Prop :=
  match w with
  | [] => True
  | y :: w' => edge h x y /\ walk h y w'
  end.

(** ** Values and their wire form *)

(** The decoded tree [t] has the shape and content of the heap value [v]:
    equality bit by bit for a Number, byte by byte for a Stream, code point
    by code point for a String, structural for an Array and an Object.  A
    wrapper object stands for its primitive. *)
#[warnings="-register-all"]
Inductive represents (h : gmap loc jsobj) : jsval -> Value -> Prop :=
| rep_null : represents h JNull VNull
| rep_undefined : represents h JUndefined VUndefined
| rep_bool b : represents h (JBool b) (VBool b)
| rep_number x : represents h (JNumber x) (VNumber x)
| rep_string s : represents h (JString s) (VString s)
| rep_Boolean l b :
    h !! l = Some (OBoolean b) -> represents h (JRef l) (VBool b)
| rep_Number l x :
    h !! l = Some (ONumber x) -> represents h (JRef l) (VNumber x)
| rep_String l s :
    h !! l = Some (OString s) -> represents h (JRef l) (VString s)
| rep_bytes l b :
    h !! l = Some (OUint8Array b) -> represents h (JRef l) (VStream b)
| rep_stream l ps :
    h !! l = Some (OAsyncIterable (map Piece ps)) ->
    represents h (JRef l) (VStream (concat ps))
| rep_array l es ts :
    h !! l = Some (OArray es) -> Forall2 (represents h) es ts ->
    represents h (JRef l) (VArray ts)
| rep_object l ps qs :
    h !! l = Some (OObject ps) ->
    Forall2 (fun p q => fst p = fst q /\ represents h (snd p) (snd q)) ps qs ->
    represents h (JRef l) (VObject qs).

(** The number of nodes of a tree. *)
Fixpoint vsize (t : Value) : nat :=
  match t with
  | VArray ts => S (list_sum (map vsize ts))
  | VObject ps => S (list_sum (map (fun '(_, v) => vsize v) ps))
  | _ => 1
  end.

(** A tag, then a chunked stream that carries [payload]. *)
Definition wire_chunked {T : TagCodes} (tag : TYPES) (payload bs : bytes)
  : Prop :=
  exists cs, Forall valid_chunk cs /\ concat cs = payload /\
             bs = code tag :: frames cs.

(** The payload of an Array: its elements, one after the other. *)
Definition wire_elements (W : Value -> bytes -> Prop)
  : list Value -> bytes -> Prop :=
  fix all ts payload :=
    match ts with
    | [] => payload = []
    | t :: r => exists b1 b2, payload = b1 ++ b2 /\ W t b1 /\ all r b2
    end.

(** The payload of an Object: key, value, key, value, ... *)
Definition wire_properties {T : TagCodes} (W : Value -> bytes -> Prop)
  : list (Utf8.text * Value) -> bytes -> Prop :=
  fix all ps payload :=
    match ps with
    | [] => payload = []
    | (k, v) :: r =>
        exists bk bv b2,
          payload = bk ++ bv ++ b2 /\
          wire_chunked STRING (Utf8.encode k) bk /\ W v bv /\ all r b2
    end.

(** [bs] is a wire form of [t], in the grammar of the format. *)
Fixpoint Wire {T : TagCodes} (t : Value) (bs : bytes) {struct t} : Prop :=
  match t with
  | VNull => bs = [code NULL]
  | VUndefined => bs = [code UNDEFINED]
  | VBool b => bs = [code BOOLEAN; if b then 1 else 0]
  | VNumber x => bs = code NUMBER :: setFloat64 x
  | VString s => wire_chunked STRING (Utf8.encode s) bs
  | VStream b => wire_chunked STREAM b bs
  | VArray ts =>
      exists payload,
        wire_chunked ARRAY payload bs /\ wire_elements Wire ts payload
  | VObject ps =>
      exists payload,
        wire_chunked OBJECT payload bs /\ wire_properties Wire ps payload
  end.

(** ** Values that survive the trip *)

(** Text made of Unicode scalar values that does not start with U+FEFF. *)
Definition nice_text (s : Utf8.text) : bool :=
  forallb Utf8.is_scalar s &&
  negb (match s with c :: _ => c =? 65279 | [] => false end).

(** A tree whose Numbers are 64-bit patterns, whose Strings and keys are
    [nice_text], and whose Objects have distinct keys, none of them
    [__proto__]. *)
Fixpoint plain (t : Value) : bool :=
  match t with
  | VNumber x => (0 <=? x) && (x <? 18446744073709551616)
  | VString s => nice_text s
  | VArray ts => forallb plain ts
  | VObject ps =>
      forallb (fun '(k, v) =>
                 nice_text k && negb (bool_decide (k = proto_key)) && plain v) ps
      && bool_decide (NoDup (map fst ps))
  | _ => true
  end.

(** A payload of [n] bytes goes over the limit [l]: the sizes are checked
    chunk by chunk, so an empty payload never does. *)
Definition over (n : Z) (l : limit) : bool := negb (n =? 0) && exceeds n l.

(** The elements of an Array, from index [i] on; [V] is the verdict on one
    element. *)
Definition verdict_elements (V : Value -> option error) (o : options)
  : list Value -> Z -> option error :=
  fix elements ts i :=
    match ts with
    | [] => None
    | t :: r =>
        if reaches i (arrayMaxLength o) then Some ArrayLengthExceeded
        else match V t with
             | Some e => Some e
             | None => elements r (i + 1)
             end
    end.

(** The properties of an Object; a key over [stringMaxSize] is refused by
    [readChunkedStream]. *)
Definition verdict_properties (V : Value -> option error) (o : options)
  : list (Utf8.text * Value) -> option error :=
  fix properties ps :=
    match ps with
    | [] => None
    | (k, v) :: r =>
        if reaches 0 (objectMaxLength o) then Some ObjectLengthExceeded
        else if over (blen (Utf8.encode k)) (stringMaxSize o)
        then Some StreamSizeExceeded
        else match V v with
             | Some e => Some e
             | None => properties r
             end
    end.

(** The first limit that decoding a well-formed encoding of [t] runs into,
    at path length [d], in the order in which [parser] checks them. *)
Fixpoint verdict (o : options) (d : Z) (t : Value) : option error :=
  if exceeds d (maxDepth o) then Some DepthExceeded
  else
    match t with
    | VString s =>
        if over (blen (Utf8.encode s)) (stringMaxSize o)
        then Some StringSizeExceeded else None
    | VStream b =>
        if over (blen b) (streamMaxSize o)
        then Some StreamSizeExceeded else None
    | VArray ts => verdict_elements (verdict o (d + 1)) o ts 0
    | VObject ps => verdict_properties (verdict o (d + 1)) o ps
    | _ => None
    end.

(** What [parser] answers on a well-formed encoding of [t]. *)
Definition expected (o : options) (d : Z) (t : Value) (s : lstream)
  : result (Value * lstream) :=
  match verdict o d t with
  | None => Ok (t, s)
  | Some e => Err e
  end.
(** [result[key] = value] for every pair of [ps] in turn, the keys being
    other than [__proto__]. *)
Definition assign_all (props ps : list (Utf8.text * Value))
  : list (Utf8.text * Value) :=
  fold_left (fun acc kv => set_property acc (fst kv) (snd kv)) ps props.


(** ** Depth and limits *)

(** The depth of a value, as the comment above [parser] defines it: the
    length of the longest access path; [[]] has depth 0, [[[]]] depth 1,
    [[[false]]] depth 2. *)
Fixpoint depth (t : Value) : Z :=
  match t with
  | VArray ts => fold_right (fun t acc => Z.max (1 + depth t) acc) 0 ts
  | VObject ps => fold_right (fun '(_, v) acc => Z.max (1 + depth v) acc) 0 ps
  | _ => 0
  end.

(** The length of the longest Array in a value. *)
Fixpoint longest_array (t : Value) : Z :=
  match t with
  | VArray ts =>
      fold_right (fun t acc => Z.max (longest_array t) acc)
        (Z.of_nat (length ts)) ts
  | VObject ps => fold_right (fun '(_, v) acc => Z.max (longest_array v) acc) 0 ps
  | _ => 0
  end.

(** [{ maxDepth: m }]. *)
Definition depth_only (m : Z) : options :=
  {| streamMaxSize := Infinity; stringMaxSize := Infinity;
     arrayMaxLength := Infinity; objectMaxLength := Infinity;
     maxDepth := Finite m |}.

(** [{ arrayMaxLength: m }]. *)
Definition array_only (m : Z) : options :=
  {| streamMaxSize := Infinity; stringMaxSize := Infinity;
     arrayMaxLength := Finite m; objectMaxLength := Infinity;
     maxDepth := Infinity |}.

(** ** Chunked payloads on the wire *)

(** The chunks of a byte string that is nothing but chunks, each with its
    data; the zero-length ones included. *)
Fixpoint wire_chunks_from (n : nat) (b : bytes) : option (list bytes) :=
  match n with
  | O => None
  | S n' =>
      match b with
      | [] => Some []
      | b0 :: b1 :: b2 :: b3 :: rest =>
          let size := Z.to_nat (getUint32 b0 b1 b2 b3) in
          if (length rest <? size)%nat then None
          else option_map (cons (take size rest))
                 (wire_chunks_from n' (drop size rest))
      | _ => None
      end
  end.

Definition wire_chunks (b : bytes) : option (list bytes) :=
  wire_chunks_from (S (length b)) b.

(** The values whose payload is a chunked stream, and their tags. *)
Definition chunked_tag (t : Value) : option TYPES :=
  match t with
  | VString _ => Some STRING
  | VStream _ => Some STREAM
  | VArray _ => Some ARRAY
  | VObject _ => Some OBJECT
  | _ => None
  end.

(** ** Composite and wrapper objects *)

(** An Array or a plain Object. *)
Definition composite (o : jsobj) : bool :=
  match o with OArray _ | OObject _ => true | _ => false end.

(** The primitive value of a wrapper object, as [+value] and string
    concatenation read it. *)
Definition unwrap (o : jsobj) : option jsval :=
  match o with
  | OBoolean b => Some (JBool b)
  | ONumber x => Some (JNumber x)
  | OString s => Some (JString s)
  | _ => None
  end.

(** ** What a [StreamIterator] is fed *)

(** Pulling from the source of a [StreamIterator] gives the pieces [ps];
    then the source is done, or it throws, or it hands out something that
    is no [Uint8Array], which makes the iterator throw "Invalid data". *)
Inductive Feeds {T : TagCodes} (h : gmap loc jsobj)
  : iter -> list bytes -> result unit -> Prop :=
| Feeds_done src src' :
    Next h src (Ok (IDone, src')) -> Feeds h src [] (Ok tt)
| Feeds_throw src e :
    Next h src (Err e) -> Feeds h src [] (Err e)
| Feeds_other src src' :
    Next h src (Ok (IValue NotBytes, src')) -> Feeds h src [] (Err InvalidData)
| Feeds_piece src p src' ps r :
    Next h src (Ok (IValue (Piece p), src')) -> Feeds h src' ps r ->
    Feeds h src (p :: ps) r.

(** Every chunk but the last holds at least 65536 bytes. *)
Definition filled (chunks : list bytes) : Prop :=
  Forall (fun c => 65536 <= blen c) (removelast chunks).

(** What a [StreamIterator] with empty [remain] does when it is fed
    [tail] and then [res]. *)
Definition chunker_fed {T : TagCodes} (h : gmap loc jsobj) (src : iter)
  (res : result unit) (tail : bytes) : Prop :=
  forall cd cs, cs = blen (concat cd) -> cs < 65536 ->
  exists out chunks,
    Steps h (StreamIterator false None src cd cs None) (map Piece out) res /\
    chunker_post res (concat cd ++ tail) out chunks /\ filled chunks.

(** A String, Stream, Array or Object with nothing in it. *)
Definition empty_payload (t : Value) : bool :=
  match t with
  | VString [] | VStream [] | VArray [] | VObject [] => true
  | _ => false
  end.

(** ** Sources that end too early *)

(** A source that has nothing more to deliver: it is exhausted, or the
    source it was split from ended in the middle of a chunk. *)
Definition short (s : lstream) : Prop := s = LNil \/ s = LErr NotEnoughData.

(** What the sub-iterable hands out when the source ends before the
    zero-length chunk: the whole chunks, then a failed read. *)
Fixpoint chunks_cut (cs : list bytes) : cstream :=
  match cs with
  | [] => CErr NotEnoughData
  | c :: cs' => CChunk c (chunks_cut cs')
  end.

(** ** Further limits *)

(** [{ stringMaxSize: m }]. *)
Definition string_only (m : Z) : options :=
  {| streamMaxSize := Infinity; stringMaxSize := Finite m;
     arrayMaxLength := Infinity; objectMaxLength := Infinity;
     maxDepth := Infinity |}.

(** [{ objectMaxLength: m }]. *)
Definition object_only (m : Z) : options :=
  {| streamMaxSize := Infinity; stringMaxSize := Infinity;
     arrayMaxLength := Infinity; objectMaxLength := Finite m;
     maxDepth := Infinity |}.

(** An Object with at least one pair is met when the tree is read: the
    tree is one, or is an Array with one in it. *)
Fixpoint has_pairs (t : Value) : bool :=
  match t with
  | VArray ts => existsb has_pairs ts
  | VObject ps => match ps with [] => false | _ :: _ => true end
  | _ => false
  end.

(** ** Strings as they come back *)

(** The code point that [TextEncoder] writes for [c]. *)
Definition usv (c : Z) : Z := if Utf8.is_surrogate c then 65533 else c.

(** The code points of a string: each one in range, and no high surrogate
    followed by a low one, since such a pair is one code point. *)
Fixpoint code_points (s : Utf8.text) : bool :=
  match s with
  | [] => true
  | c :: r =>
      (0 <=? c) && (c <=? 1114111) &&
      negb ((55296 <=? c) && (c <=? 56319) &&
            match r with
            | d :: _ => (56320 <=? d) && (d <=? 57343)
            | [] => false
            end) &&
      code_points r
  end.

(** Dropping one leading U+FEFF. *)
Definition strip_bom (s : Utf8.text) : Utf8.text :=
  match s with
  | c :: r => if c =? 65279 then r else s
  | [] => []
  end.

(** The tags whose payload is a chunked stream. *)
Definition chunked (tag : TYPES) : bool :=
  match tag with
  | STREAM | STRING | ARRAY | OBJECT => true
  | _ => false
  end.

(** The errors with which [parser] and the byte source refuse what goes
    over a limit. *)
Definition limit_error (e : error) : bool :=
  match e with
  | DepthExceeded | StringSizeExceeded | StreamSizeExceeded
  | ArrayLengthExceeded | ObjectLengthExceeded => true
  | _ => false
  end.

(** ** Values for the worked examples *)

(** ["foo"], ["bar"], ["baz"] and ["abc中文😊"]. *)
Definition foo : Utf8.text := [102; 111; 111].
Definition bar : Utf8.text := [98; 97; 114].
Definition baz : Utf8.text := [98; 97; 122].
Definition abc : Utf8.text := [97; 98; 99; 20013; 25991; 128522].

(** A heap with the values of the test script:
    1: [["foo", "bar", "baz"]]; 2: [{ foo: { bar: "baz" } }], 3 its inner
    object; 4: [new Boolean(true)]; 5: [new Number(0.1)];
    6: [new String("abc中文😊")]; 7: [Uint8Array.from([1, 2, 3])];
    8: the Array of -0, object 6, ["abc中文😊"], object 2 and object 7. *)
Definition test_heap : gmap loc jsobj :=
  list_to_map
    [(1%nat, OArray [JString foo; JString bar; JString baz]);
     (2%nat, OObject [(foo, JRef 3%nat)]);
     (3%nat, OObject [(bar, JString baz)]);
     (4%nat, OBoolean true);
     (5%nat, ONumber 4591870180066957722);
     (6%nat, OString abc);
     (7%nat, OUint8Array [1; 2; 3]);
     (8%nat, OArray [JNumber 9223372036854775808; JRef 6%nat; JString abc;
                     JRef 2%nat; JRef 7%nat])].

Definition test_tree : Value :=
  VArray [VNumber 9223372036854775808; VString abc; VString abc;
          VObject [(foo, VObject [(bar, VString baz)])]; VStream [1; 2; 3]].

(** A [Uint8Array] of 4294967296 bytes, one more than a chunk can hold. *)
Definition huge_length : nat := Z.to_nat 4294967296.

Definition huge_piece : bytes := repeat 0 huge_length.

Definition huge_heap : gmap loc jsobj := {[ 1%nat := OUint8Array huge_piece ]}.

(** A Stream source that delivers one piece of 5,000,000 bytes. *)
Definition big_length : nat := Z.to_nat 5000000.

Definition big_piece : bytes := repeat 0 big_length.

Definition big_heap : gmap loc jsobj :=
  {[ 1%nat := OAsyncIterable [Piece big_piece] ]}.

(** [{ foo: { bar: "baz" } }], of depth 2, against [maxDepth] 1 and 2. *)
Definition foo_bar_baz : Value := VObject [(foo, VObject [(bar, VString baz)])].

(** An Array that contains itself: [a = [5]; a.push(a)]. *)
Definition cyclic_heap : gmap loc jsobj :=
  {[ 1%nat := OArray [JNumber 4617315517961601024; JRef 1%nat] ]}.

(** An Array of 5 elements against [arrayMaxLength] 3, and one of 3. *)
Definition five_heap : gmap loc jsobj :=
  list_to_map
    [(1%nat, OArray [JBool true; JBool false; JNull; JUndefined; JString foo]);
     (2%nat, OArray [JString foo; JString bar; JString baz])].

(** [["f", () => 0]]: an Array whose second element is a function. *)
Definition function_heap : gmap loc jsobj :=
  list_to_map [(1%nat, OArray [JString [102]; JRef 2%nat]); (2%nat, OOther)].



(** [new String("\uFEFF")]: a String wrapper whose text is U+FEFF alone. *)
Definition bom_heap : gmap loc jsobj := {[ 1%nat := OString [65279] ]}.

(** ["中文"]: two characters, six bytes of UTF-8. *)
Definition zhong_wen : Utf8.text := [20013; 25991].

(** [[true]], an Array with one element, on the wire. *)
Definition array_of_true : bytes := [6; 0; 0; 0; 2; 2; 1; 0; 0; 0; 0].

(** [{ foo: true, bar: null }]: an Object with two pairs. *)
Definition pairs_heap : gmap loc jsobj :=
  {[ 1%nat := OObject [(foo, JBool true); (bar, JNull)] ]}.

Definition pairs_tree : Value := VObject [(foo, VBool true); (bar, VNull)].

(** A Stream source that hands out three bytes, then a string, then one
    more byte. *)
Definition mixed_heap : gmap loc jsobj :=
  {[ 1%nat := OAsyncIterable [Piece [1; 2; 3]; NotBytes; Piece [4]] ]}.

(** [[]]: an Array with no element. *)
Definition nothing_heap : gmap loc jsobj := {[ 1%nat := OArray [] ]}.

(** * Properties *)

(** ** Fields and tags *)

Lemma getUint32_setUint32 x :
  match setUint32 x with
  | [b0; b1; b2; b3] => getUint32 b0 b1 b2 b3 = x mod 4294967296
  | _ => False
  end.
Proof. unfold setUint32, getUint32. Z.div_mod_to_equations. lia. Qed.

Lemma getFloat64_setFloat64 x :
  getFloat64 (setFloat64 x) = x mod 18446744073709551616.
Proof.
  unfold setFloat64, getFloat64. cbn [fold_left].
  Z.div_mod_to_equations. lia.
Qed.

Section TagFacts.

Context {T : TagCodes}.

Lemma code_eqb a b : (code a =? code b) = bool_decide (a = b).
Proof.
  destruct (Z.eqb_spec (code a) (code b)) as [E|E].
  - apply code_inj in E. subst. symmetry. apply bool_decide_eq_true. reflexivity.
  - symmetry. apply bool_decide_eq_false. intros ->. apply E. reflexivity.
Qed.

Lemma type_of_byte_code t : type_of_byte (code t) = Some t.
Proof.
  unfold type_of_byte. rewrite !code_eqb.
  destruct t; repeat (case_bool_decide; try congruence).
Qed.

End TagFacts.

(** ** UTF-8 *)

Module Utf8Facts.

Import Utf8.

Ltac decide_tests :=
  repeat match goal with
  | |- context [?a <=? ?b] => destruct (Z.leb_spec a b); try lia
  | |- context [?a <? ?b] => destruct (Z.ltb_spec a b); try lia
  | |- context [?a =? ?b] => destruct (Z.eqb_spec a b); try lia
  end.

Ltac run_steps :=
  cbn [run]; unfold step, lead;
  cbn [needed cp seen lower upper init andb orb];
  decide_tests;
  cbn [needed cp seen lower upper init andb orb app].

Lemma split64 c :
  exists q r, c = 64 * q + r /\ 0 <= r < 64 /\ c / 64 = q /\ c mod 64 = r.
Proof. exists (c / 64), (c mod 64). Z.div_mod_to_equations. lia. Qed.

Lemma scalar_range c :
  is_scalar c = true -> 0 <= c <= 1114111 /\ ~ (55296 <= c <= 57343).
Proof.
  unfold is_scalar, is_surrogate. intros H.
  apply andb_true_iff in H as [H1 H3]. apply andb_true_iff in H1 as [H1 H2].
  apply negb_true_iff, andb_false_iff in H3. lia.
Qed.

Lemma run_encode_cp c :
  is_scalar c = true -> run init (encode_cp c) = ([c], init).
Proof.
  intros [Hr Hs]%scalar_range. unfold encode_cp.
  destruct (Z.ltb_spec c 128).
  { run_steps. reflexivity. }
  replace (c / 4096) with (c / 64 / 64) by (rewrite Z.div_div by lia; reflexivity).
  replace (c / 262144) with (c / 64 / 64 / 64) by (rewrite !Z.div_div by lia; reflexivity).
  destruct (split64 c) as (q1 & r1 & E1 & B1 & D1 & M1). rewrite ?D1, ?M1.
  destruct (Z.ltb_spec c 2048).
  { clear D1 M1. repeat run_steps. do 2 f_equal. lia. }
  destruct (split64 q1) as (q2 & r2 & E2 & B2 & D2 & M2). rewrite ?D2, ?M2.
  destruct (Z.ltb_spec c 65536).
  { clear D1 M1 D2 M2. repeat run_steps; do 2 f_equal; lia. }
  destruct (split64 q2) as (q3 & r3 & E3 & B3 & D3 & M3). rewrite ?D3, ?M3.
  clear D1 M1 D2 M2 D3 M3. repeat run_steps; do 2 f_equal; lia.
Qed.

Lemma run_app st a b :
  run st (a ++ b) =
  let '(o1, st1) := run st a in
  let '(o2, st2) := run st1 b in (o1 ++ o2, st2).
Proof.
  revert st. induction a as [|x a IH]; intros st; cbn [run app].
  - destruct (run st b). reflexivity.
  - destruct (step st x) as [o s1]. rewrite IH.
    destruct (run s1 a) as [o1 s2]. destruct (run s2 b) as [o2 s3].
    rewrite app_assoc. reflexivity.
Qed.

(** Text made of Unicode scalar values only. *)
Lemma run_encode s :
  forallb is_scalar s = true -> run init (encode s) = (s, init).
Proof.
  induction s as [|c s IH]; cbn [forallb]; intros H; [reflexivity|].
  apply andb_true_iff in H as [Hc Hs].
  unfold encode. cbn [flat_map]. fold (encode s).
  replace (is_surrogate c) with false
    by (symmetry; unfold is_scalar in Hc; destruct (is_surrogate c);
        [rewrite andb_false_r in Hc; discriminate | reflexivity]).
  rewrite run_app, run_encode_cp, IH by assumption. reflexivity.
Qed.

End Utf8Facts.

(** ** Reading chunked streams *)

Lemma blen_app a b : blen (a ++ b) = blen a + blen b.
Proof. unfold blen. rewrite length_app. lia. Qed.

Lemma blen_cons x a : blen (x :: a) = 1 + blen a.
Proof. unfold blen. cbn [length]. lia. Qed.

Lemma blen_nonneg a : 0 <= blen a.
Proof. unfold blen. lia. Qed.

Lemma lapp_app a b s : lapp (a ++ b) s = lapp a (lapp b s).
Proof. induction a as [|x a IH]; cbn [lapp app]; [|rewrite IH]; reflexivity. Qed.

Lemma split_data_chunk d acc s :
  d <> [] ->
  split_data (blen d) acc (lapp d s) = CChunk (rev acc ++ d) (split_head s).
Proof.
  revert acc. induction d as [|b d IH]; intros acc Hd; [congruence|].
  cbn [lapp split_data]. destruct d as [|b' d].
  - cbn [lapp rev]. reflexivity.
  - rewrite blen_cons. pose proof (blen_nonneg (b' :: d)) as Hn.
    rewrite blen_cons in Hn |- *. pose proof (blen_nonneg d).
    destruct (Z.eqb_spec (1 + (1 + blen d)) 1); [lia|].
    replace (1 + (1 + blen d) - 1) with (blen (b' :: d))
      by (rewrite blen_cons; lia).
    rewrite IH by congruence. cbn [rev]. rewrite <- app_assoc. reflexivity.
Qed.

Lemma split_head_frame d s :
  valid_chunk d ->
  split_head (lapp (frame d) s) = CChunk d (split_head s).
Proof.
  intros [Hlo Hhi]. unfold frame. rewrite lapp_app.
  pose proof (getUint32_setUint32 (blen d)) as Hg.
  destruct (setUint32 (blen d)) as [|b0 [|b1 [|b2 [|b3 [|]]]]]; try contradiction.
  cbn [lapp split_head]. rewrite Hg, Z.mod_small by lia.
  destruct (Z.eqb_spec (blen d) 0); [lia|].
  rewrite split_data_chunk; [reflexivity|].
  intros ->. unfold blen in Hlo. simpl in Hlo. lia.
Qed.

Lemma splitChunkedStream_frames cs s :
  Forall valid_chunk cs ->
  splitChunkedStream (lapp (frames cs) s) = chunks_then cs s.
Proof.
  unfold splitChunkedStream, frames. induction 1 as [|c cs Hc _ IH].
  - reflexivity.
  - cbn [flat_map chunks_then]. rewrite <- app_assoc, lapp_app.
    rewrite split_head_frame by assumption. rewrite IH. reflexivity.
Qed.

Lemma Splitable_chunks cs p :
  Splitable (chunks_then cs p) = lapp (concat cs) (LRet p).
Proof.
  induction cs as [|c cs IH]; cbn [chunks_then Splitable concat]; [reflexivity|].
  rewrite lapp_app, IH. reflexivity.
Qed.

(** ** More fuel never changes an answer *)

Lemma hasCircular_mono n : forall m h v refs r,
  hasCircular n h v refs = r -> r <> OutOfFuel -> (n <= m)%nat ->
  hasCircular m h v refs = r.
Proof.
  induction n as [|n IH]; intros m h v refs r Hr Hne Hle.
  { cbn in Hr. congruence. }
  destruct m as [|m]; [lia|]. assert (n <= m)%nat as Hle' by lia.
  destruct v; cbn [hasCircular] in *; try assumption.
  destruct (decide (l ∈ refs)); [assumption|].
  revert Hr. generalize ({[l]} ∪ refs) as rs.
  generalize (for_in_values (deref h l)) as vs.
  induction vs as [|v vs IHvs]; intros rs Hr; [assumption|].
  destruct (hasCircular n h v rs) as [[c rs']| | |] eqn:E.
  - rewrite (IH m h v rs _ E) by (congruence || lia). cbn [rbind] in *.
    destruct c; [assumption|]. apply IHvs. assumption.
  - rewrite (IH m h v rs _ E) by (congruence || lia). assumption.
  - cbn [rbind] in Hr. congruence.
  - rewrite (IH m h v rs _ E) by (congruence || lia). assumption.
Qed.

Section Fuel.

Context {T : TagCodes}.

Lemma open_generator_mono n m h v r :
  open_generator n h v = r -> r <> OutOfFuel -> (n <= m)%nat ->
  open_generator m h v = r.
Proof.
  unfold open_generator. intros Hr Hne Hle.
  destruct (generator h v) as [it| | |]; cbn [rbind] in *; try assumption.
  destruct it; cbn [asyncIterator] in *; try assumption.
  - destruct (hasCircular n h (JRef value) ∅) as [[c rs]| | |] eqn:E;
      try (rewrite (hasCircular_mono _ _ _ _ _ _ E) by (congruence || lia); assumption).
    cbn [rbind] in Hr. congruence.
  - destruct (hasCircular n h (JRef value) ∅) as [[c rs]| | |] eqn:E;
      try (rewrite (hasCircular_mono _ _ _ _ _ _ E) by (congruence || lia); assumption).
    cbn [rbind] in Hr. congruence.
Qed.

Ltac mono_next IH m n h it :=
  let E := fresh "E" in
  destruct (next n h it) as [[? ?]| | |] eqn:E;
  [ rewrite (IH m h it _ E) by (discriminate || assumption)
  | rewrite (IH m h it _ E) by (discriminate || assumption)
  | idtac
  | rewrite (IH m h it _ E) by (discriminate || assumption) ];
  cbn [rbind] in *.

Ltac mono_open m n h v :=
  let E := fresh "E" in
  destruct (open_generator n h v) as [?| | |] eqn:E;
  [ rewrite (open_generator_mono n m h v _ E) by (discriminate || assumption)
  | rewrite (open_generator_mono n m h v _ E) by (discriminate || assumption)
  | idtac
  | rewrite (open_generator_mono n m h v _ E) by (discriminate || assumption) ];
  cbn [rbind] in *.

Ltac mono_step IH m :=
  match goal with
  | Hr : ?x = ?r |- ?x = ?r => exact Hr
  | Hr : OutOfFuel = ?r, Hne : ?r <> OutOfFuel |- _ =>
      exfalso; apply Hne; symmetry; exact Hr
  | Hr : next ?n ?h ?it = ?r |- next m ?h ?it = ?r =>
      apply (IH m h it r Hr); assumption
  | Hr : (if ?b then _ else _) = _ |- _ => destruct b eqn:?
  | Hr : rbind (next ?n ?h ?it) _ = _ |- _ => mono_next IH m n h it
  | Hr : rbind (rbind (next ?n ?h ?it) _) _ = _ |- _ => mono_next IH m n h it
  | Hr : rbind (open_generator ?n ?h ?v) _ = _ |- _ => mono_open m n h v
  | Hr : rbind (if ?b then _ else _) _ = _ |- _ => destruct b eqn:?; cbn [rbind] in *
  | Hr : rbind (match ?x with _ => _ end) _ = _ |- _ => destruct x; cbn [rbind] in *
  | Hr : (match ?x with _ => _ end) = _ |- _ => destruct x
  end.

Lemma next_mono n : forall m h it r,
  next n h it = r -> r <> OutOfFuel -> (n <= m)%nat -> next m h it = r.
Proof.
  induction n as [|n IH]; intros m h it r Hr Hne Hle.
  { cbn in Hr. congruence. }
  destruct m as [|m]; [lia|]. assert (n <= m)%nat as Hle' by lia. clear Hle.
  destruct it as [items|done prefix source|done prefix source cd cs remain|values index iterator];
    cbn [next] in *.
  all: repeat mono_step IH m.
Qed.

End Fuel.

(** ** The chunker of [StreamIterator] *)

Section Chunker.

Context {T : TagCodes}.
Variable h : gmap loc jsobj.

Lemma Steps_transfer it1 it2 vs res :
  (forall r, Next h it2 r -> Next h it1 r) ->
  Steps h it2 vs res -> Steps h it1 vs res.
Proof.
  intros Ht Hs. inversion Hs; subst.
  - eapply Steps_done. apply Ht. eassumption.
  - eapply Steps_throw. apply Ht. eassumption.
  - eapply Steps_value; [apply Ht; eassumption | assumption].
Qed.

Lemma Next_at it r n m :
  next n h it = r -> r <> OutOfFuel -> (n <= m)%nat -> next m h it = r.
Proof. apply next_mono. Qed.

Lemma Next_prefix p src cd cs rem :
  Next h (StreamIterator false (Some p) src cd cs rem)
    (Ok (IValue (Piece p), StreamIterator false None src cd cs rem)).
Proof. exists 1%nat. split; [reflexivity | discriminate]. Qed.

Lemma Next_flush src cd cs rem :
  65536 <= cs ->
  Next h (StreamIterator false None src cd cs rem)
    (Ok (IValue (Piece (flushChunk cd cs false)),
         StreamIterator false None src [] 0 rem)).
Proof.
  intros Hcs. exists 1%nat. split; [|discriminate]. cbn [next].
  destruct (Z.leb_spec 65536 cs); [reflexivity | lia].
Qed.

Lemma Next_pull_fit src src' cd cs p :
  cs < 65536 -> blen p <= 4294967295 - cs ->
  Next h src (Ok (IValue (Piece p), src')) ->
  forall r,
    Next h (StreamIterator false None src' (cd ++ [p]) (cs + blen p) None) r ->
    Next h (StreamIterator false None src cd cs None) r.
Proof.
  intros Hcs Hfit (n1 & E1 & _) r (n2 & E2 & Hne).
  exists (S (n1 `max` n2)). split; [|assumption]. cbn [next].
  destruct (Z.leb_spec 65536 cs); [lia|].
  rewrite (Next_at _ _ _ (n1 `max` n2) E1) by (discriminate || lia).
  cbn [rbind]. destruct (Z.leb_spec (blen p) (4294967295 - cs)); [|lia].
  apply (Next_at _ _ _ _ E2); [assumption | lia].
Qed.

Lemma Next_pull_cut src src' cd cs p :
  cs < 65536 -> 4294967295 - cs < blen p ->
  Next h src (Ok (IValue (Piece p), src')) ->
  forall r,
    Next h (StreamIterator false None src'
              (cd ++ [take (Z.to_nat (4294967295 - cs)) p]) 4294967295
              (Some (drop (Z.to_nat (4294967295 - cs)) p))) r ->
    Next h (StreamIterator false None src cd cs None) r.
Proof.
  intros Hcs Hfit (n1 & E1 & _) r (n2 & E2 & Hne).
  exists (S (n1 `max` n2)). split; [|assumption]. cbn [next].
  destruct (Z.leb_spec 65536 cs); [lia|].
  rewrite (Next_at _ _ _ (n1 `max` n2) E1) by (discriminate || lia).
  cbn [rbind]. destruct (Z.leb_spec (blen p) (4294967295 - cs)); [lia|].
  apply (Next_at _ _ _ _ E2); [assumption | lia].
Qed.

Lemma Next_remain_fit src cd cs r0 :
  cs < 65536 -> r0 <> [] -> blen r0 <= 4294967295 - cs ->
  forall r,
    Next h (StreamIterator false None src (cd ++ [r0]) (cs + blen r0) None) r ->
    Next h (StreamIterator false None src cd cs (Some r0)) r.
Proof.
  intros Hcs Hr0 Hfit r (n2 & E2 & Hne).
  exists (S n2). split; [|assumption]. cbn [next].
  destruct (Z.leb_spec 65536 cs); [lia|].
  assert (blen r0 <> 0) by (destruct r0; [congruence | rewrite blen_cons; pose proof (blen_nonneg r0); lia]).
  destruct (Z.eqb_spec (blen r0) 0); [lia|]. cbn [negb rbind].
  destruct (Z.leb_spec (blen r0) (4294967295 - cs)); [|lia].
  assumption.
Qed.

Lemma Next_remain_cut src cd cs r0 :
  cs < 65536 -> 4294967295 - cs < blen r0 ->
  forall r,
    Next h (StreamIterator false None src
              (cd ++ [take (Z.to_nat (4294967295 - cs)) r0]) 4294967295
              (Some (drop (Z.to_nat (4294967295 - cs)) r0))) r ->
    Next h (StreamIterator false None src cd cs (Some r0)) r.
Proof.
  intros Hcs Hfit r (n2 & E2 & Hne).
  exists (S n2). split; [|assumption]. cbn [next].
  destruct (Z.leb_spec 65536 cs); [lia|].
  destruct (Z.eqb_spec (blen r0) 0); [lia|]. cbn [negb rbind].
  destruct (Z.leb_spec (blen r0) (4294967295 - cs)); [lia|].
  assumption.
Qed.

Lemma Next_source_done src src' cd cs :
  cs < 65536 ->
  Next h src (Ok (IDone, src')) ->
  Next h (StreamIterator false None src cd cs None)
    (Ok (IValue (Piece (flushChunk cd cs true)),
         StreamIterator true None src' [] 0 None)).
Proof.
  intros Hcs (n1 & E1 & _). exists (S n1). split; [|discriminate]. cbn [next].
  destruct (Z.leb_spec 65536 cs); [lia|]. rewrite E1. reflexivity.
Qed.

Lemma Next_finished p src cd cs rem :
  Next h (StreamIterator true p src cd cs rem)
    (Ok (IDone, StreamIterator true p src cd cs rem)).
Proof. exists 1%nat. split; [reflexivity | discriminate]. Qed.

Lemma Next_source_throw src cd cs e :
  cs < 65536 ->
  Next h src (Err e) ->
  Next h (StreamIterator false None src cd cs None) (Err e).
Proof.
  intros Hcs (n1 & E1 & _). exists (S n1). split; [|discriminate]. cbn [next].
  destruct (Z.leb_spec 65536 cs); [lia|]. rewrite E1. reflexivity.
Qed.

Lemma chunker_post_cons res data out chunks c :
  valid_chunk c -> 65536 <= blen c ->
  chunker_post res data out chunks ->
  chunker_post res (c ++ data) (frame c :: out) (c :: chunks).
Proof.
  intros Hv Hb [Hcs Hp]. split; [constructor; assumption|].
  destruct res as [[]|e| |].
  - destruct Hp as [Ho Hd]. split.
    + cbn [concat]. rewrite Ho. unfold frames. cbn [flat_map].
      rewrite <- app_assoc. reflexivity.
    + cbn [concat]. rewrite Hd. reflexivity.
  - destruct Hp as (Ho & Hbig & rest & Hd & Hr). split; [|split].
    + cbn [concat flat_map]. rewrite Ho. reflexivity.
    + constructor; assumption.
    + exists rest. cbn [concat]. rewrite Hd, app_assoc. split; [reflexivity|assumption].
  - destruct Hp as (Ho & Hbig & rest & Hd & Hr). split; [|split].
    + cbn [concat flat_map]. rewrite Ho. reflexivity.
    + constructor; assumption.
    + exists rest. cbn [concat]. rewrite Hd, app_assoc. split; [reflexivity|assumption].
  - destruct Hp as (Ho & Hbig & rest & Hd & Hr). split; [|split].
    + cbn [concat flat_map]. rewrite Ho. reflexivity.
    + constructor; assumption.
    + exists rest. cbn [concat]. rewrite Hd, app_assoc. split; [reflexivity|assumption].
Qed.

Lemma flushChunk_false cd cs :
  cs = blen (concat cd) -> flushChunk cd cs false = frame (concat cd).
Proof.
  intros ->. unfold flushChunk, frame. rewrite andb_false_r. reflexivity.
Qed.

(** A full staging buffer is flushed, then the source is pulled again. *)
Lemma chunker_settle src res tail cd cs :
  chunker_ok h src res tail ->
  cs = blen (concat cd) -> cs <= 4294967295 ->
  exists out chunks,
    Steps h (StreamIterator false None src cd cs None) (map Piece out) res /\
    chunker_post res (concat cd ++ tail) out chunks.
Proof.
  intros K Hcs Hcap. destruct (Z.lt_ge_cases cs 65536) as [Hlt|Hge].
  - apply K; assumption.
  - destruct (K [] 0 eq_refl ltac:(lia)) as (out & chunks & Hs & Hp).
    exists (frame (concat cd) :: out), (concat cd :: chunks). split.
    + cbn [map]. eapply Steps_value; [|exact Hs].
      rewrite <- (flushChunk_false cd cs Hcs). apply Next_flush. assumption.
    + apply chunker_post_cons; [split; lia | lia | exact Hp].
Qed.

Lemma blen_take n (b : bytes) :
  0 <= n <= blen b -> blen (take (Z.to_nat n) b) = n.
Proof. unfold blen. intros Hn. rewrite length_take. lia. Qed.

Lemma blen_nil_inv (b : bytes) : blen b = 0 -> b = [].
Proof. destruct b; [reflexivity|]. rewrite blen_cons. pose proof (blen_nonneg b). lia. Qed.

Lemma concat_snoc (cd : list bytes) p : concat (cd ++ [p]) = concat cd ++ p.
Proof. rewrite concat_app. cbn [concat]. rewrite app_nil_r. reflexivity. Qed.

(** Feeding the carried-over remainder of an oversized piece. *)
Lemma chunker_remain src res tail :
  chunker_ok h src res tail ->
  forall n r0, (length r0 <= n)%nat -> r0 <> [] ->
  exists out chunks,
    Steps h (StreamIterator false None src [] 0 (Some r0)) (map Piece out) res /\
    chunker_post res (r0 ++ tail) out chunks.
Proof.
  intros K. induction n as [|n IH]; intros r0 Hn Hr0.
  { destruct r0; [congruence | cbn in Hn; lia]. }
  destruct (Z.le_gt_cases (blen r0) 4294967295) as [Hfit|Hcut].
  - destruct (chunker_settle src res tail [r0] (0 + blen r0) K) as (out & chunks & Hs & Hp).
    { cbn [concat]. rewrite app_nil_r. lia. }
    { lia. }
    exists out, chunks. split.
    + eapply Steps_transfer; [|exact Hs]. intros r.
      apply (Next_remain_fit src [] 0 r0); [lia | assumption | lia].
    + cbn [concat] in Hp. rewrite app_nil_r in Hp. exact Hp.
  - set (N := Z.to_nat (4294967295 - 0)).
    assert (blen (take N r0) = 4294967295) as Htake
      by (unfold N; rewrite blen_take; lia).
    destruct (IH (drop N r0)) as (out & chunks & Hs & Hp).
    { rewrite length_drop. unfold N. lia. }
    { intros E. apply (f_equal length) in E. rewrite length_drop in E.
      unfold blen in Hcut. cbn [length] in E. unfold N in E. lia. }
    exists (frame (take N r0) :: out), (take N r0 :: chunks). split.
    + eapply Steps_transfer.
      { intros r. apply (Next_remain_cut src [] 0 r0); lia. }
      cbn [map]. eapply Steps_value; [|exact Hs].
      fold N. cbn [app].
      replace (frame (take N r0)) with (flushChunk [take N r0] 4294967295 false)
        by (rewrite (flushChunk_false [take N r0] 4294967295);
            cbn [concat]; rewrite app_nil_r; [reflexivity | lia]).
      apply Next_flush. lia.
    + rewrite <- (take_drop N r0) at 1. rewrite <- app_assoc.
      apply chunker_post_cons; [split; lia | lia | exact Hp].
Qed.

Lemma flushChunk_true cd cs :
  cs = blen (concat cd) -> cs <= 4294967295 ->
  exists chunks,
    flushChunk cd cs true = frames chunks /\
    Forall valid_chunk chunks /\ concat chunks = concat cd.
Proof.
  intros Hcs Hcap. unfold flushChunk. destruct (Z.eqb_spec cs 0) as [E|E]; cbn [negb andb].
  - exists []. rewrite E in *. symmetry in Hcs. apply blen_nil_inv in Hcs.
    cbn [concat]. rewrite Hcs. split; [reflexivity|]. split; [constructor | reflexivity].
  - exists [concat cd]. split; [|split].
    + unfold frames, frame. cbn [flat_map concat]. rewrite concat_snoc, <- Hcs.
      cbn [concat]. rewrite !app_nil_r, <- !app_assoc. reflexivity.
    + constructor; [|constructor]. pose proof (blen_nonneg (concat cd)). split; lia.
    + cbn [concat]. apply app_nil_r.
Qed.

(** The chunker: whatever the source hands out, the iterator frames it. *)
Lemma chunker src ps res :
  Steps h src (map Piece ps) res -> chunker_ok h src res (concat ps).
Proof.
  intros Hs. remember (map Piece ps) as vs eqn:Evs. revert ps Evs.
  induction Hs as [src src' Hn|src e Hn|src v src' vs res Hn Hs IH];
    intros ps Evs cd cs Hcs Hlt.
  - destruct ps; [|discriminate]. cbn [concat]. rewrite app_nil_r.
    destruct (flushChunk_true cd cs Hcs ltac:(lia)) as (chunks & Hf & Hv & Hc).
    exists [flushChunk cd cs true], chunks. split.
    + cbn [map]. eapply Steps_value.
      * apply Next_source_done; eassumption.
      * eapply Steps_done. apply Next_finished.
    + split; [assumption|]. cbn [concat]. rewrite app_nil_r. split; assumption.
  - destruct ps; [|discriminate]. exists [], []. split.
    + cbn [map]. apply Steps_throw. apply Next_source_throw; assumption.
    + split; [constructor|]. split; [reflexivity|]. split; [constructor|].
      exists (concat cd). cbn [concat app]. rewrite app_nil_r. split; [reflexivity | lia].
  - destruct ps as [|p ps]; [discriminate|]. cbn [map] in Evs.
    injection Evs as -> ->. specialize (IH ps eq_refl).
    pose proof (blen_nonneg (concat cd)) as Hnn.
    cbn [concat]. destruct (Z.le_gt_cases (blen p) (4294967295 - cs)) as [Hfit|Hcut].
    + destruct (chunker_settle src' res (concat ps) (cd ++ [p]) (cs + blen p) IH)
        as (out & chunks & Hs' & Hp).
      { rewrite concat_snoc, blen_app. lia. }
      { lia. }
      exists out, chunks. split.
      * eapply Steps_transfer; [|exact Hs']. intros r.
        apply Next_pull_fit; assumption.
      * rewrite concat_snoc, <- app_assoc in Hp. exact Hp.
    + set (N := Z.to_nat (4294967295 - cs)).
      assert (blen (take N p) = 4294967295 - cs) as Htake
        by (unfold N; rewrite blen_take; lia).
      destruct (chunker_remain src' res (concat ps) IH (length (drop N p)) (drop N p))
        as (out & chunks & Hs' & Hp); [lia| |].
      { intros E. apply (f_equal length) in E. rewrite length_drop in E.
        unfold blen in Hcut. cbn [length] in E. unfold N in E. lia. }
      exists (frame (concat (cd ++ [take N p])) :: out),
             (concat (cd ++ [take N p]) :: chunks). split.
      * eapply Steps_transfer.
        { intros r. apply Next_pull_cut; eassumption. }
        cbn [map]. eapply Steps_value; [|exact Hs']. fold N.
        rewrite <- (flushChunk_false (cd ++ [take N p]) 4294967295).
        -- apply Next_flush. lia.
        -- rewrite concat_snoc, blen_app. lia.
      * replace (concat cd ++ p ++ concat ps)
          with (concat (cd ++ [take N p]) ++ drop N p ++ concat ps).
        -- apply chunker_post_cons; [| |exact Hp]; unfold valid_chunk;
             rewrite concat_snoc, blen_app; lia.
        -- rewrite concat_snoc, <- app_assoc. f_equal.
           rewrite app_assoc, take_drop. reflexivity.
Qed.
End Chunker.

(** ** Iterators over lists, fixed-size values and sequences of values *)

Section Iterators.

Context {T : TagCodes}.
Variable h : gmap loc jsobj.

Lemma Steps_array items : Steps h (ArrayIterator items) items (Ok tt).
Proof.
  induction items as [|x items IH].
  - eapply Steps_done. exists 1%nat. split; [reflexivity | discriminate].
  - eapply Steps_value; [|exact IH].
    exists 1%nat. split; [reflexivity | discriminate].
Qed.

Lemma Steps_common_body src ps :
  Steps h src (map Piece ps) (Ok tt) ->
  Steps h (CommonIterator false None src) (map Piece ps) (Ok tt).
Proof.
  intros Hs. remember (map Piece ps) as vs eqn:E. remember (Ok tt) as res eqn:Er.
  revert ps E Er. induction Hs as [src src' Hn|src e Hn|src v src' vs res Hn Hs IH];
    intros ps E Er.
  - destruct ps; [|discriminate]. destruct Hn as (n & En & _).
    eapply Steps_done. exists (S n). split; [|discriminate].
    cbn [next]. rewrite En. reflexivity.
  - discriminate.
  - destruct ps as [|p ps]; [discriminate|]. injection E as -> ->.
    destruct Hn as (n & En & _). eapply Steps_value.
    + exists (S n). split; [|discriminate]. cbn [next]. rewrite En. reflexivity.
    + apply (IH ps); [reflexivity | assumption].
Qed.

Lemma Steps_common p ps :
  Steps h (CommonIterator false (Some p) (ArrayIterator (map Piece ps)))
    (map Piece (p :: ps)) (Ok tt).
Proof.
  cbn [map]. eapply Steps_value.
  - exists 1%nat. split; [reflexivity | discriminate].
  - apply Steps_common_body, Steps_array.
Qed.

Lemma Next_multi_end values it :
  Next h (MultiIterator values (length values) it)
    (Ok (IDone, MultiIterator values (length values) it)).
Proof.
  exists 1%nat. split; [|discriminate]. cbn [next].
  rewrite Nat.eqb_refl. reflexivity.
Qed.

Lemma Next_multi_open values index it :
  (index < length values)%nat ->
  Opens h (nth index values JUndefined) (Ok it) ->
  forall r, Next h (MultiIterator values index (Some it)) r ->
            Next h (MultiIterator values index None) r.
Proof.
  intros Hi (n1 & E1 & _) r (n2 & E2 & Hne).
  destruct n2 as [|n2]; [cbn in E2; congruence|].
  exists (S (n1 `max` n2)). split; [|assumption].
  cbn [next] in *. destruct (Nat.eqb_spec index (length values)); [lia|].
  rewrite (open_generator_mono _ (n1 `max` n2) _ _ _ E1) by (discriminate || lia).
  cbn [rbind] in *.
  destruct (next n2 h it) as [[i it2]| | |] eqn:E.
  - rewrite (next_mono _ (n1 `max` n2) _ _ _ E) by (discriminate || lia).
    cbn [rbind] in *. destruct i; [assumption|].
    apply (next_mono _ _ _ _ _ E2); [assumption | lia].
  - rewrite (next_mono _ (n1 `max` n2) _ _ _ E) by (discriminate || lia). assumption.
  - cbn [rbind] in E2. congruence.
  - rewrite (next_mono _ (n1 `max` n2) _ _ _ E) by (discriminate || lia). assumption.
Qed.

Lemma Next_multi_open_throw values index e :
  (index < length values)%nat ->
  Opens h (nth index values JUndefined) (Err e) ->
  Next h (MultiIterator values index None) (Err e).
Proof.
  intros Hi (n1 & E1 & _). exists (S n1). split; [|discriminate].
  cbn [next]. destruct (Nat.eqb_spec index (length values)); [lia|].
  rewrite E1. reflexivity.
Qed.

Lemma Next_multi_value values index it v it' :
  (index < length values)%nat ->
  Next h it (Ok (IValue v, it')) ->
  Next h (MultiIterator values index (Some it))
    (Ok (IValue v, MultiIterator values index (Some it'))).
Proof.
  intros Hi (n1 & E1 & _). exists (S n1). split; [|discriminate].
  cbn [next]. destruct (Nat.eqb_spec index (length values)); [lia|].
  cbn [rbind]. rewrite E1. reflexivity.
Qed.

Lemma Next_multi_throw values index it e :
  (index < length values)%nat ->
  Next h it (Err e) ->
  Next h (MultiIterator values index (Some it)) (Err e).
Proof.
  intros Hi (n1 & E1 & _). exists (S n1). split; [|discriminate].
  cbn [next]. destruct (Nat.eqb_spec index (length values)); [lia|].
  cbn [rbind]. rewrite E1. reflexivity.
Qed.

Lemma Next_multi_advance values index it it' :
  (index < length values)%nat ->
  Next h it (Ok (IDone, it')) ->
  forall r, Next h (MultiIterator values (index + 1) None) r ->
            Next h (MultiIterator values index (Some it)) r.
Proof.
  intros Hi (n1 & E1 & _) r (n2 & E2 & Hne).
  exists (S (n1 `max` n2)). split; [|assumption].
  cbn [next]. destruct (Nat.eqb_spec index (length values)); [lia|].
  cbn [rbind]. rewrite (next_mono _ (n1 `max` n2) _ _ _ E1) by (discriminate || lia).
  cbn [rbind]. apply (next_mono _ _ _ _ _ E2); [assumption | lia].
Qed.

(** One element is drained, then the next one is started. *)
Lemma Steps_multi_element values index it vs r rest r' :
  (index < length values)%nat ->
  Steps h it vs r ->
  (r = Ok tt -> Steps h (MultiIterator values (index + 1) None) rest r') ->
  Steps h (MultiIterator values index (Some it))
    (match r with Ok _ => vs ++ rest | _ => vs end)
    (match r with Ok _ => r' | _ => r end).
Proof.
  intros Hi Hs. induction Hs as [it it' Hn|it e Hn|it v it' vs r Hn Hs IH];
    intros Hrest.
  - cbn [app]. eapply Steps_transfer; [|apply Hrest; reflexivity].
    intros r. eapply Next_multi_advance; eassumption.
  - apply Steps_throw. apply Next_multi_throw; assumption.
  - specialize (IH Hrest).
    assert (Steps h (MultiIterator values index (Some it))
              (v :: match r with Ok _ => vs ++ rest | _ => vs end)
              (match r with Ok _ => r' | _ => r end)) as H.
    { eapply Steps_value; [|exact IH]. apply Next_multi_value; assumption. }
    destruct r; exact H.
Qed.

Lemma drop_cons_inv {A} (d : A) (l : list A) i x rest :
  drop i l = x :: rest ->
  (i < length l)%nat /\ nth i l d = x /\ drop (i + 1) l = rest.
Proof.
  revert i. induction l as [|y l IH]; intros i E.
  - rewrite drop_nil in E. discriminate.
  - destruct i as [|i].
    + cbn in E. injection E as -> ->. cbn. split; [lia|]. split; reflexivity.
    + cbn [drop] in E. destruct (IH i E) as (H1 & H2 & H3).
      cbn [length nth]. split; [lia|]. split; assumption.
Qed.

Lemma Steps_multi values out r :
  forall index, (index <= length values)%nat ->
  EncodesAll h (drop index values) out r ->
  Steps h (MultiIterator values index None) out r.
Proof.
  intros index Hi Hall. remember (drop index values) as l eqn:El.
  revert index Hi El.
  induction Hall as [|v vs out rest r Hv Hall IH|v vs out e Hv]; intros index Hi El.
  - assert (index = length values) as ->.
    { apply (f_equal length) in El. rewrite length_drop in El. cbn in El. lia. }
    eapply Steps_done. apply Next_multi_end.
  - symmetry in El. apply (drop_cons_inv JUndefined) in El as (Hlt & Hnth & Hdrop).
    destruct Hv as [(it & Hopen & Hs)|(e & _ & _ & Hr)]; [|discriminate].
    eapply Steps_transfer.
    { intros r0. apply Next_multi_open; [exact Hlt|]. rewrite Hnth. exact Hopen. }
    apply (Steps_multi_element values index it out (Ok tt) rest r Hlt Hs).
    intros _. apply IH; [lia | symmetry; exact Hdrop].
  - symmetry in El. apply (drop_cons_inv JUndefined) in El as (Hlt & Hnth & Hdrop).
    destruct Hv as [(it & Hopen & Hs)|(e' & Hopen & -> & Hr)].
    + eapply Steps_transfer.
      { intros r0. apply Next_multi_open; [exact Hlt|]. rewrite Hnth. exact Hopen. }
      apply (Steps_multi_element values index it out (Err e) [] (Ok tt) Hlt Hs).
      discriminate.
    + injection Hr as ->. apply Steps_throw. apply Next_multi_open_throw; [exact Hlt|].
      rewrite Hnth. exact Hopen.
Qed.

Lemma drain_mono n : forall m it ps r,
  drain n h it = (ps, r) -> r <> OutOfFuel -> (n <= m)%nat ->
  drain m h it = (ps, r).
Proof.
  induction n as [|n IH]; intros m it ps r Hr Hne Hle.
  { cbn in Hr. congruence. }
  destruct m as [|m]; [lia|]. assert (n <= m)%nat as Hle' by lia.
  cbn [drain] in *.
  destruct (next (S n) h it) as [[[v|] it']| | |] eqn:E.
  - rewrite (next_mono _ (S m) _ _ _ E) by (discriminate || lia).
    destruct (drain n h it') as [vs r'] eqn:Ed.
    injection Hr as <- <-. rewrite (IH m it' vs r' Ed) by (assumption || lia).
    reflexivity.
  - rewrite (next_mono _ (S m) _ _ _ E) by (discriminate || lia). assumption.
  - rewrite (next_mono _ (S m) _ _ _ E) by (discriminate || lia). assumption.
  - injection Hr as <- <-. congruence.
  - rewrite (next_mono _ (S m) _ _ _ E) by (discriminate || lia). assumption.
Qed.

Lemma Steps_result it vs r : Steps h it vs r -> r <> OutOfFuel.
Proof. induction 1; [discriminate | discriminate | assumption]. Qed.

Lemma Steps_drain it vs r :
  Steps h it vs r -> exists n, forall m, (n <= m)%nat -> drain m h it = (vs, r).
Proof.
  intros Hs. assert (exists n, drain n h it = (vs, r)) as [n Hn].
  { induction Hs as [it it' Hn|it e Hn|it v it' vs r Hn Hs IH].
    - destruct Hn as (n & E & _). exists (S n). cbn [drain].
      rewrite (next_mono _ (S n) _ _ _ E) by (discriminate || lia). reflexivity.
    - destruct Hn as (n & E & _). exists (S n). cbn [drain].
      rewrite (next_mono _ (S n) _ _ _ E) by (discriminate || lia). reflexivity.
    - destruct Hn as (n1 & E & _). destruct IH as (n2 & E2).
      exists (S (n1 `max` n2)). cbn [drain].
      rewrite (next_mono _ (S (n1 `max` n2)) _ _ _ E) by (discriminate || lia).
      rewrite (drain_mono _ (n1 `max` n2) _ _ _ E2);
        [reflexivity | eapply Steps_result; eassumption | lia]. }
  exists n. intros m Hm. apply (drain_mono n); [assumption | eapply Steps_result; eassumption | assumption].
Qed.

Lemma Encodes_encode v vs r :
  Encodes h v vs r ->
  exists n, forall m, (n <= m)%nat -> encode m h v = (vs, r).
Proof.
  intros [(it & (n1 & E1 & _) & Hs)|(e & (n1 & E1 & _) & -> & ->)].
  - destruct (Steps_drain it vs r Hs) as (n2 & Hd).
    exists (n1 `max` n2)%nat. intros m Hm. unfold encode.
    rewrite (open_generator_mono _ m _ _ _ E1) by (discriminate || lia).
    apply Hd. lia.
  - exists n1. intros m Hm. unfold encode.
    rewrite (open_generator_mono _ m _ _ _ E1) by (discriminate || lia).
    reflexivity.
Qed.
End Iterators.

(** ** The cycle detector *)

Section Cycles.

Variable h : gmap loc jsobj.

Lemma hasCircular_Hit n : forall v refs c refs',
  hasCircular n h v refs = Ok (c, refs') ->
  if c then Hit h refs v else ~ Hit h refs v /\ refs' = refs.
Proof.
  induction n as [|n IH]; intros v refs c refs' Hr; [discriminate|].
  destruct v; cbn [hasCircular] in Hr;
    try (injection Hr as <- <-; split; [intros Hh; inversion Hh | reflexivity]).
  destruct (decide (l ∈ refs)) as [Hin|Hnin].
  { injection Hr as <- <-. apply Hit_here. assumption. }
  assert (forall vs rs, rs = {[l]} ∪ refs ->
            (forall x, x ∈ vs -> x ∈ for_in_values (deref h l)) ->
            (fix for_in (vs : list jsval) (refs : gset loc) {struct vs} :=
               match vs with
               | [] => Ok (false, refs ∖ {[l]})
               | v :: vs' =>
                   do (c, refs') <- hasCircular n h v refs;
                   if c then Ok (true, refs') else for_in vs' refs'
               end) vs rs = Ok (c, refs') ->
            if c then Hit h refs (JRef l)
            else (forall x, x ∈ vs -> ~ Hit h rs x) /\ refs' = rs ∖ {[l]}) as Hloop.
  { induction vs as [|v vs IHvs]; intros rs Hrs Hsub Hl.
    - injection Hl as <- <-. split; [|reflexivity]. intros x Hx.
      apply elem_of_nil in Hx. contradiction.
    - destruct (hasCircular n h v rs) as [[c1 rs1]| | |] eqn:E; cbn [rbind] in Hl;
        try discriminate.
      apply IH in E. destruct c1.
      + injection Hl as <- <-. eapply Hit_below; [assumption| |].
        * apply Hsub. left.
        * rewrite <- Hrs. exact E.
      + destruct E as [Hno ->]. specialize (IHvs rs Hrs).
        destruct c.
        * apply IHvs; [|assumption]. intros x Hx. apply Hsub. right. assumption.
        * destruct IHvs as [Hall Heq]; [|assumption|].
          { intros x Hx. apply Hsub. right. assumption. }
          split; [|assumption]. intros x Hx.
          apply elem_of_cons in Hx as [->|Hx]; [assumption | apply Hall; assumption]. }
  specialize (Hloop _ _ eq_refl (fun x Hx => Hx) Hr). destruct c; [assumption|].
  destruct Hloop as [Hall ->]. split; [|set_solver].
  intros Hh. inversion Hh; subst; [contradiction|]. eapply Hall; eassumption.
Qed.

Lemma hasCircular_terminates n : forall v refs,
  (size (dom h ∖ refs) < n)%nat ->
  exists c refs', hasCircular n h v refs = Ok (c, refs').
Proof.
  induction n as [|n IH]; intros v refs Hsz; [lia|].
  destruct v; cbn [hasCircular]; try (eexists _, _; reflexivity).
  destruct (decide (l ∈ refs)) as [Hin|Hnin]; [eexists _, _; reflexivity|].
  destruct (h !! l) as [o|] eqn:Eh.
  2:{ unfold deref. rewrite Eh. cbn. eexists _, _; reflexivity. }
  assert (l ∈ dom h) as Hdom by (apply elem_of_dom; eauto).
  assert (size (dom h ∖ ({[l]} ∪ refs)) < n)%nat as Hsz'.
  { assert (dom h ∖ ({[l]} ∪ refs) ⊂ dom h ∖ refs) as Hsub by set_solver.
    apply subset_size in Hsub. lia. }
  generalize (for_in_values (deref h l)). intros vs. induction vs as [|v vs IHvs].
  - eexists _, _; reflexivity.
  - destruct (IH v _ Hsz') as (c & r' & E). rewrite E. cbn [rbind].
    destruct c; [eexists _, _; reflexivity|].
    apply hasCircular_Hit in E as [_ ->]. exact IHvs.
Qed.

Lemma Hit_reaches anc v :
  Hit h anc v ->
  forall l, v = JRef l ->
  (exists a, a ∈ anc /\ rtc (edge h) l a) \/ has_cycle h l.
Proof.
  induction 1 as [anc l Hin|anc l c Hnin Hc Hhit IH]; intros l0 E;
    injection E as <-.
  - left. exists l. split; [assumption | reflexivity].
  - inversion Hhit as [anc' l' Hin' | anc' l' c' Hn' Hc' Hh']; subst.
    + assert (edge h l l') as He by exact Hc.
      apply elem_of_union in Hin' as [Hl|Ha].
      * apply elem_of_singleton in Hl as ->. right. exists l.
        split; [reflexivity | apply tc_once; assumption].
      * left. exists l'. split; [assumption | apply rtc_once; assumption].
    + assert (edge h l l') as He by exact Hc.
      destruct (IH l' eq_refl) as [(a & Ha & Hr)|(m & Hr & Hcyc)].
      * apply elem_of_union in Ha as [Hl|Ha].
        -- apply elem_of_singleton in Hl as ->. right. exists l.
           split; [reflexivity|]. eapply tc_rtc_r; [apply tc_once; eassumption | assumption].
        -- left. exists a. split; [assumption | eapply rtc_l; eassumption].
      * right. exists m. split; [eapply rtc_l; eassumption | assumption].
Qed.

Lemma walk_Hit w : forall x anc,
  walk h x w ->
  ~ NoDup (x :: w) \/ (exists y, y ∈ x :: w /\ y ∈ anc) ->
  Hit h anc (JRef x).
Proof.
  induction w as [|y w IH]; intros x anc Hw Hrep.
  - destruct Hrep as [Hnd|(z & Hz & Ha)].
    + exfalso. apply Hnd. apply NoDup_singleton.
    + apply list_elem_of_singleton in Hz as ->. apply Hit_here. assumption.
  - destruct (decide (x ∈ anc)) as [Hin|Hnin]; [apply Hit_here; assumption|].
    destruct Hw as [He Hw]. eapply Hit_below; [assumption | exact He |].
    apply IH; [assumption|].
    destruct (decide (x ∈ y :: w)) as [Hx|Hx].
    { right. exists x. split; [assumption | set_solver]. }
    destruct Hrep as [Hnd|(z & Hz & Ha)].
    + left. intros Hnd'. apply Hnd. apply NoDup_cons. split; assumption.
    + right. apply elem_of_cons in Hz as [->|Hz]; [contradiction|].
      exists z. split; [assumption | set_solver].
Qed.

Lemma rtc_walk x y :
  rtc (edge h) x y -> exists w, walk h x w /\ last (x :: w) = Some y.
Proof.
  induction 1 as [x|x z y He _ (w & Hw & Hl)].
  - exists []. split; [exact I | reflexivity].
  - exists (z :: w). split; [split; assumption|]. rewrite last_cons_cons. exact Hl.
Qed.

Lemma walk_app x w1 y w2 :
  walk h x w1 -> last (x :: w1) = Some y -> walk h y w2 -> walk h x (w1 ++ w2).
Proof.
  revert x. induction w1 as [|z w1 IH]; intros x Hw Hl Hw2.
  - cbn in Hl. injection Hl as ->. exact Hw2.
  - destruct Hw as [He Hw]. rewrite last_cons_cons in Hl.
    cbn [app walk]. split; [assumption | apply IH; assumption].
Qed.

Lemma tc_walk x y :
  tc (edge h) x y -> exists z w, walk h x (z :: w) /\ last (z :: w) = Some y.
Proof.
  induction 1 as [x y He|x z y He _ (z' & w & Hw & Hl)].
  - exists y, []. split; [split; [assumption | exact I] | reflexivity].
  - exists z, (z' :: w). split; [split; assumption|].
    rewrite last_cons_cons. exact Hl.
Qed.

Lemma last_elem_of (l : list loc) x : last l = Some x -> x ∈ l.
Proof.
  intros [l' ->]%last_Some. apply elem_of_app. right. left.
Qed.

Lemma has_cycle_Hit l : has_cycle h l -> Hit h ∅ (JRef l).
Proof.
  intros (m & Hr & Hc).
  apply rtc_walk in Hr as (w1 & Hw1 & Hl1).
  apply tc_walk in Hc as (z & w2 & Hw2 & Hl2).
  apply (walk_Hit (w1 ++ z :: w2)).
  - eapply walk_app; eassumption.
  - left. change (l :: w1 ++ z :: w2) with ((l :: w1) ++ z :: w2).
    intros Hnd. apply NoDup_app in Hnd as (_ & Hdis & _).
    apply (Hdis m); apply last_elem_of; assumption.
Qed.

Lemma Hit_has_cycle l : Hit h ∅ (JRef l) -> has_cycle h l.
Proof.
  intros Hh. destruct (Hit_reaches _ _ Hh l eq_refl) as [(a & Ha & _)|Hc];
    [|assumption]. apply elem_of_empty in Ha. contradiction.
Qed.

(** [hasCircular(value)] answers whether a cycle can be reached. *)
Lemma hasCircular_spec l n :
  (size (dom h) < n)%nat ->
  exists c refs,
    hasCircular n h (JRef l) ∅ = Ok (c, refs) /\ (c = true <-> has_cycle h l).
Proof.
  intros Hn. destruct (hasCircular_terminates n (JRef l) ∅) as (c & refs & E).
  { assert (dom h ∖ ∅ ⊆ dom h) as Hs by set_solver.
    apply subseteq_size in Hs. lia. }
  exists c, refs. split; [assumption|]. apply hasCircular_Hit in E.
  destruct c.
  - split; [intros _; apply Hit_has_cycle; assumption | reflexivity].
  - destruct E as [Hno _]. split; [discriminate|].
    intros Hc. exfalso. apply Hno, has_cycle_Hit, Hc.
Qed.
End Cycles.

(** ** The encoder on represented values *)

Lemma Value_ind' (P : Value -> Prop) :
  P VNull -> P VUndefined -> (forall b, P (VBool b)) ->
  (forall x, P (VNumber x)) -> (forall s, P (VString s)) ->
  (forall b, P (VStream b)) ->
  (forall ts, Forall P ts -> P (VArray ts)) ->
  (forall ps, Forall (fun kv => P (snd kv)) ps -> P (VObject ps)) ->
  forall t, P t.
Proof.
  intros H1 H2 H3 H4 H5 H6 Harr Hobj. fix IH 1. intros [| |b|x|s|b|ts|ps].
  - exact H1.
  - exact H2.
  - apply H3.
  - apply H4.
  - apply H5.
  - apply H6.
  - apply Harr. induction ts as [|t ts IHts]; constructor; [apply IH | exact IHts].
  - apply Hobj. induction ps as [|[k v] ps IHps]; constructor; [apply IH | exact IHps].
Qed.

Section EncoderFacts.

Context {T : TagCodes}.
Variable h : gmap loc jsobj.

Lemma deref_lookup l o : h !! l = Some o -> deref h l = o.
Proof. unfold deref. intros ->. reflexivity. Qed.

Lemma vsize_elem t ts : t ∈ ts -> (vsize t <= list_sum (map vsize ts))%nat.
Proof.
  unfold list_sum. induction 1 as [t ts|t t' ts _ IH]; cbn [map fold_right]; lia.
Qed.

Lemma vsize_prop (kv : Utf8.text * Value) ps :
  kv ∈ ps ->
  (vsize (snd kv) <= list_sum (map (fun '(_, v) => vsize v) ps))%nat.
Proof.
  unfold list_sum.
  induction 1 as [[k v] ps|[k v] [k' v'] ps _ IH]; cbn [map fold_right snd] in *; lia.
Qed.

Lemma code_units_no_ref s l : JRef l ∉ code_units s.
Proof.
  unfold code_units. intros Hin. apply list_elem_of_In, in_flat_map in Hin as (c & _ & Hc).
  destruct (c <? 65536); cbn in Hc; intuition discriminate.
Qed.

Lemma represents_edge l t l' :
  represents h (JRef l) t -> edge h l l' ->
  exists t', represents h (JRef l') t' /\ (vsize t' < vsize t)%nat.
Proof.
  unfold edge. intros Hr He. inversion Hr as
    [| | | | |l0 b Hl|l0 x Hl|l0 s Hl|l0 b Hl|l0 ps Hl|l0 es ts Hl Hall|l0 ps qs Hl Hall]; subst;
    rewrite (deref_lookup _ _ Hl) in He; cbn [for_in_values] in He.
  - apply elem_of_nil in He. contradiction.
  - apply elem_of_nil in He. contradiction.
  - apply code_units_no_ref in He. contradiction.
  - apply list_elem_of_In, in_map_iff in He as (x & Hx & _). discriminate.
  - apply elem_of_nil in He. contradiction.
  - apply list_elem_of_lookup in He as (i & Hi).
    destruct (Forall2_lookup_l _ _ _ _ _ Hall Hi) as (t' & Ht' & Hrep).
    exists t'. split; [assumption|]. cbn [vsize].
    pose proof (vsize_elem t' ts ltac:(eapply list_elem_of_lookup_2; eassumption)). lia.
  - apply list_elem_of_In, in_map_iff in He as ([k v] & Hv & Hin).
    cbn [snd] in Hv. subst v. apply list_elem_of_In in Hin.
    apply list_elem_of_lookup in Hin as (i & Hi).
    destruct (Forall2_lookup_l _ _ _ _ _ Hall Hi) as ([k' t'] & Ht' & _ & Hrep).
    cbn [snd] in Hrep. exists t'. split; [assumption|]. cbn [vsize].
    pose proof (vsize_prop (k', t') qs ltac:(eapply list_elem_of_lookup_2; eassumption)) as Hs.
    cbn [snd] in Hs. lia.
Qed.

Lemma represents_tc l t m :
  represents h (JRef l) t -> tc (edge h) l m ->
  exists t', represents h (JRef m) t' /\ (vsize t' < vsize t)%nat.
Proof.
  intros Hr Htc. revert t Hr. induction Htc as [l m He|l z m He _ IH]; intros t Hr.
  - eapply represents_edge; eassumption.
  - destruct (represents_edge _ _ _ Hr He) as (t1 & Hr1 & Hs1).
    destruct (IH t1 Hr1) as (t2 & Hr2 & Hs2). exists t2. split; [assumption | lia].
Qed.

Lemma represents_acyclic l t : represents h (JRef l) t -> ~ has_cycle h l.
Proof.
  intros Hr (m & Hreach & Hcyc).
  assert (exists t', represents h (JRef m) t') as (tm & Hm).
  { apply rtc_tc in Hreach as [<-|Htc]; [eauto|].
    destruct (represents_tc _ _ _ Hr Htc) as (t' & Ht' & _). eauto. }
  clear Hr Hreach. remember (vsize tm) as n eqn:En. revert tm Hm En.
  induction n as [n IH] using lt_wf_ind. intros tm Hm ->.
  destruct (represents_tc _ _ _ Hm Hcyc) as (t' & Ht' & Hlt).
  exact (IH _ Hlt t' Ht' eq_refl).
Qed.

Lemma Opens_array l es :
  h !! l = Some (OArray es) -> ~ has_cycle h l ->
  Opens h (JRef l)
    (Ok (StreamIterator false (Some [code ARRAY]) (MultiIterator es 0 None)
           [] 0 None)).
Proof.
  intros Hl Hno. exists (S (size (dom h))). split; [|discriminate].
  unfold open_generator. cbn [generator]. rewrite (deref_lookup _ _ Hl).
  cbn [rbind asyncIterator].
  destruct (hasCircular_spec h l (S (size (dom h))) ltac:(lia)) as (c & refs & E & Hc).
  rewrite E. cbn [rbind]. destruct c; [exfalso; apply Hno, Hc; reflexivity|].
  rewrite (deref_lookup _ _ Hl). reflexivity.
Qed.

Lemma Opens_object l ps :
  h !! l = Some (OObject ps) -> ~ has_cycle h l ->
  Opens h (JRef l)
    (Ok (StreamIterator false (Some [code OBJECT])
           (MultiIterator (flatted ps) 0 None) [] 0 None)).
Proof.
  intros Hl Hno. exists (S (size (dom h))). split; [|discriminate].
  unfold open_generator. cbn [generator]. rewrite (deref_lookup _ _ Hl).
  cbn [rbind asyncIterator].
  destruct (hasCircular_spec h l (S (size (dom h))) ltac:(lia)) as (c & refs & E & Hc).
  rewrite E. cbn [rbind]. destruct c; [exfalso; apply Hno, Hc; reflexivity|].
  rewrite (deref_lookup _ _ Hl). reflexivity.
Qed.

(** A [StreamIterator] over a source that ends well: the tag, then the
    framing of everything the source handed out. *)
Lemma Steps_stream tag src ps :
  Steps h src (map Piece ps) (Ok tt) ->
  exists out,
    Steps h (StreamIterator false (Some [code tag]) src [] 0 None)
      (map Piece out) (Ok tt) /\
    wire_chunked tag (concat ps) (concat out).
Proof.
  intros Hs. destruct (chunker h src ps (Ok tt) Hs [] 0 eq_refl ltac:(lia))
    as (out & chunks & Hout & Hv & Hf & Hc).
  exists ([code tag] :: out). split.
  - cbn [map]. eapply Steps_value; [apply Next_prefix | exact Hout].
  - exists chunks. split; [assumption|]. split; [assumption|].
    cbn [concat app]. rewrite Hf. reflexivity.
Qed.

Lemma Encodes_common v tag ps :
  generator h v = Ok (CommonIterable tag (map Piece ps)) ->
  Encodes h v (map Piece ([code tag] :: ps)) (Ok tt).
Proof.
  intros Hg. left. eexists. split.
  - exists 0%nat. split; [|discriminate]. unfold open_generator. rewrite Hg. reflexivity.
  - apply Steps_common.
Qed.

Lemma Encodes_stream v tag ps :
  generator h v = Ok (StreamIterable tag (map Piece ps)) ->
  exists out, Encodes h v (map Piece out) (Ok tt) /\
              wire_chunked tag (concat ps) (concat out).
Proof.
  intros Hg. destruct (Steps_stream tag _ ps (Steps_array h (map Piece ps)))
    as (out & Hs & Hw).
  exists out. split; [|assumption]. left. eexists. split; [|exact Hs].
  exists 0%nat. split; [|discriminate]. unfold open_generator. rewrite Hg. reflexivity.
Qed.

(** Every represented value is encoded, into a wire form of its tree. *)
Lemma encode_represents t : forall v,
  represents h v t ->
  exists ps, Encodes h v (map Piece ps) (Ok tt) /\ Wire t (concat ps).
Proof.
  induction t as [| |b|x|s|b|ts IH|qs IH] using Value_ind'; intros v Hr.
  - inversion Hr; subst. eexists. split; [apply (Encodes_common _ NULL []); reflexivity|].
    reflexivity.
  - inversion Hr; subst. eexists. split; [apply (Encodes_common _ UNDEFINED []); reflexivity|].
    reflexivity.
  - eexists. split.
    + apply (Encodes_common _ BOOLEAN [[if b then 1 else 0]]).
      inversion Hr as [| | | | |l0 b0 Hl| | | | | |]; subst; cbn [generator];
        rewrite ?(deref_lookup _ _ Hl); reflexivity.
    + reflexivity.
  - eexists. split.
    + apply (Encodes_common _ NUMBER [setFloat64 x]).
      inversion Hr as [| | | | | |l0 x0 Hl| | | | |]; subst; cbn [generator];
        rewrite ?(deref_lookup _ _ Hl); reflexivity.
    + cbn [concat app Wire]. rewrite app_nil_r. reflexivity.
  - destruct (Encodes_stream v STRING [Utf8.encode s]) as (out & He & Hw).
    { inversion Hr as [| | | | | | |l0 s0 Hl| | | |]; subst; cbn [generator];
        rewrite ?(deref_lookup _ _ Hl); reflexivity. }
    exists out. split; [assumption|]. cbn [concat] in Hw. rewrite app_nil_r in Hw. exact Hw.
  - inversion Hr as [| | | | | | | |l0 b0 Hl|l0 ps Hl| |]; subst.
    + destruct (Encodes_stream (JRef l0) STREAM [b]) as (out & He & Hw).
      { cbn [generator]. rewrite (deref_lookup _ _ Hl). reflexivity. }
      exists out. split; [assumption|]. cbn [concat] in Hw. rewrite app_nil_r in Hw. exact Hw.
    + destruct (Encodes_stream (JRef l0) STREAM ps) as (out & He & Hw).
      { cbn [generator]. rewrite (deref_lookup _ _ Hl). reflexivity. }
      exists out. split; assumption.
  - inversion Hr as [| | | | | | | | | |l0 es ts0 Hl Hall|]; subst.
    assert (exists ps, EncodesAll h es (map Piece ps) (Ok tt) /\
                       wire_elements Wire ts (concat ps)) as (ps & Hes & Hws).
    { clear Hl Hr. induction Hall as [|e t es ts He Hall IHall].
      - exists []. split; [constructor | reflexivity].
      - apply Forall_cons in IH as [IHt IHts].
        destruct (IHt e He) as (ps1 & He1 & Hw1).
        destruct (IHall IHts) as (ps2 & He2 & Hw2).
        exists (ps1 ++ ps2). split.
        + rewrite map_app. apply EncodesAll_cons; assumption.
        + rewrite concat_app. exists (concat ps1), (concat ps2). auto. }
    apply (Steps_multi h es _ _ 0%nat ltac:(lia)) in Hes.
    destruct (Steps_stream ARRAY _ _ Hes) as (out & Hs & Hw).
    exists out. split.
    + left. eexists. split; [|exact Hs].
      apply Opens_array; [assumption | eapply represents_acyclic; eassumption].
    + exists (concat ps). split; assumption.
  - inversion Hr as [| | | | | | | | | | |l0 ps qs0 Hl Hall]; subst.
    assert (exists bs, EncodesAll h (flatted ps) (map Piece bs) (Ok tt) /\
                       wire_properties Wire qs (concat bs)) as (bs & Hes & Hws).
    { clear Hl Hr. induction Hall as [|[k e] [k' t] ps qs [Hk He] Hall IHall].
      - exists []. split; [constructor | reflexivity].
      - cbn [fst snd] in Hk, He. subst k'.
        apply Forall_cons in IH as [IHt IHts]. cbn [snd] in IHt.
        destruct (Encodes_stream (JString k) STRING [Utf8.encode k] eq_refl)
          as (psk & Hek & Hwk).
        cbn [concat] in Hwk. rewrite app_nil_r in Hwk.
        destruct (IHt e He) as (ps1 & He1 & Hw1).
        destruct (IHall IHts) as (ps2 & He2 & Hw2).
        exists (psk ++ ps1 ++ ps2). split.
        + rewrite !map_app. unfold flatted. cbn [flat_map fst snd app].
          apply EncodesAll_cons; [assumption|].
          apply EncodesAll_cons; assumption.
        + rewrite !concat_app. exists (concat psk), (concat ps1), (concat ps2). auto. }
    apply (Steps_multi h (flatted ps) _ _ 0%nat ltac:(lia)) in Hes.
    destruct (Steps_stream OBJECT _ _ Hes) as (out & Hs & Hw).
    exists out. split.
    + left. eexists. split; [|exact Hs].
      apply Opens_object; [assumption | eapply represents_acyclic; eassumption].
    + exists (concat bs). split; assumption.
Qed.
End EncoderFacts.

(** ** The decoder on well-formed encodings *)

Module StringFacts.
Import Utf8 Utf8Facts.

Lemma serialize_app b o1 o2 :
  serialize b (o1 ++ o2) =
  let '(x, b1) := serialize b o1 in
  let '(y, b2) := serialize b1 o2 in (x ++ y, b2).
Proof.
  destruct b; [reflexivity|].
  destruct o1 as [|c o1]; cbn [app].
  - cbn [serialize]. destruct o2 as [|c o2]; reflexivity.
  - cbn [serialize]. destruct (c =? 65279); reflexivity.
Qed.

Lemma exceeds_mono x y l : x <= y -> exceeds x l = true -> exceeds y l = true.
Proof. destruct l as [|n]; cbn [exceeds]; [discriminate | lia]. Qed.

Lemma concat_nil_valid (cs : list bytes) :
  Forall valid_chunk cs -> (blen (concat cs) =? 0) = bool_decide (cs = []).
Proof.
  intros H. destruct H as [|c cs' [Hc _] _]; [reflexivity|]. cbn [concat].
  rewrite blen_app. pose proof (blen_nonneg (concat cs')).
  destruct (Z.eqb_spec (blen c + blen (concat cs')) 0); [lia|].
  symmetry. apply bool_decide_eq_false. discriminate.
Qed.

Lemma string_loop_chunks cs p lim : Forall valid_chunk cs -> forall size acc d,
  string_loop (chunks_then cs p) lim size acc d =
  if negb (bool_decide (cs = [])) && exceeds (size + blen (concat cs)) lim
  then Err StringSizeExceeded
  else let '(o, _) := run (dstate d) (concat cs) in
       Ok (acc ++ fst (serialize (bom_seen d) o), p).
Proof.
  induction 1 as [|c cs Hc Hcs IH]; intros size acc d;
    cbn [chunks_then string_loop concat].
  - cbn [negb andb run serialize bool_decide]. rewrite bool_decide_eq_true_2 by reflexivity.
    cbn [negb andb]. destruct (bom_seen d); cbn [fst serialize]; rewrite app_nil_r; reflexivity.
  - rewrite bool_decide_eq_false_2 by discriminate. cbn [negb andb].
    rewrite blen_app. pose proof (blen_nonneg c). pose proof (blen_nonneg (concat cs)).
    destruct (exceeds (size + blen c) lim) eqn:E1.
    + rewrite (exceeds_mono (size + blen c) (size + (blen c + blen (concat cs))) lim
                 ltac:(lia) E1).
      reflexivity.
    + unfold decode_stream. rewrite run_app.
      destruct (run (dstate d) c) as [o1 st1].
      destruct (serialize (bom_seen d) o1) as [x b1] eqn:Es.
      rewrite IH. replace (size + blen c + blen (concat cs))
        with (size + (blen c + blen (concat cs))) by lia.
      rewrite <- (concat_nil_valid cs Hcs).
      destruct (Z.eqb_spec (blen (concat cs)) 0) as [E0|E0]; cbn [negb andb].
      * rewrite E0, Z.add_0_r, E1.
        cbn [dstate bom_seen]. destruct (run st1 (concat cs)) as [o2 st2].
        rewrite serialize_app, Es. destruct (serialize b1 o2) as [y b2].
        cbn [fst]. rewrite app_assoc. reflexivity.
      * destruct (exceeds (size + (blen c + blen (concat cs))) lim); [reflexivity|].
        cbn [dstate bom_seen]. destruct (run st1 (concat cs)) as [o2 st2].
        rewrite serialize_app, Es. destruct (serialize b1 o2) as [y b2].
        cbn [fst]. rewrite app_assoc. reflexivity.
Qed.

Lemma nice_text_run s :
  nice_text s = true ->
  run init (encode s) = (s, init) /\ fst (serialize false s) = s.
Proof.
  unfold nice_text. intros [Hs Hb]%andb_true_iff. split; [apply run_encode, Hs|].
  destruct s as [|c s]; [reflexivity|]. cbn [serialize fst].
  apply negb_true_iff in Hb. rewrite Hb. reflexivity.
Qed.

Lemma decode_encode s : nice_text s = true -> decode (encode s) = s.
Proof.
  intros [Hr Hs]%nice_text_run. unfold decode. rewrite Hr. cbn [needed init Z.eqb].
  exact Hs.
Qed.

Lemma string_loop_wire cs p lim s :
  Forall valid_chunk cs -> concat cs = encode s -> nice_text s = true ->
  string_loop (chunks_then cs p) lim 0 [] newTextDecoder =
  if over (blen (encode s)) lim then Err StringSizeExceeded else Ok (s, p).
Proof.
  intros Hcs Hc [Hr Hs]%nice_text_run. rewrite string_loop_chunks by assumption.
  unfold over. rewrite <- (concat_nil_valid cs Hcs), Hc, Z.add_0_l.
  destruct (negb (blen (encode s) =? 0) && exceeds (blen (encode s)) lim); [reflexivity|].
  cbn [dstate bom_seen newTextDecoder]. rewrite Hr, Hs. reflexivity.
Qed.

Lemma concatChunks_over cs p lim : Forall valid_chunk cs -> forall size acc,
  concatChunks (chunks_then cs p) lim size acc =
  if negb (bool_decide (cs = [])) && exceeds (size + blen (concat cs)) lim
  then Err StreamSizeExceeded else Ok (acc ++ concat cs, p).
Proof.
  induction 1 as [|c cs Hc Hcs IH]; intros size acc;
    cbn [chunks_then concatChunks concat].
  - rewrite bool_decide_eq_true_2 by reflexivity. cbn [negb andb].
    rewrite app_nil_r. reflexivity.
  - rewrite bool_decide_eq_false_2 by discriminate. cbn [negb andb].
    rewrite blen_app. pose proof (blen_nonneg c). pose proof (blen_nonneg (concat cs)).
    destruct (exceeds (size + blen c) lim) eqn:E1.
    + rewrite (exceeds_mono (size + blen c) (size + (blen c + blen (concat cs))) lim
                 ltac:(lia) E1).
      reflexivity.
    + rewrite IH. replace (size + blen c + blen (concat cs))
        with (size + (blen c + blen (concat cs))) by lia.
      rewrite <- (concat_nil_valid cs Hcs), app_assoc.
      destruct (Z.eqb_spec (blen (concat cs)) 0) as [E0|E0]; cbn [negb andb];
        [|reflexivity].
      rewrite E0, Z.add_0_r, E1. reflexivity.
Qed.

Lemma readChunkedStream_wire cs s lim :
  Forall valid_chunk cs ->
  readChunkedStream lim (lapp (frames cs) s) =
  if over (blen (concat cs)) lim then Err StreamSizeExceeded
  else Ok (concat cs, s).
Proof.
  intros Hcs. unfold readChunkedStream. rewrite splitChunkedStream_frames by assumption.
  rewrite concatChunks_over by assumption. unfold over.
  rewrite <- (concat_nil_valid cs Hcs). reflexivity.
Qed.
End StringFacts.

Section DecoderFacts.
Context {T : TagCodes}.
Import StringFacts.

Lemma Wire_cons t bs : Wire t bs -> exists b rest, bs = b :: rest.
Proof.
  destruct t; cbn [Wire]; intros H; subst; eauto.
  - destruct H as (cs & _ & _ & ->). eauto.
  - destruct H as (cs & _ & _ & ->). eauto.
  - destruct H as (payload & (cs & _ & _ & ->) & _). eauto.
  - destruct H as (payload & (cs & _ & _ & ->) & _). eauto.
Qed.

Lemma length_snoc {A} (l : list A) x :
  Z.of_nat (length (l ++ [x])) = Z.of_nat (length l) + 1.
Proof. rewrite length_app. cbn [length]. lia. Qed.

Lemma array_loop_wire parse o paths s ts :
  Forall (fun t => forall bs s' p,
            Wire t bs -> Z.of_nat (length p) = Z.of_nat (length paths) + 1 ->
            parse (lapp bs s') p = expected o (Z.of_nat (length paths) + 1) t s') ts ->
  forall payload elems n,
    wire_elements Wire ts payload -> (length ts < n)%nat ->
    array_loop parse o paths n (lapp payload (LRet s)) elems =
    match verdict_elements (verdict o (Z.of_nat (length paths) + 1)) o ts
            (Z.of_nat (length elems)) with
    | None => Ok (VArray (elems ++ ts), s)
    | Some e => Err e
    end.
Proof.
  induction 1 as [|t r Ht _ IH]; intros payload elems n Hw Hn.
  - cbn [wire_elements] in Hw. subst payload. destruct n as [|n]; [cbn in Hn; lia|].
    cbn [lapp array_loop hasValue rbind verdict_elements parent_of].
    rewrite app_nil_r. reflexivity.
  - destruct Hw as (b1 & b2 & -> & Hw1 & Hw2).
    destruct n as [|n]; [cbn in Hn; lia|]. cbn [length] in Hn.
    destruct (Wire_cons _ _ Hw1) as (b & rest & Hb).
    cbn [array_loop verdict_elements].
    replace (hasValue (lapp (b1 ++ b2) (LRet s))) with (Ok (A:=bool) true)
      by (rewrite Hb; reflexivity).
    cbn [rbind]. destruct (reaches (Z.of_nat (length elems)) (arrayMaxLength o));
      [reflexivity|].
    rewrite lapp_app, Ht by (assumption || apply length_snoc).
    unfold expected. destruct (verdict o (Z.of_nat (length paths) + 1) t);
      cbn [rbind]; [reflexivity|].
    rewrite (IH b2 (elems ++ [t]) n Hw2 ltac:(lia)), length_snoc, <- app_assoc.
    reflexivity.
Qed.

Lemma set_property_fresh props k v :
  k ∉ map fst props -> set_property props k v = props ++ [(k, v)].
Proof.
  induction props as [|[k' v'] props IH]; intros Hk; [reflexivity|].
  cbn [set_property map fst] in *. apply not_elem_of_cons in Hk as [Hne Hk].
  rewrite bool_decide_eq_false_2 by congruence. rewrite IH by assumption. reflexivity.
Qed.

Lemma object_loop_assign parse o paths s ps :
  Forall (fun kv => forall bs s' p,
            Wire (snd kv) bs -> Z.of_nat (length p) = Z.of_nat (length paths) + 1 ->
            parse (lapp bs s') p =
            expected o (Z.of_nat (length paths) + 1) (snd kv) s') ps ->
  Forall (fun kv => nice_text (fst kv) = true /\ fst kv <> proto_key) ps ->
  forall payload props n,
    wire_properties Wire ps payload -> (length ps < n)%nat ->
    object_loop parse o paths n (lapp payload (LRet s)) props =
    match verdict_properties (verdict o (Z.of_nat (length paths) + 1)) o ps with
    | None => Ok (VObject (assign_all props ps), s)
    | Some e => Err e
    end.
Proof.
  induction 1 as [|[k v] r Hv _ IH]; intros Hnice payload props n Hw Hn.
  - cbn [wire_properties] in Hw. subst payload. destruct n as [|n]; [cbn in Hn; lia|].
    reflexivity.
  - destruct Hw as (bk & bv & b2 & -> & (cs & Hcs & Hck & ->) & Hwv & Hw2).
    apply Forall_cons in Hnice as [[Hnk Hpk] Hnice]. cbn [fst snd] in *.
    destruct n as [|n]; [cbn in Hn; lia|]. cbn [length] in Hn.
    cbn [object_loop verdict_properties app lapp hasValue rbind].
    destruct (reaches 0 (objectMaxLength o)); [reflexivity|].
    cbn [readEnoughSize rbind hd]. rewrite Z.eqb_refl. cbn [negb].
    rewrite lapp_app, readChunkedStream_wire, Hck by assumption.
    destruct (over (blen (Utf8.encode k)) (stringMaxSize o)); cbn [rbind];
      [reflexivity|].
    rewrite (decode_encode k Hnk), lapp_app, Hv by (assumption || apply length_snoc).
    unfold expected. destruct (verdict o (Z.of_nat (length paths) + 1) v);
      cbn [rbind]; [reflexivity|].
    unfold assign. rewrite bool_decide_eq_false_2 by assumption. cbn [rbind].
    rewrite (IH Hnice b2 (set_property props k v) n Hw2 ltac:(lia)). reflexivity.
Qed.

Lemma assign_all_fresh ps : forall props,
  NoDup (map fst (props ++ ps)) -> assign_all props ps = props ++ ps.
Proof.
  unfold assign_all. induction ps as [|[k v] ps IH]; intros props Hnd; cbn [fold_left].
  - rewrite app_nil_r. reflexivity.
  - cbn [fst snd]. rewrite set_property_fresh.
    + rewrite IH; rewrite <- app_assoc; [reflexivity | exact Hnd].
    + rewrite map_app in Hnd. cbn [map fst] in Hnd.
      apply NoDup_app in Hnd as (_ & Hdis & _). intros Hin.
      apply (Hdis k Hin). left.
Qed.


Lemma vsize_length ts : (length ts <= list_sum (map vsize ts))%nat.
Proof.
  unfold list_sum. induction ts as [|t ts IH]; cbn [length map fold_right]; [lia|].
  assert (1 <= vsize t)%nat by (destruct t; cbn [vsize]; lia). lia.
Qed.

Lemma vsize_length_props (ps : list (Utf8.text * Value)) :
  (length ps <= list_sum (map (fun '(_, v) => vsize v) ps))%nat.
Proof.
  unfold list_sum. induction ps as [|[k t] ps IH]; cbn [length map fold_right]; [lia|].
  assert (1 <= vsize t)%nat by (destruct t; cbn [vsize]; lia). lia.
Qed.

(** The decoder on a well-formed encoding of a plain tree. *)
Lemma parser_wire t :
  plain t = true ->
  forall bs, Wire t bs ->
  forall o paths s fuel, (vsize t < fuel)%nat ->
  parser fuel (lapp bs s) o paths = expected o (Z.of_nat (length paths)) t s.
Proof.
  induction t as [| |b|x|str|b|ts IH|ps IH] using Value_ind';
    intros Hp bs Hw o paths s fuel Hf;
    (destruct fuel as [|fuel]; [cbn in Hf; lia|]);
    unfold expected; cbn [verdict];
    cbn [parser]; destruct (exceeds (Z.of_nat (length paths)) (maxDepth o));
    try reflexivity.
  - cbn [Wire] in Hw. subst bs. cbn [lapp readEnoughSize rbind hd].
    rewrite type_of_byte_code. reflexivity.
  - cbn [Wire] in Hw. subst bs. cbn [lapp readEnoughSize rbind hd].
    rewrite type_of_byte_code. reflexivity.
  - cbn [Wire] in Hw. subst bs. cbn [lapp readEnoughSize rbind hd].
    rewrite type_of_byte_code. destruct b; reflexivity.
  - cbn [Wire] in Hw. subst bs. cbn [plain] in Hp.
    apply andb_true_iff in Hp as [Hlo Hhi].
    apply Z.leb_le in Hlo. apply Z.ltb_lt in Hhi.
    unfold setFloat64. cbn [lapp readEnoughSize rbind hd].
    rewrite type_of_byte_code. cbn [rbind].
    change (getFloat64 _) with (getFloat64 (setFloat64 x)).
    rewrite getFloat64_setFloat64, Z.mod_small by lia. reflexivity.
  - destruct Hw as (cs & Hcs & Hc & ->). cbn [plain] in Hp.
    cbn [lapp readEnoughSize rbind hd]. rewrite type_of_byte_code.
    rewrite splitChunkedStream_frames, (string_loop_wire cs s _ str) by assumption.
    destruct (over (blen (Utf8.encode str)) (stringMaxSize o)); reflexivity.
  - destruct Hw as (cs & Hcs & Hc & ->).
    cbn [lapp readEnoughSize rbind hd]. rewrite type_of_byte_code.
    rewrite readChunkedStream_wire, Hc by assumption.
    destruct (over (blen b) (streamMaxSize o)); reflexivity.
  - destruct Hw as (payload & (cs & Hcs & Hc & ->) & Hw). cbn [plain] in Hp.
    cbn [lapp readEnoughSize rbind hd]. rewrite type_of_byte_code.
    rewrite splitChunkedStream_frames, Splitable_chunks, Hc by assumption.
    cbn [vsize] in Hf. pose proof (vsize_length ts).
    rewrite (array_loop_wire _ o paths s ts); [reflexivity| |exact Hw|lia].
    apply Forall_forall. intros t Ht bs' s' p Hwt Hlen.
    rewrite Forall_forall in IH. rewrite <- Hlen. apply IH; try assumption.
    + rewrite forallb_forall in Hp. apply Hp, list_elem_of_In, Ht.
    + pose proof (vsize_elem t ts Ht). lia.
  - destruct Hw as (payload & (cs & Hcs & Hc & ->) & Hw). cbn [plain] in Hp.
    apply andb_true_iff in Hp as [Hp Hnd]. apply bool_decide_eq_true in Hnd.
    rewrite forallb_forall in Hp.
    cbn [lapp readEnoughSize rbind hd]. rewrite type_of_byte_code.
    rewrite splitChunkedStream_frames, Splitable_chunks, Hc by assumption.
    cbn [vsize] in Hf. pose proof (vsize_length_props ps).
    rewrite (object_loop_assign _ o paths s ps); [|  | |exact Hw|lia].
    { rewrite assign_all_fresh by exact Hnd. reflexivity. }
    + apply Forall_forall. intros [k v] Hkv bs' s' p Hwt Hlen. cbn [snd] in *.
      rewrite Forall_forall in IH. rewrite <- Hlen.
      apply (IH (k, v) Hkv); try assumption.
      * specialize (Hp (k, v) ltac:(apply list_elem_of_In, Hkv)). cbn in Hp.
        apply andb_true_iff in Hp as [_ Hp]. exact Hp.
      * pose proof (vsize_prop (k, v) ps Hkv) as Hs. cbn [snd] in Hs.
        apply Nat.succ_lt_mono in Hf. eapply Nat.le_lt_trans; [exact Hs | exact Hf].
    + apply Forall_forall. intros [k v] Hkv. cbn [fst].
      specialize (Hp (k, v) ltac:(apply list_elem_of_In, Hkv)). cbn in Hp.
      apply andb_true_iff in Hp as [Hp _]. apply andb_true_iff in Hp as [Hn Hk].
      split; [assumption|]. apply negb_true_iff, bool_decide_eq_false in Hk. exact Hk.
Qed.

End DecoderFacts.

(** ** Limits *)

Section Limits.

Context {T : TagCodes}.

Lemma bytes_of_pieces ps : bytes_of (map Piece ps) = concat ps.
Proof.
  unfold bytes_of. induction ps as [|p ps IH]; cbn [map flat_map concat];
    [|rewrite IH]; reflexivity.
Qed.

Lemma fold_max_lower {A} (f : A -> Z) (z : Z) (l : list A) :
  z <= fold_right (fun x acc => Z.max (f x) acc) z l.
Proof. induction l as [|x l IH]; cbn [fold_right]; lia. Qed.

Lemma depth_nonneg t : 0 <= depth t.
Proof.
  destruct t as [| | | | | |ts|ps]; cbn [depth]; try lia.
  - apply fold_max_lower.
  - induction ps as [|[k v] ps IH]; cbn [fold_right]; lia.
Qed.

Lemma verdict_default t : forall d, verdict default_options d t = None.
Proof.
  induction t as [| |b|x|s|b|ts IH|ps IH] using Value_ind'; intros d;
    cbn [verdict default_options maxDepth exceeds]; unfold over;
    cbn [stringMaxSize streamMaxSize exceeds]; rewrite ?andb_false_r;
    try reflexivity.
  - generalize 0 as i. induction IH as [|t ts Ht _ IHts]; intros i;
      cbn [verdict_elements]; [reflexivity|].
    cbn [arrayMaxLength reaches]. rewrite Ht. apply IHts.
  - induction IH as [|[k v] ps Hv _ IHps]; cbn [verdict_properties]; [reflexivity|].
    cbn [objectMaxLength stringMaxSize reaches]. unfold over. cbn [exceeds].
    rewrite andb_false_r. cbn [snd] in Hv. rewrite Hv. apply IHps.
Qed.

Lemma verdict_depth_only m t : forall d,
  verdict (depth_only m) d t =
  if d + depth t <=? m then None else Some DepthExceeded.
Proof.
  induction t as [| |b|x|s|b|ts IH|ps IH] using Value_ind'; intros d;
    cbn [verdict depth_only maxDepth exceeds depth];
    try (rewrite Z.add_0_r; destruct (Z.ltb_spec m d), (Z.leb_spec d m);
         first [reflexivity | lia]).
  - rewrite Z.add_0_r. unfold over. cbn [stringMaxSize exceeds].
    rewrite andb_false_r. destruct (Z.ltb_spec m d), (Z.leb_spec d m);
      first [reflexivity | lia].
  - rewrite Z.add_0_r. unfold over. cbn [streamMaxSize exceeds].
    rewrite andb_false_r. destruct (Z.ltb_spec m d), (Z.leb_spec d m);
      first [reflexivity | lia].
  - destruct (Z.ltb_spec m d) as [Hd|Hd].
    { pose proof (fold_max_lower (fun t => 1 + depth t) 0 ts).
      destruct (Z.leb_spec (d + fold_right (fun t acc => Z.max (1 + depth t) acc) 0 ts) m);
        [lia | reflexivity]. }
    assert (forall i,
      verdict_elements (verdict (depth_only m) (d + 1)) (depth_only m) ts i =
      if d + fold_right (fun t acc => Z.max (1 + depth t) acc) 0 ts <=? m
      then None else Some DepthExceeded) as Haux; [|apply Haux].
    induction IH as [|t ts Ht _ IHts]; intros i;
      cbn [verdict_elements fold_right].
    + rewrite Z.add_0_r. destruct (Z.leb_spec d m); [reflexivity | lia].
    + change (reaches i (arrayMaxLength (depth_only m))) with false.
      rewrite Ht. rewrite IHts.
      pose proof (depth_nonneg t).
      destruct (Z.leb_spec (d + 1 + depth t) m);
        destruct (Z.leb_spec (d + fold_right (fun t acc => Z.max (1 + depth t) acc) 0 ts) m);
        destruct (Z.leb_spec (d + Z.max (1 + depth t)
                    (fold_right (fun t acc => Z.max (1 + depth t) acc) 0 ts)) m);
        first [reflexivity | lia].
  - destruct (Z.ltb_spec m d) as [Hd|Hd].
    { assert (0 <= fold_right (fun '(_, v) acc => Z.max (1 + depth v) acc) 0 ps)
        by (clear; induction ps as [|[k v] ps]; cbn [fold_right]; lia).
      destruct (Z.leb_spec (d + fold_right (fun '(_, v) acc => Z.max (1 + depth v) acc) 0 ps) m);
        [lia | reflexivity]. }
    induction IH as [|[k v] ps Hv _ IHps]; cbn [verdict_properties fold_right].
    + rewrite Z.add_0_r. destruct (Z.leb_spec d m); [reflexivity | lia].
    + change (reaches 0 (objectMaxLength (depth_only m))) with false.
      change (stringMaxSize (depth_only m)) with Infinity.
      unfold over. cbn [exceeds].
      rewrite andb_false_r. cbn [snd] in Hv. rewrite Hv, IHps.
      pose proof (depth_nonneg v).
      destruct (Z.leb_spec (d + 1 + depth v) m);
        destruct (Z.leb_spec (d + fold_right (fun '(_, v) acc => Z.max (1 + depth v) acc) 0 ps) m);
        destruct (Z.leb_spec (d + Z.max (1 + depth v)
                    (fold_right (fun '(_, v) acc => Z.max (1 + depth v) acc) 0 ps)) m);
        first [reflexivity | lia].
Qed.

Lemma verdict_array_only m t : 0 <= m -> forall d,
  verdict (array_only m) d t =
  if longest_array t <=? m then None else Some ArrayLengthExceeded.
Proof.
  intros Hm.
  induction t as [| |b|x|s|b|ts IH|ps IH] using Value_ind'; intros d;
    cbn [verdict array_only maxDepth exceeds longest_array]; unfold over;
    cbn [stringMaxSize streamMaxSize exceeds]; rewrite ?andb_false_r;
    try (destruct (Z.leb_spec 0 m); [reflexivity | lia]).
  - assert (forall i, i <= m ->
      verdict_elements (verdict (array_only m) (d + 1)) (array_only m) ts i =
      if fold_right (fun t acc => Z.max (longest_array t) acc)
           (i + Z.of_nat (length ts)) ts <=? m
      then None else Some ArrayLengthExceeded) as Haux; [|apply (Haux 0 Hm)].
    induction IH as [|t ts Ht _ IHts]; intros i Hi;
      cbn [verdict_elements fold_right length].
    + destruct (Z.leb_spec (i + Z.of_nat 0) m); [reflexivity | lia].
    + change (reaches i (arrayMaxLength (array_only m))) with (m <=? i).
      pose proof (fold_max_lower longest_array (i + Z.of_nat (S (length ts))) ts) as Hlow.
      destruct (Z.leb_spec m i) as [Hmi|Hmi].
      * destruct (Z.leb_spec (Z.max (longest_array t)
            (fold_right (fun t acc => Z.max (longest_array t) acc)
               (i + Z.of_nat (S (length ts))) ts)) m); [lia | reflexivity].
      * rewrite Ht, (IHts (i + 1)) by lia.
        replace (i + 1 + Z.of_nat (length ts)) with (i + Z.of_nat (S (length ts))) by lia.
        destruct (Z.leb_spec (longest_array t) m);
          destruct (Z.leb_spec (fold_right (fun t acc => Z.max (longest_array t) acc)
               (i + Z.of_nat (S (length ts))) ts) m);
          destruct (Z.leb_spec (Z.max (longest_array t)
            (fold_right (fun t acc => Z.max (longest_array t) acc)
               (i + Z.of_nat (S (length ts))) ts)) m); first [reflexivity | lia].
  - induction IH as [|[k v] ps Hv _ IHps]; cbn [verdict_properties fold_right].
    + destruct (Z.leb_spec 0 m); [reflexivity | lia].
    + change (reaches 0 (objectMaxLength (array_only m))) with false.
      change (stringMaxSize (array_only m)) with Infinity.
      unfold over. cbn [exceeds].
      rewrite andb_false_r. cbn [snd] in Hv. rewrite Hv, IHps.
      destruct (Z.leb_spec (longest_array v) m);
        destruct (Z.leb_spec (fold_right (fun '(_, v) acc => Z.max (longest_array v) acc) 0 ps) m);
        destruct (Z.leb_spec (Z.max (longest_array v)
            (fold_right (fun '(_, v) acc => Z.max (longest_array v) acc) 0 ps)) m);
        first [reflexivity | lia].
Qed.

End Limits.

(** * The claims *)

Section Claims.

Context {T : TagCodes}.
Variable h : gmap loc jsobj.

(** Encoding a represented value and decoding the bytes under any limits:
    the value, or the first limit that is crossed. *)
Lemma encode_decode v t o :
  represents h v t -> plain t = true ->
  exists n, forall fuel, (n <= fuel)%nat ->
  exists ps,
    encode fuel h v = (map Piece ps, Ok tt) /\
    Wire t (concat ps) /\
    decode fuel o (bytes_of (map Piece ps)) =
    match verdict o 0 t with None => Ok t | Some e => Err e end.
Proof.
  intros Hr Hp. destruct (encode_represents h t v Hr) as (ps & He & Hw).
  destruct (Encodes_encode h v _ _ He) as (n & Hn).
  exists (n `max` S (vsize t))%nat. intros fuel Hf. exists ps.
  split; [apply Hn; lia|]. split; [assumption|].
  unfold decode, createSplitable. rewrite bytes_of_pieces.
  rewrite (parser_wire t Hp _ Hw) by lia. unfold expected.
  change (Z.of_nat (length (@nil (Utf8.text + Z)))) with 0.
  destruct (verdict o 0 t); reflexivity.
Qed.

(** C1, as amended.  For every supported value whose Strings and keys are
    made of Unicode scalar values and do not start with U+FEFF, and whose
    keys are not [__proto__], decoding the concatenation of the pieces that
    encoding hands out gives back the value: bit for bit, byte for byte,
    code point for code point, and structurally for Arrays and Objects. *)
Theorem roundtrip v t :
  represents h v t -> plain t = true ->
  exists n, forall fuel, (n <= fuel)%nat ->
  exists ps,
    encode fuel h v = (map Piece ps, Ok tt) /\
    decode fuel default_options (bytes_of (map Piece ps)) = Ok t.
Proof.
  intros Hr Hp. destruct (encode_decode v t default_options Hr Hp) as (n & Hn).
  exists n. intros fuel Hf. destruct (Hn fuel Hf) as (ps & He & _ & Hd).
  exists ps. split; [assumption|]. rewrite Hd, verdict_default. reflexivity.
Qed.

(** C5.  [parser] compares the length of the path with [maxDepth] before
    it reads anything and throws when the path is longer; so the encoding
    of a value decodes under [maxDepth = m] exactly when its depth is at
    most [m], and fails with "Depth exceeded" otherwise. *)
Theorem depth_limit v t m :
  represents h v t -> plain t = true ->
  (forall fuel s o paths,
     exceeds (Z.of_nat (length paths)) (maxDepth o) = true ->
     parser (S fuel) s o paths = Err DepthExceeded) /\
  exists n, forall fuel, (n <= fuel)%nat ->
  exists ps,
    encode fuel h v = (map Piece ps, Ok tt) /\
    decode fuel (depth_only m) (bytes_of (map Piece ps)) =
    if depth t <=? m then Ok t else Err DepthExceeded.
Proof.
  intros Hr Hp. split.
  { intros fuel s o paths Hx. cbn [parser]. rewrite Hx. reflexivity. }
  destruct (encode_decode v t (depth_only m) Hr Hp) as (n & Hn).
  exists n. intros fuel Hf. destruct (Hn fuel Hf) as (ps & He & _ & Hd).
  exists ps. split; [assumption|]. rewrite Hd, verdict_depth_only.
  rewrite Z.add_0_l. destruct (depth t <=? m); reflexivity.
Qed.

(** C7.  Under [arrayMaxLength = m] the encoding of a value decodes when no
    Array in it has more than [m] elements, and fails with "Array length
    exceeded" as soon as an Array would get its element number [m + 1]. *)
Theorem array_limit v t m :
  represents h v t -> plain t = true -> 0 <= m ->
  exists n, forall fuel, (n <= fuel)%nat ->
  exists ps,
    encode fuel h v = (map Piece ps, Ok tt) /\
    decode fuel (array_only m) (bytes_of (map Piece ps)) =
    if longest_array t <=? m then Ok t else Err ArrayLengthExceeded.
Proof.
  intros Hr Hp Hm. destruct (encode_decode v t (array_only m) Hr Hp) as (n & Hn).
  exists n. intros fuel Hf. destruct (Hn fuel Hf) as (ps & He & _ & Hd).
  exists ps. split; [assumption|]. rewrite Hd, verdict_array_only by assumption.
  destruct (longest_array t <=? m); reflexivity.
Qed.
Lemma setUint32_length x : length (setUint32 x) = 4%nat.
Proof. reflexivity. Qed.

Lemma wire_chunks_from_frames cs :
  Forall valid_chunk cs ->
  forall n, (length (frames cs) < n)%nat ->
  wire_chunks_from n (frames cs) = Some (cs ++ [[]]).
Proof.
  induction 1 as [|c cs [Hlo Hhi] _ IH]; intros n Hn.
  - destruct n as [|[|n]]; [cbn in Hn; lia | cbn in Hn; lia | reflexivity].
  - destruct n as [|n]; [cbn in Hn; lia|].
    unfold frames in *. cbn [flat_map] in *. unfold frame at 1 in Hn. unfold frame at 1.
    rewrite <- !app_assoc in *.
    pose proof (getUint32_setUint32 (blen c)) as Hg.
    rewrite !length_app, setUint32_length in Hn.
    destruct (setUint32 (blen c)) as [|b0 [|b1 [|b2 [|b3 [|]]]]]; try contradiction.
    cbn [app wire_chunks_from]. rewrite Hg.
    rewrite Z.mod_small by lia.
    unfold blen. rewrite Nat2Z.id.
    destruct (Nat.ltb_spec (length (c ++ flat_map frame cs ++ [0; 0; 0; 0])) (length c))
      as [Hlt|_]; [rewrite length_app in Hlt; lia|].
    rewrite take_app_length, drop_app_length.
    rewrite IH by (rewrite !length_app; lia). reflexivity.
Qed.

Lemma wire_chunks_frames cs :
  Forall valid_chunk cs -> wire_chunks (frames cs) = Some (cs ++ [[]]).
Proof. intros H. apply wire_chunks_from_frames; [assumption | lia]. Qed.

Lemma valid_chunk_nonempty c : valid_chunk c -> c <> [].
Proof. intros [Hlo _] ->. unfold blen in Hlo. cbn in Hlo. lia. Qed.

Lemma Wire_chunked t tag bs :
  chunked_tag t = Some tag -> Wire t bs ->
  exists cs, Forall valid_chunk cs /\ bs = code tag :: frames cs.
Proof.
  destruct t; cbn [chunked_tag Wire]; intros E Hw; try discriminate;
    injection E as <-.
  - destruct Hw as (cs & Hcs & _ & ->). eauto.
  - destruct Hw as (cs & Hcs & _ & ->). eauto.
  - destruct Hw as (payload & (cs & Hcs & _ & ->) & _). eauto.
  - destruct Hw as (payload & (cs & Hcs & _ & ->) & _). eauto.
Qed.

(** C2.  The payload of every encoded String, Stream, Array and Object is a
    sequence of chunks of which exactly one has length 0, the last one. *)
Theorem chunk_termination v t tag :
  represents h v t -> chunked_tag t = Some tag ->
  exists n, forall fuel, (n <= fuel)%nat ->
  exists ps payload chunks,
    encode fuel h v = (map Piece ps, Ok tt) /\
    bytes_of (map Piece ps) = code tag :: payload /\
    wire_chunks payload = Some (chunks ++ [[]]) /\
    Forall (fun c => c <> []) chunks.
Proof.
  intros Hr Ht. destruct (encode_represents h t v Hr) as (ps & He & Hw).
  destruct (Encodes_encode h v _ _ He) as (n & Hn).
  destruct (Wire_chunked t tag _ Ht Hw) as (cs & Hcs & Hbs).
  exists n. intros fuel Hf. exists ps, (frames cs), cs.
  split; [apply Hn, Hf|]. split; [rewrite bytes_of_pieces; exact Hbs|].
  split; [apply wire_chunks_frames, Hcs|].
  eapply Forall_impl; [exact Hcs | apply valid_chunk_nonempty].
Qed.

Lemma two_chunks (chunks : list bytes) :
  Forall valid_chunk chunks -> 4294967295 < blen (concat chunks) ->
  (2 <= length chunks)%nat.
Proof.
  intros Hv Hb. destruct chunks as [|c [|c' chunks]]; cbn [length]; try lia.
  - unfold blen in Hb. cbn in Hb. lia.
  - apply Forall_cons in Hv as [[_ Hc] _]. cbn [concat] in Hb.
    rewrite app_nil_r in Hb. lia.
Qed.

(** C3.  A piece that would take the staged size over 4294967295 is cut:
    the prefix that fits is flushed in a chunk of exactly 4294967295 bytes
    and the rest is carried over.  So no chunk of an encoded Stream is
    longer than 4294967295, and a Stream of more bytes than that takes at
    least two chunks, which together hold its bytes. *)
Theorem hard_cap src src' cd cs p v b :
  cs = blen (concat cd) -> cs < 65536 ->
  Next h src (Ok (IValue (Piece p), src')) ->
  4294967295 < cs + blen p ->
  represents h v (VStream b) ->
  let k := Z.to_nat (4294967295 - cs) in
  (Next h (StreamIterator false None src cd cs None)
     (Ok (IValue (Piece (frame (concat cd ++ take k p))),
          StreamIterator false None src' [] 0 (Some (drop k p)))) /\
   blen (concat cd ++ take k p) = 4294967295 /\
   take k p ++ drop k p = p) /\
  exists n, forall fuel, (n <= fuel)%nat ->
  exists ps chunks,
    encode fuel h v = (map Piece ps, Ok tt) /\
    bytes_of (map Piece ps) = code STREAM :: frames chunks /\
    Forall (fun c => 1 <= blen c <= 4294967295) chunks /\
    concat chunks = b /\
    (4294967295 < blen b -> (2 <= length chunks)%nat).
Proof.
  intros Hcs Hlt Hn Hcut Hr k. pose proof (blen_nonneg (concat cd)) as Hnn.
  assert (blen (take k p) = 4294967295 - cs) as Htake
    by (unfold k; rewrite blen_take; lia).
  split; [split; [|split]|].
  - apply (Next_pull_cut h src src' cd cs p Hlt ltac:(lia) Hn). fold k.
    rewrite <- concat_snoc.
    rewrite <- (flushChunk_false (cd ++ [take k p]) 4294967295)
      by (rewrite concat_snoc, blen_app; lia).
    apply Next_flush. lia.
  - rewrite blen_app. lia.
  - apply take_drop.
  - destruct (encode_represents h _ v Hr) as (ps & He & cs' & Hv & Hc & Hbs).
    destruct (Encodes_encode h v _ _ He) as (n & Hfuel).
    exists n. intros fuel Hf. exists ps, cs'.
    split; [apply Hfuel, Hf|]. split; [rewrite bytes_of_pieces; exact Hbs|].
    split; [exact Hv|]. split; [exact Hc|].
    intros Hb. apply two_chunks; [exact Hv | rewrite Hc; exact Hb].
Qed.

(** C4.  A piece that fits is appended whole, and the staged bytes are
    flushed once they reach 65536; the test runs between pieces only, so
    a Stream delivered as one piece of more than 65536 bytes goes out as
    one chunk, and decodes to the same bytes. *)
Theorem soft_threshold v p :
  generator h v = Ok (StreamIterable STREAM [Piece p]) ->
  65536 < blen p -> blen p <= 4294967295 ->
  (forall src src' cd cs q,
     cs = blen (concat cd) -> cs < 65536 ->
     Next h src (Ok (IValue (Piece q), src')) ->
     blen q <= 4294967295 - cs ->
     (65536 <= cs + blen q ->
      Next h (StreamIterator false None src cd cs None)
        (Ok (IValue (Piece (frame (concat cd ++ q))),
             StreamIterator false None src' [] 0 None))) /\
     (cs + blen q < 65536 ->
      forall r,
        Next h (StreamIterator false None src' (cd ++ [q]) (cs + blen q) None) r ->
        Next h (StreamIterator false None src cd cs None) r)) /\
  exists n, forall fuel, (n <= fuel)%nat ->
    encode fuel h v =
      ([Piece [code STREAM]; Piece (frame p); Piece [0; 0; 0; 0]], Ok tt) /\
    decode fuel default_options (code STREAM :: frame p ++ [0; 0; 0; 0]) =
      Ok (VStream p).
Proof.
  intros Hg Hlo Hhi. split.
  { intros src src' cd cs q Hcs Hlt Hn Hfit. split.
    - intros Hge. apply (Next_pull_fit h src src' cd cs q Hlt Hfit Hn).
      rewrite <- concat_snoc.
      rewrite <- (flushChunk_false (cd ++ [q]) (cs + blen q))
        by (rewrite concat_snoc, blen_app; lia).
      apply Next_flush. exact Hge.
    - intros _ r. apply (Next_pull_fit h src src' cd cs q Hlt Hfit Hn). }
  assert (Encodes h v [Piece [code STREAM]; Piece (frame p); Piece [0; 0; 0; 0]]
            (Ok tt)) as He.
  { left. eexists. split.
    { exists 0%nat. split; [|discriminate]. unfold open_generator. rewrite Hg.
      reflexivity. }
    eapply Steps_value; [apply Next_prefix|].
    replace (frame p) with (flushChunk ([] ++ [p]) (0 + blen p) false)
      by (rewrite flushChunk_false; cbn [app concat]; rewrite app_nil_r;
          [reflexivity | lia]).
    eapply Steps_value.
    { apply (Next_pull_fit h _ (ArrayIterator []) [] 0 p); [lia | lia | |].
      - exists 1%nat. split; [reflexivity | discriminate].
      - apply Next_flush. lia. }
    eapply Steps_value.
    { apply (Next_source_done h (ArrayIterator []) (ArrayIterator [])); [lia|].
      exists 1%nat. split; [reflexivity | discriminate]. }
    eapply Steps_done. apply Next_finished. }
  destruct (Encodes_encode h v _ _ He) as (n & Hn).
  exists (n `max` 2)%nat. intros fuel Hf. split; [apply Hn; lia|].
  unfold decode, createSplitable.
  assert (Wire (VStream p) (code STREAM :: frame p ++ [0; 0; 0; 0])) as Hw.
  { exists [p]. split; [constructor; [split; lia | constructor]|].
    split; [cbn [concat]; apply app_nil_r|].
    unfold frames. cbn [flat_map]. rewrite app_nil_r. reflexivity. }
  rewrite (parser_wire (VStream p) eq_refl _ Hw) by (cbn [vsize]; lia).
  unfold expected. rewrite verdict_default. reflexivity.
Qed.

Lemma hasCircular_false_acyclic n l refs :
  hasCircular n h (JRef l) ∅ = Ok (false, refs) -> ~ has_cycle h l.
Proof.
  intros E Hc. apply hasCircular_Hit in E as [Hno _].
  apply Hno, has_cycle_Hit, Hc.
Qed.

Lemma encode_cyclic l fuel :
  composite (deref h l) = true ->
  (size (dom h) < fuel)%nat -> has_cycle h l ->
  encode fuel h (JRef l) = ([], Err CircularReference).
Proof.
  intros Hc Hf Hcyc. unfold encode, open_generator. cbn [generator].
  destruct (hasCircular_spec h l fuel Hf) as (c & refs & E & Hiff).
  assert (c = true) as -> by (apply Hiff, Hcyc).
  destruct (deref h l); try discriminate; cbn [rbind asyncIterator];
    rewrite E; reflexivity.
Qed.

(** C6.  For an Array or an Object, either a reference cycle can be
    reached from it, and then iterating its encoding throws "Circular
    reference!" before any piece, the tag included, is handed out; or none
    can, and then the traversal answers [false] and the iterator opens. *)
Theorem cycle_rejection l :
  composite (deref h l) = true ->
  exists n, forall fuel, (n <= fuel)%nat ->
    (has_cycle h l /\ encode fuel h (JRef l) = ([], Err CircularReference)) \/
    (~ has_cycle h l /\
     exists refs it,
       hasCircular fuel h (JRef l) ∅ = Ok (false, refs) /\
       open_generator fuel h (JRef l) = Ok it).
Proof.
  intros Hc. exists (S (size (dom h))). intros fuel Hf.
  destruct (hasCircular_spec h l fuel ltac:(lia)) as (c & refs & E & Hiff).
  destruct c.
  - left. assert (has_cycle h l) as Hcyc by (apply Hiff; reflexivity).
    split; [assumption|]. apply encode_cyclic; [assumption | lia | assumption].
  - right. split; [eapply hasCircular_false_acyclic; exact E|].
    exists refs. unfold open_generator. cbn [generator].
    destruct (deref h l); try discriminate; cbn [rbind asyncIterator];
      rewrite E; cbn [rbind]; eexists; (split; [reflexivity|]); reflexivity.
Qed.

Lemma EncodesAll_represents es ts :
  Forall2 (represents h) es ts ->
  exists ps, EncodesAll h es (map Piece ps) (Ok tt) /\
             wire_elements Wire ts (concat ps).
Proof.
  induction 1 as [|e t es ts He _ (ps2 & He2 & Hw2)].
  - exists []. split; [constructor | reflexivity].
  - destruct (encode_represents h t e He) as (ps1 & He1 & Hw1).
    exists (ps1 ++ ps2). split.
    + rewrite map_app. apply EncodesAll_cons; assumption.
    + rewrite concat_app. exists (concat ps1), (concat ps2). auto.
Qed.





(** C10, as amended.  A Boolean, Number or String wrapper is encoded into
    the very pieces of its primitive value; decoding them gives the
    primitive whenever the primitive itself survives the trip (always for
    a Boolean or a Number; for a String that is well-formed and does
    not start with U+FEFF). *)
Theorem wrapper_objects l o prim t :
  h !! l = Some o -> unwrap o = Some prim ->
  represents h prim t -> plain t = true ->
  (forall fuel, encode fuel h (JRef l) = encode fuel h prim) /\
  exists n, forall fuel, (n <= fuel)%nat ->
  exists ps,
    encode fuel h (JRef l) = (map Piece ps, Ok tt) /\
    decode fuel default_options (bytes_of (map Piece ps)) = Ok t.
Proof.
  intros Hl Hu Hr Hp.
  assert (forall fuel, encode fuel h (JRef l) = encode fuel h prim) as Hsame.
  { intros fuel. unfold encode, open_generator. cbn [generator].
    rewrite (deref_lookup h l o Hl).
    destruct o; try discriminate; injection Hu as <-; reflexivity. }
  split; [exact Hsame|].
  destruct (encode_decode prim t default_options Hr Hp) as (n & Hn).
  exists n. intros fuel Hf. destruct (Hn fuel Hf) as (ps & He & _ & Hd).
  exists ps. rewrite Hsame. split; [assumption|].
  rewrite Hd, verdict_default. reflexivity.
Qed.

End Claims.

(** * Further properties

    What the encoder and the decoder do beyond the claims: the shape of
    the output, malformed and truncated input, the limits, Strings. *)

(** ** The chunker, fed by any source *)

Section Feeding.

Context {T : TagCodes}.
Variable h : gmap loc jsobj.

Lemma Next_source_other src src' cd cs :
  cs < 65536 ->
  Next h src (Ok (IValue NotBytes, src')) ->
  Next h (StreamIterator false None src cd cs None) (Err InvalidData).
Proof.
  intros Hcs (n1 & E1 & _). exists (S n1). split; [|discriminate]. cbn [next].
  destruct (Z.leb_spec 65536 cs); [lia|]. rewrite E1. reflexivity.
Qed.

Lemma filled_cons c chunks :
  65536 <= blen c -> filled chunks -> filled (c :: chunks).
Proof.
  unfold filled. intros Hc Hf. destruct chunks as [|c' chunks]; [constructor|].
  change (removelast (c :: c' :: chunks)) with (c :: removelast (c' :: chunks)).
  constructor; assumption.
Qed.

Lemma filled_all chunks : Forall (fun c => 65536 <= blen c) chunks -> filled chunks.
Proof.
  unfold filled. induction 1 as [|c chunks Hc Hall IH]; [constructor|].
  destruct chunks as [|c' chunks]; [constructor|].
  change (removelast (c :: c' :: chunks)) with (c :: removelast (c' :: chunks)).
  constructor; assumption.
Qed.

Lemma flushChunk_last cd cs :
  cs = blen (concat cd) -> cs <= 4294967295 ->
  exists chunks,
    flushChunk cd cs true = frames chunks /\
    Forall valid_chunk chunks /\ concat chunks = concat cd /\ filled chunks.
Proof.
  intros Hcs Hcap. unfold flushChunk. destruct (Z.eqb_spec cs 0) as [E|E]; cbn [negb andb].
  - exists []. rewrite E in *. symmetry in Hcs. apply blen_nil_inv in Hcs.
    cbn [concat]. rewrite Hcs. repeat split; constructor.
  - exists [concat cd]. split; [|split; [|split]].
    + unfold frames, frame. cbn [flat_map concat]. rewrite concat_snoc, <- Hcs.
      cbn [concat]. rewrite !app_nil_r, <- !app_assoc. reflexivity.
    + constructor; [|constructor]. pose proof (blen_nonneg (concat cd)). split; lia.
    + cbn [concat]. apply app_nil_r.
    + constructor.
Qed.

Lemma fed_settle src res tail cd cs :
  chunker_fed h src res tail ->
  cs = blen (concat cd) -> cs <= 4294967295 ->
  exists out chunks,
    Steps h (StreamIterator false None src cd cs None) (map Piece out) res /\
    chunker_post res (concat cd ++ tail) out chunks /\ filled chunks.
Proof.
  intros K Hcs Hcap. destruct (Z.lt_ge_cases cs 65536) as [Hlt|Hge].
  - apply K; assumption.
  - destruct (K [] 0 eq_refl ltac:(lia)) as (out & chunks & Hs & Hp & Hf).
    exists (frame (concat cd) :: out), (concat cd :: chunks). split; [|split].
    + cbn [map]. eapply Steps_value; [|exact Hs].
      rewrite <- (flushChunk_false cd cs Hcs). apply Next_flush. assumption.
    + apply chunker_post_cons; [split; lia | lia | exact Hp].
    + apply filled_cons; [lia | exact Hf].
Qed.

Lemma fed_remain src res tail :
  chunker_fed h src res tail ->
  forall n r0, (length r0 <= n)%nat -> r0 <> [] ->
  exists out chunks,
    Steps h (StreamIterator false None src [] 0 (Some r0)) (map Piece out) res /\
    chunker_post res (r0 ++ tail) out chunks /\ filled chunks.
Proof.
  intros K. induction n as [|n IH]; intros r0 Hn Hr0.
  { destruct r0; [congruence | cbn in Hn; lia]. }
  destruct (Z.le_gt_cases (blen r0) 4294967295) as [Hfit|Hcut].
  - destruct (fed_settle src res tail [r0] (0 + blen r0) K)
      as (out & chunks & Hs & Hp & Hf).
    { cbn [concat]. rewrite app_nil_r. lia. }
    { lia. }
    exists out, chunks. split; [|split; [|exact Hf]].
    + eapply Steps_transfer; [|exact Hs]. intros r.
      apply (Next_remain_fit h src [] 0 r0); [lia | assumption | lia].
    + cbn [concat] in Hp. rewrite app_nil_r in Hp. exact Hp.
  - set (N := Z.to_nat (4294967295 - 0)).
    assert (blen (take N r0) = 4294967295) as Htake
      by (unfold N; rewrite blen_take; lia).
    destruct (IH (drop N r0)) as (out & chunks & Hs & Hp & Hf).
    { rewrite length_drop. unfold N. lia. }
    { intros E. apply (f_equal length) in E. rewrite length_drop in E.
      unfold blen in Hcut. cbn [length] in E. unfold N in E. lia. }
    exists (frame (take N r0) :: out), (take N r0 :: chunks). split; [|split].
    + eapply Steps_transfer.
      { intros r. apply (Next_remain_cut h src [] 0 r0); lia. }
      cbn [map]. eapply Steps_value; [|exact Hs].
      fold N. cbn [app].
      replace (frame (take N r0)) with (flushChunk [take N r0] 4294967295 false)
        by (rewrite (flushChunk_false [take N r0] 4294967295);
            cbn [concat]; rewrite app_nil_r; [reflexivity | lia]).
      apply Next_flush. lia.
    + rewrite <- (take_drop N r0) at 1. rewrite <- app_assoc.
      apply chunker_post_cons; [split; lia | lia | exact Hp].
    + apply filled_cons; [lia | exact Hf].
Qed.

(** The chunker over everything a source can do. *)
Lemma chunker_feeds src ps res :
  Feeds h src ps res -> chunker_fed h src res (concat ps).
Proof.
  induction 1 as [src src' Hn|src e Hn|src src' Hn|src p src' ps res Hn Hs IH];
    intros cd cs Hcs Hlt.
  - cbn [concat]. rewrite app_nil_r.
    destruct (flushChunk_last cd cs Hcs ltac:(lia)) as (chunks & Hf & Hv & Hc & Hfl).
    exists [flushChunk cd cs true], chunks. split; [|split; [|exact Hfl]].
    + cbn [map]. eapply Steps_value.
      * apply Next_source_done; eassumption.
      * eapply Steps_done. apply Next_finished.
    + split; [assumption|]. cbn [concat]. rewrite app_nil_r. split; assumption.
  - exists [], []. split; [|split; [|constructor]].
    + cbn [map]. apply Steps_throw. apply Next_source_throw; assumption.
    + split; [constructor|]. split; [reflexivity|]. split; [constructor|].
      exists (concat cd). cbn [concat app]. rewrite app_nil_r. split; [reflexivity | lia].
  - exists [], []. split; [|split; [|constructor]].
    + cbn [map]. apply Steps_throw. eapply Next_source_other; eassumption.
    + split; [constructor|]. split; [reflexivity|]. split; [constructor|].
      exists (concat cd). cbn [concat app]. rewrite app_nil_r. split; [reflexivity | lia].
  - pose proof (blen_nonneg (concat cd)) as Hnn.
    cbn [concat]. destruct (Z.le_gt_cases (blen p) (4294967295 - cs)) as [Hfit|Hcut].
    + destruct (fed_settle src' res (concat ps) (cd ++ [p]) (cs + blen p) IH)
        as (out & chunks & Hs' & Hp & Hf).
      { rewrite concat_snoc, blen_app. lia. }
      { lia. }
      exists out, chunks. split; [|split; [|exact Hf]].
      * eapply Steps_transfer; [|exact Hs']. intros r.
        apply Next_pull_fit; assumption.
      * rewrite concat_snoc, <- app_assoc in Hp. exact Hp.
    + set (N := Z.to_nat (4294967295 - cs)).
      assert (blen (take N p) = 4294967295 - cs) as Htake
        by (unfold N; rewrite blen_take; lia).
      destruct (fed_remain src' res (concat ps) IH (length (drop N p)) (drop N p))
        as (out & chunks & Hs' & Hp & Hf); [lia| |].
      { intros E. apply (f_equal length) in E. rewrite length_drop in E.
        unfold blen in Hcut. cbn [length] in E. unfold N in E. lia. }
      exists (frame (concat (cd ++ [take N p])) :: out),
             (concat (cd ++ [take N p]) :: chunks). split; [|split].
      * eapply Steps_transfer.
        { intros r. apply Next_pull_cut; eassumption. }
        cbn [map]. eapply Steps_value; [|exact Hs']. fold N.
        rewrite <- (flushChunk_false (cd ++ [take N p]) 4294967295).
        -- apply Next_flush. lia.
        -- rewrite concat_snoc, blen_app. lia.
      * replace (concat cd ++ p ++ concat ps)
          with (concat (cd ++ [take N p]) ++ drop N p ++ concat ps).
        -- apply chunker_post_cons; [| |exact Hp]; unfold valid_chunk;
             rewrite concat_snoc, blen_app; lia.
        -- rewrite concat_snoc, <- app_assoc. f_equal.
           rewrite app_assoc, take_drop. reflexivity.
      * apply filled_cons; [|exact Hf]. rewrite concat_snoc, blen_app. lia.
Qed.

Lemma Steps_Feeds src ps res :
  Steps h src (map Piece ps) res -> Feeds h src ps res.
Proof.
  intros Hs. remember (map Piece ps) as vs eqn:E. revert ps E.
  induction Hs as [src src' Hn|src e Hn|src v src' vs res Hn Hs IH]; intros ps E.
  - destruct ps; [|discriminate]. eapply Feeds_done; eassumption.
  - destruct ps; [|discriminate]. apply Feeds_throw; assumption.
  - destruct ps as [|p ps]; [discriminate|]. injection E as -> ->.
    eapply Feeds_piece; [eassumption | apply IH; reflexivity].
Qed.

Lemma Feeds_array_other ps rest :
  Feeds h (ArrayIterator (map Piece ps ++ NotBytes :: rest)) ps (Err InvalidData).
Proof.
  induction ps as [|p ps IH]; cbn [map app].
  - eapply Feeds_other. exists 1%nat. split; [reflexivity | discriminate].
  - eapply Feeds_piece; [|exact IH]. exists 1%nat. split; [reflexivity | discriminate].
Qed.

(** From an answer of [drain] back to the steps. *)
Lemma drain_Steps n : forall it vs r,
  drain n h it = (vs, r) -> r <> OutOfFuel -> r <> Unmodelled -> Steps h it vs r.
Proof.
  induction n as [|n IH]; intros it vs r Hd Hr Hu.
  { cbn in Hd. injection Hd as <- <-. congruence. }
  cbn [drain] in Hd. destruct (next (S n) h it) as [[[v|] it']| | |] eqn:E.
  - destruct (drain n h it') as [vs' r'] eqn:Ed. injection Hd as <- <-.
    eapply Steps_value; [|apply IH; [exact Ed | exact Hr | exact Hu]].
    exists (S n). split; [exact E | discriminate].
  - injection Hd as <- <-. eapply Steps_done. exists (S n). split; [exact E | discriminate].
  - injection Hd as <- <-. apply Steps_throw. exists (S n). split; [exact E | discriminate].
  - injection Hd as <- <-. congruence.
  - injection Hd as <- <-. congruence.
Qed.

Lemma encode_Encodes n v vs r :
  encode n h v = (vs, r) -> r <> OutOfFuel -> r <> Unmodelled -> Encodes h v vs r.
Proof.
  unfold encode. intros He Hr Hu. destruct (open_generator n h v) as [it|e| |] eqn:Eo.
  - left. exists it. split.
    + exists n. split; [exact Eo | discriminate].
    + eapply drain_Steps; eassumption.
  - injection He as <- <-. right. exists e. split; [|split; reflexivity].
    exists n. split; [exact Eo | discriminate].
  - injection He as <- <-. congruence.
  - injection He as <- <-. congruence.
Qed.

Lemma EncodesAll_each vs outs :
  Forall2 (fun v out => exists n, encode n h v = (out, Ok tt)) vs outs ->
  EncodesAll h vs (concat outs) (Ok tt).
Proof.
  induction 1 as [|v out vs outs [n Hv] _ IH]; cbn [concat]; [constructor|].
  apply EncodesAll_cons; [|exact IH].
  eapply encode_Encodes; [exact Hv | discriminate | discriminate].
Qed.

Lemma EncodesAll_app pre outs rest out r :
  EncodesAll h pre outs (Ok tt) -> EncodesAll h rest out r ->
  EncodesAll h (pre ++ rest) (outs ++ out) r.
Proof.
  intros Hpre Hrest. remember (Ok tt) as ok eqn:Eok.
  induction Hpre as [|v vs o1 o2 r' Hv Hall IH|v vs o1 e Hv]; cbn [app].
  - exact Hrest.
  - rewrite <- app_assoc. apply EncodesAll_cons; [exact Hv | apply IH, Eok].
  - discriminate.
Qed.

Lemma EncodesAll_flatted ps qs :
  Forall2 (fun p q => fst p = fst q /\ represents h (snd p) (snd q)) ps qs ->
  exists bs, EncodesAll h (flatted ps) (map Piece bs) (Ok tt).
Proof.
  induction 1 as [|[k e] [k' t] ps qs [Hk He] Hall (bs & IH)].
  - exists []. constructor.
  - cbn [fst snd] in Hk, He.
    destruct (Encodes_stream h (JString k) STRING [Utf8.encode k] eq_refl)
      as (psk & Hek & _).
    destruct (encode_represents h t e He) as (ps1 & He1 & _).
    exists (psk ++ ps1 ++ bs). rewrite !map_app. unfold flatted.
    cbn [flat_map fst snd app].
    apply EncodesAll_cons; [assumption|]. apply EncodesAll_cons; assumption.
Qed.

(** The iterator of a value with a chunked payload, and what its source
    hands out. *)
Lemma Opens_chunked v t tag :
  represents h v t -> chunked_tag t = Some tag ->
  exists src ps,
    Opens h v (Ok (StreamIterator false (Some [code tag]) src [] 0 None)) /\
    Steps h src (map Piece ps) (Ok tt).
Proof.
  intros Hr Ht.
  inversion Hr as [| | | |s|l b Hl|l x Hl|l s Hl|l b Hl|l ps Hl
                   |l es ts Hl Hall|l ps qs Hl Hall]; subst;
    cbn [chunked_tag] in Ht; try discriminate Ht; injection Ht as <-.
  - exists (ArrayIterator (map Piece [Utf8.encode s])), [Utf8.encode s].
    split; [|apply Steps_array]. exists 0%nat. split; [reflexivity | discriminate].
  - exists (ArrayIterator (map Piece [Utf8.encode s])), [Utf8.encode s].
    split; [|apply Steps_array]. exists 0%nat. split; [|discriminate].
    unfold open_generator. cbn [generator]. rewrite (deref_lookup h _ _ Hl). reflexivity.
  - exists (ArrayIterator (map Piece [b])), [b].
    split; [|apply Steps_array]. exists 0%nat. split; [|discriminate].
    unfold open_generator. cbn [generator]. rewrite (deref_lookup h _ _ Hl). reflexivity.
  - exists (ArrayIterator (map Piece ps)), ps.
    split; [|apply Steps_array]. exists 0%nat. split; [|discriminate].
    unfold open_generator. cbn [generator]. rewrite (deref_lookup h _ _ Hl). reflexivity.
  - destruct (EncodesAll_represents h es ts Hall) as (ps & Hes & _).
    exists (MultiIterator es 0 None), ps. split.
    + apply Opens_array; [assumption | eapply represents_acyclic; eassumption].
    + apply Steps_multi; [lia | exact Hes].
  - destruct (EncodesAll_flatted ps qs Hall) as (bs & Hes).
    exists (MultiIterator (flatted ps) 0 None), bs. split.
    + apply Opens_object; [assumption | eapply represents_acyclic; eassumption].
    + apply Steps_multi; [lia | exact Hes].
Qed.

Lemma frames_nil_inv (cs : list bytes) :
  Forall valid_chunk cs -> concat cs = [] -> cs = [].
Proof.
  intros Hcs Hc. destruct Hcs as [|c cs [Hlo _] _]; [reflexivity|].
  cbn [concat] in Hc. apply app_eq_nil in Hc as [-> _].
  unfold blen in Hlo. cbn [length] in Hlo. lia.
Qed.

End Feeding.

Section EncoderTheorems.

Context {T : TagCodes}.
Variable h : gmap loc jsobj.

(** X11.  [multiGenerator] encodes its values in turn: when each value of
    a list is encoded without an error, what the iterator of the list
    hands out is what the values hand out, one after the other, and
    nothing more; if the next value then fails, its pieces and its error
    end the sequence, and the values after it are not looked at. *)
Theorem sequence_is_concatenation pre outs :
  Forall2 (fun v out => exists n, encode n h v = (out, Ok tt)) pre outs ->
  (exists n, forall fuel, (n <= fuel)%nat ->
     drain fuel h (MultiIterator pre 0 None) = (concat outs, Ok tt)) /\
  (forall bad post out e m,
     encode m h bad = (out, Err e) ->
     exists n, forall fuel, (n <= fuel)%nat ->
       drain fuel h (MultiIterator (pre ++ bad :: post) 0 None) =
       (concat outs ++ out, Err e)).
Proof.
  intros Hall. apply EncodesAll_each in Hall. split.
  - apply Steps_drain. apply Steps_multi; [lia | exact Hall].
  - intros bad post out e m He. apply Steps_drain. apply Steps_multi; [lia|].
    cbn [drop]. apply EncodesAll_app; [exact Hall|].
    apply EncodesAll_throw.
    eapply encode_Encodes; [exact He | discriminate | discriminate].
Qed.

(** X12.  The chunks of an encoded String, Stream, Array or Object are
    filled before they are sent: the payload is cut into chunks of which
    every one but the last holds at least 65536 bytes, so pieces smaller
    than that are gathered and never sent as chunks of their own. *)
Theorem chunks_are_filled v t tag :
  represents h v t -> chunked_tag t = Some tag ->
  exists n, forall fuel, (n <= fuel)%nat ->
  exists out chunks,
    encode fuel h v = (map Piece ([code tag] :: out), Ok tt) /\
    concat out = frames chunks /\
    Forall valid_chunk chunks /\
    Forall (fun c => 65536 <= blen c) (removelast chunks).
Proof.
  intros Hr Ht. destruct (Opens_chunked h v t tag Hr Ht) as (src & ps & Ho & Hs).
  destruct (chunker_feeds h src ps (Ok tt) (Steps_Feeds h _ _ _ Hs) [] 0 eq_refl
              ltac:(lia)) as (out & chunks & Hout & (Hv & Hf & _) & Hfl).
  destruct (Encodes_encode h v (map Piece ([code tag] :: out)) (Ok tt)) as (n & Hn).
  { left. eexists. split; [exact Ho|]. cbn [map].
    eapply Steps_value; [apply Next_prefix | exact Hout]. }
  exists n. intros fuel Hfu. exists out, chunks.
  split; [apply Hn, Hfu|]. split; [exact Hf|]. split; [exact Hv | exact Hfl].
Qed.

(** X13.  A source of a Stream that hands out something that is no
    [Uint8Array] makes the encoding throw "Invalid data" when that item is
    pulled: before the throw the tag and the chunks flushed so far, each
    of at least 65536 bytes, have been handed out; the bytes still staged,
    fewer than 65536, are lost. *)
Theorem stream_item_must_be_bytes l ps rest :
  h !! l = Some (OAsyncIterable (map Piece ps ++ NotBytes :: rest)) ->
  exists n, forall fuel, (n <= fuel)%nat ->
  exists out chunks lost,
    encode fuel h (JRef l) = (map Piece ([code STREAM] :: out), Err InvalidData) /\
    concat out = flat_map frame chunks /\
    concat ps = concat chunks ++ lost /\ blen lost < 65536 /\
    Forall (fun c => 65536 <= blen c <= 4294967295) chunks.
Proof.
  intros Hl.
  destruct (chunker_feeds h _ ps _ (Feeds_array_other h ps rest) [] 0 eq_refl
              ltac:(lia)) as (out & chunks & Hout & (Hv & Hf & Hbig & lost & Hd & Hlost) & _).
  destruct (Encodes_encode h (JRef l) (map Piece ([code STREAM] :: out))
              (Err InvalidData)) as (n & Hn).
  { left. eexists. split.
    - exists 0%nat. split; [|discriminate]. unfold open_generator.
      cbn [generator]. rewrite (deref_lookup h _ _ Hl). reflexivity.
    - cbn [map]. eapply Steps_value; [apply Next_prefix | exact Hout]. }
  exists n. intros fuel Hfu. exists out, chunks, lost.
  split; [apply Hn, Hfu|]. split; [exact Hf|]. split; [exact Hd|].
  split; [exact Hlost|]. rewrite Forall_forall in Hv, Hbig |- *.
  intros c Hc. specialize (Hv c Hc). specialize (Hbig c Hc).
  unfold valid_chunk in Hv. lia.
Qed.

(** X14.  A String, Stream, Array or Object with nothing in it is encoded
    in five bytes: its tag and one zero-length chunk.  Pieces of no bytes
    make no chunk, and no second terminator follows an empty last chunk. *)
Theorem empty_value_is_five_bytes v t tag :
  represents h v t -> chunked_tag t = Some tag -> empty_payload t = true ->
  exists n, forall fuel, (n <= fuel)%nat ->
  exists ps,
    encode fuel h v = (map Piece ps, Ok tt) /\
    concat ps = [code tag; 0; 0; 0; 0].
Proof.
  intros Hr Ht He. destruct (encode_represents h t v Hr) as (ps & Hen & Hw).
  destruct (Encodes_encode h v _ _ Hen) as (n & Hn).
  exists n. intros fuel Hf. exists ps. split; [apply Hn, Hf|].
  destruct t as [| | | |[|c s]|[|c b]|[|t ts]|[|p ps']];
    cbn [chunked_tag empty_payload] in Ht, He; try discriminate;
    injection Ht as <-; cbn [Wire] in Hw.
  - destruct Hw as (cs & Hcs & Hc & ->).
    rewrite (frames_nil_inv cs Hcs Hc). reflexivity.
  - destruct Hw as (cs & Hcs & Hc & ->).
    rewrite (frames_nil_inv cs Hcs Hc). reflexivity.
  - destruct Hw as (payload & (cs & Hcs & Hc & ->) & Hp). cbn in Hp.
    rewrite Hp in Hc. rewrite (frames_nil_inv cs Hcs Hc). reflexivity.
  - destruct Hw as (payload & (cs & Hcs & Hc & ->) & Hp). cbn in Hp.
    rewrite Hp in Hc. rewrite (frames_nil_inv cs Hcs Hc). reflexivity.
Qed.

End EncoderTheorems.

(** ** The decoder off the well-formed path *)

Module Utf8Tail.
Import Utf8 Utf8Facts.

(** An unfinished sequence yields nothing. *)
Lemma run_unfinished c k :
  is_scalar c = true -> (0 < k < length (encode_cp c))%nat ->
  fst (run init (take k (encode_cp c))) = [].
Proof.
  intros [Hr Hs]%scalar_range. unfold encode_cp.
  destruct (Z.ltb_spec c 128).
  { cbn [length]. lia. }
  replace (c / 4096) with (c / 64 / 64) by (rewrite Z.div_div by lia; reflexivity).
  replace (c / 262144) with (c / 64 / 64 / 64) by (rewrite !Z.div_div by lia; reflexivity).
  destruct (split64 c) as (q1 & r1 & E1 & B1 & D1 & M1). rewrite ?D1, ?M1.
  destruct (Z.ltb_spec c 2048).
  { clear D1 M1. cbn [length]. intros Hk.
    assert (k = 1%nat) as -> by lia. cbn [take].
    repeat run_steps. reflexivity. }
  destruct (split64 q1) as (q2 & r2 & E2 & B2 & D2 & M2). rewrite ?D2, ?M2.
  destruct (Z.ltb_spec c 65536).
  { clear D1 M1 D2 M2. cbn [length]. intros Hk.
    assert (k = 1 \/ k = 2)%nat as [-> | ->] by lia.
    all: cbn [take]; repeat run_steps; reflexivity. }
  destruct (split64 q2) as (q3 & r3 & E3 & B3 & D3 & M3). rewrite ?D3, ?M3.
  clear D1 M1 D2 M2 D3 M3. cbn [length]. intros Hk.
  assert (k = 1 \/ k = 2 \/ k = 3)%nat as [-> | [-> | ->]] by lia.
  all: cbn [take]; repeat run_steps; reflexivity.
Qed.

(** ... and leaves the decoder in the middle of a sequence. *)
Lemma run_unfinished_state c k :
  is_scalar c = true -> (0 < k < length (encode_cp c))%nat ->
  exists st, run init (take k (encode_cp c)) = ([], st) /\ 0 < needed st.
Proof.
  intros [Hr Hs]%scalar_range. unfold encode_cp.
  destruct (Z.ltb_spec c 128).
  { cbn [length]. lia. }
  replace (c / 4096) with (c / 64 / 64) by (rewrite Z.div_div by lia; reflexivity).
  replace (c / 262144) with (c / 64 / 64 / 64) by (rewrite !Z.div_div by lia; reflexivity).
  destruct (split64 c) as (q1 & r1 & E1 & B1 & D1 & M1). rewrite ?D1, ?M1.
  destruct (Z.ltb_spec c 2048).
  { clear D1 M1. cbn [length]. intros Hk.
    assert (k = 1%nat) as -> by lia. cbn [take].
    repeat run_steps. eexists. split; [reflexivity | cbn [needed]; lia]. }
  destruct (split64 q1) as (q2 & r2 & E2 & B2 & D2 & M2). rewrite ?D2, ?M2.
  destruct (Z.ltb_spec c 65536).
  { clear D1 M1 D2 M2. cbn [length]. intros Hk.
    assert (k = 1 \/ k = 2)%nat as [-> | ->] by lia.
    all: cbn [take]; repeat run_steps;
      eexists; (split; [reflexivity | cbn [needed]; lia]). }
  destruct (split64 q2) as (q3 & r3 & E3 & B3 & D3 & M3). rewrite ?D3, ?M3.
  clear D1 M1 D2 M2 D3 M3. cbn [length]. intros Hk.
  assert (k = 1 \/ k = 2 \/ k = 3)%nat as [-> | [-> | ->]] by lia.
  all: cbn [take]; repeat run_steps;
    eexists; (split; [reflexivity | cbn [needed]; lia]).
Qed.

Lemma usv_scalar c : 0 <= c <= 1114111 -> is_scalar (usv c) = true.
Proof.
  intros Hc. unfold usv, is_scalar. destruct (is_surrogate c) eqn:E.
  - reflexivity.
  - rewrite E. destruct (Z.leb_spec 0 c), (Z.leb_spec c 1114111); first [reflexivity | lia].
Qed.

Lemma encode_usv s : encode (map usv s) = encode s.
Proof.
  unfold encode. induction s as [|c s IH]; cbn [map flat_map]; [reflexivity|].
  rewrite IH. f_equal. unfold usv. destruct (is_surrogate c) eqn:E; [reflexivity|].
  rewrite E. reflexivity.
Qed.

Lemma code_points_range s :
  code_points s = true -> Forall (fun c => 0 <= c <= 1114111) s.
Proof.
  induction s as [|c s IH]; cbn [code_points]; intros H; [constructor|].
  apply andb_true_iff in H as [H Hs]. apply andb_true_iff in H as [H _].
  apply andb_true_iff in H as [Hlo Hhi].
  constructor; [lia | apply IH, Hs].
Qed.

Lemma serialize_strip s : fst (serialize false s) = strip_bom s.
Proof. destruct s as [|c s]; [reflexivity|]. cbn [serialize fst strip_bom]. reflexivity. Qed.

End Utf8Tail.

Section DecoderProperties.

Context {T : TagCodes}.
Import StringFacts.

Lemma type_of_byte_none b : (forall t, b <> code t) -> type_of_byte b = None.
Proof.
  intros H. unfold type_of_byte.
  repeat match goal with
  | |- context [b =? code ?t] =>
      destruct (Z.eqb_spec b (code t)); [exfalso; eapply H; eassumption|]
  end.
  reflexivity.
Qed.

(** The four chunked cases of [parser] at a payload given by its chunks. *)
Lemma parser_string_chunks cs s o paths fuel :
  Forall valid_chunk cs ->
  parser (S fuel) (lapp (code STRING :: frames cs) s) o paths =
  if exceeds (Z.of_nat (length paths)) (maxDepth o) then Err DepthExceeded
  else if over (blen (concat cs)) (stringMaxSize o) then Err StringSizeExceeded
  else Ok (VString (strip_bom (fst (Utf8.run Utf8.init (concat cs)))), s).
Proof.
  intros Hcs. cbn [parser].
  destruct (exceeds (Z.of_nat (length paths)) (maxDepth o)); [reflexivity|].
  cbn [lapp readEnoughSize rbind hd]. rewrite type_of_byte_code.
  rewrite splitChunkedStream_frames, string_loop_chunks by assumption.
  unfold over. rewrite <- (concat_nil_valid cs Hcs), Z.add_0_l.
  destruct (negb (blen (concat cs) =? 0) && exceeds (blen (concat cs)) (stringMaxSize o));
    [reflexivity|].
  cbn [Utf8.dstate Utf8.bom_seen Utf8.newTextDecoder].
  destruct (Utf8.run Utf8.init (concat cs)) as [o1 st]. cbn [rbind fst app].
  rewrite Utf8Tail.serialize_strip. reflexivity.
Qed.

Lemma parser_stream_chunks cs s o paths fuel :
  Forall valid_chunk cs ->
  parser (S fuel) (lapp (code STREAM :: frames cs) s) o paths =
  if exceeds (Z.of_nat (length paths)) (maxDepth o) then Err DepthExceeded
  else if over (blen (concat cs)) (streamMaxSize o) then Err StreamSizeExceeded
  else Ok (VStream (concat cs), s).
Proof.
  intros Hcs. cbn [parser].
  destruct (exceeds (Z.of_nat (length paths)) (maxDepth o)); [reflexivity|].
  cbn [lapp readEnoughSize rbind hd]. rewrite type_of_byte_code.
  rewrite readChunkedStream_wire by assumption.
  destruct (over (blen (concat cs)) (streamMaxSize o)); reflexivity.
Qed.

Lemma parser_array_chunks cs s o paths fuel :
  Forall valid_chunk cs ->
  parser (S fuel) (lapp (code ARRAY :: frames cs) s) o paths =
  if exceeds (Z.of_nat (length paths)) (maxDepth o) then Err DepthExceeded
  else array_loop (fun s p => parser fuel s o p) o paths fuel
         (lapp (concat cs) (LRet s)) [].
Proof.
  intros Hcs. cbn [parser].
  destruct (exceeds (Z.of_nat (length paths)) (maxDepth o)); [reflexivity|].
  cbn [lapp readEnoughSize rbind hd]. rewrite type_of_byte_code.
  rewrite splitChunkedStream_frames, Splitable_chunks by assumption. reflexivity.
Qed.

Lemma parser_object_chunks cs s o paths fuel :
  Forall valid_chunk cs ->
  parser (S fuel) (lapp (code OBJECT :: frames cs) s) o paths =
  if exceeds (Z.of_nat (length paths)) (maxDepth o) then Err DepthExceeded
  else object_loop (fun s p => parser fuel s o p) o paths fuel
         (lapp (concat cs) (LRet s)) [].
Proof.
  intros Hcs. cbn [parser].
  destruct (exceeds (Z.of_nat (length paths)) (maxDepth o)); [reflexivity|].
  cbn [lapp readEnoughSize rbind hd]. rewrite type_of_byte_code.
  rewrite splitChunkedStream_frames, Splitable_chunks by assumption. reflexivity.
Qed.

(** The Array loop over a payload that starts with whole elements. *)
Lemma array_loop_prefix parse o paths ts :
  Forall (fun t => forall bs s' p,
            Wire t bs -> Z.of_nat (length p) = Z.of_nat (length paths) + 1 ->
            parse (lapp bs s') p = Ok (t, s')) ts ->
  arrayMaxLength o = Infinity ->
  forall payload rest s elems n,
    wire_elements Wire ts payload ->
    array_loop parse o paths (length ts + n) (lapp (payload ++ rest) s) elems =
    array_loop parse o paths n (lapp rest s) (elems ++ ts).
Proof.
  intros Hall Hlim. induction Hall as [|t r Ht _ IH]; intros payload rest s elems n Hw.
  - cbn [wire_elements] in Hw. subst payload. rewrite app_nil_r. reflexivity.
  - destruct Hw as (b1 & b2 & -> & Hw1 & Hw2).
    destruct (Wire_cons _ _ Hw1) as (b & more & Hb).
    cbn [length Nat.add array_loop].
    replace (hasValue (lapp ((b1 ++ b2) ++ rest) s)) with (Ok (A:=bool) true)
      by (rewrite Hb; reflexivity).
    cbn [rbind]. rewrite Hlim. cbn [reaches].
    rewrite <- !app_assoc, lapp_app, Ht by (assumption || apply length_snoc).
    cbn [rbind]. rewrite (IH b2 rest s (elems ++ [t]) n Hw2), <- app_assoc. reflexivity.
Qed.


(** The Array loop under a limit that the whole elements stay within. *)
Lemma array_loop_counts parse m paths ts :
  Forall (fun t => forall bs s' p,
            Wire t bs -> Z.of_nat (length p) = Z.of_nat (length paths) + 1 ->
            parse (lapp bs s') p = Ok (t, s')) ts ->
  forall payload rest s elems n,
    wire_elements Wire ts payload ->
    Z.of_nat (length elems + length ts) <= m ->
    array_loop parse (array_only m) paths (length ts + n)
      (lapp (payload ++ rest) s) elems =
    array_loop parse (array_only m) paths n (lapp rest s) (elems ++ ts).
Proof.
  intros Hall. induction Hall as [|t r Ht _ IH]; intros payload rest s elems n Hw Hm.
  - cbn [wire_elements] in Hw. subst payload. rewrite app_nil_r. reflexivity.
  - destruct Hw as (b1 & b2 & -> & Hw1 & Hw2).
    destruct (Wire_cons _ _ Hw1) as (b & more & Hb).
    cbn [length Nat.add array_loop].
    replace (hasValue (lapp ((b1 ++ b2) ++ rest) s)) with (Ok (A:=bool) true)
      by (rewrite Hb; reflexivity).
    cbn [rbind array_only arrayMaxLength reaches]. cbn [length] in Hm.
    destruct (Z.leb_spec m (Z.of_nat (length elems))); [lia|].
    rewrite <- !app_assoc, lapp_app, Ht by (assumption || apply length_snoc).
    cbn [rbind]. rewrite (IH b2 rest s (elems ++ [t]) n Hw2), <- app_assoc;
      [reflexivity|]. rewrite length_app. cbn [length]. lia.
Qed.

Lemma verdict_object_only m t : forall d,
  verdict (object_only m) d t =
  if (m <=? 0) && has_pairs t then Some ObjectLengthExceeded else None.
Proof.
  induction t as [| |b|x|s|b|ts IH|ps IH] using Value_ind'; intros d;
    cbn [verdict object_only maxDepth exceeds has_pairs]; unfold over;
    cbn [stringMaxSize streamMaxSize exceeds]; rewrite ?andb_false_r;
    try reflexivity.
  - assert (forall i,
      verdict_elements (verdict (object_only m) (d + 1)) (object_only m) ts i =
      if (m <=? 0) && existsb has_pairs ts
      then Some ObjectLengthExceeded else None) as Haux; [|apply Haux].
    induction IH as [|t ts Ht _ IHts]; intros i;
      cbn [verdict_elements existsb]; [rewrite andb_false_r; reflexivity|].
    change (reaches i (arrayMaxLength (object_only m))) with false.
    rewrite Ht, IHts. destruct (m <=? 0), (has_pairs t); reflexivity.
  - destruct (m <=? 0) eqn:Em.
    + destruct ps as [|[k v] ps]; cbn [verdict_properties andb]; [reflexivity|].
      change (reaches 0 (objectMaxLength (object_only m))) with (m <=? 0).
      rewrite Em. reflexivity.
    + cbn [andb]. induction IH as [|[k v] ps Hv _ IHps]; cbn [verdict_properties];
        [reflexivity|].
      change (reaches 0 (objectMaxLength (object_only m))) with (m <=? 0).
      rewrite Em. change (stringMaxSize (object_only m)) with Infinity.
      unfold over. cbn [exceeds]. rewrite andb_false_r. cbn [snd] in Hv.
      rewrite Hv. cbn [andb]. exact IHps.
Qed.


Lemma verdict_limit_error o t : forall d e,
  verdict o d t = Some e -> limit_error e = true.
Proof.
  induction t as [| |b|x|s|b|ts IH|ps IH] using Value_ind'; intros d e;
    cbn [verdict]; (destruct (exceeds d (maxDepth o)); [intros [= <-]; reflexivity|]);
    try discriminate.
  - destruct (over _ _); [intros [= <-]; reflexivity | discriminate].
  - destruct (over _ _); [intros [= <-]; reflexivity | discriminate].
  - generalize 0 as i. induction IH as [|t ts Ht _ IHts]; intros i;
      cbn [verdict_elements]; [discriminate|].
    destruct (reaches i (arrayMaxLength o)); [intros [= <-]; reflexivity|].
    destruct (verdict o (d + 1) t) eqn:Ev; [intros [= <-]; eapply Ht, Ev|].
    apply IHts.
  - induction IH as [|[k v] ps Hv _ IHps]; cbn [verdict_properties]; [discriminate|].
    destruct (reaches 0 (objectMaxLength o)); [intros [= <-]; reflexivity|].
    destruct (over _ _); [intros [= <-]; reflexivity|].
    cbn [snd] in Hv.
    destruct (verdict o (d + 1) v) eqn:Ev; [intros [= <-]; eapply Hv, Ev|].
    apply IHps.
Qed.

End DecoderProperties.

Section DecoderTheorems.

Context {T : TagCodes}.
Variable h : gmap loc jsobj.
Import StringFacts.

(** X1.  Every supported value, whatever its Strings and keys, is encoded
    without an error, and the bytes handed out follow the grammar of the
    format: a tag; then nothing, one byte, eight bytes, or a chunked
    payload that for an Array is the wire forms of its elements and for an
    Object those of its keys and values.  (An async iterable gives a fresh
    iterator over its pieces each time it is asked for one.) *)
Theorem encoded_is_wire_form v t :
  represents h v t ->
  exists n, forall fuel, (n <= fuel)%nat ->
  exists ps, encode fuel h v = (map Piece ps, Ok tt) /\ Wire t (concat ps).
Proof.
  intros Hr. destruct (encode_represents h t v Hr) as (ps & He & Hw).
  destruct (Encodes_encode h v _ _ He) as (n & Hn).
  exists n. intros fuel Hf. exists ps. split; [apply Hn, Hf | exact Hw].
Qed.


(** X3.  Where the chunk boundaries of a payload fall does not matter to
    [parser]: two chunked payloads with the same tag and the same bytes,
    cut into chunks in two ways, give the same answer under the same
    limits, whatever the bytes are. *)
Theorem chunk_boundaries_irrelevant tag cs1 cs2 s o paths fuel :
  chunked tag = true ->
  Forall valid_chunk cs1 -> Forall valid_chunk cs2 -> concat cs1 = concat cs2 ->
  parser fuel (lapp (code tag :: frames cs1) s) o paths =
  parser fuel (lapp (code tag :: frames cs2) s) o paths.
Proof.
  intros Ht H1 H2 E. destruct fuel as [|fuel]; [reflexivity|].
  destruct tag; try discriminate Ht.
  - rewrite !parser_stream_chunks, E by assumption. reflexivity.
  - rewrite !parser_string_chunks, E by assumption. reflexivity.
  - rewrite !parser_array_chunks, E by assumption. reflexivity.
  - rewrite !parser_object_chunks, E by assumption. reflexivity.
Qed.

(** X4.  [stringMaxSize] bounds the UTF-8 bytes of a String, not its
    characters: under [{ stringMaxSize: m }] a String decodes exactly when
    its encoding has at most [m] bytes; the empty String always decodes. *)
Theorem string_limit_counts_bytes s bs m fuel :
  nice_text s = true -> Wire (VString s) bs ->
  decode (S fuel) (string_only m) bs =
  if blen (Utf8.encode s) <=? Z.max m 0
  then Ok (VString s) else Err StringSizeExceeded.
Proof.
  intros Hn (cs & Hcs & Hc & ->). unfold decode, createSplitable.
  rewrite parser_string_chunks by assumption.
  cbn [string_only maxDepth stringMaxSize exceeds length]. rewrite Hc.
  unfold over. cbn [exceeds]. pose proof (blen_nonneg (Utf8.encode s)).
  destruct (nice_text_run s Hn) as [Hr Hs]. rewrite Hr. cbn [fst].
  rewrite <- Utf8Tail.serialize_strip, Hs.
  destruct (Z.eqb_spec (blen (Utf8.encode s)) 0),
           (Z.ltb_spec m (blen (Utf8.encode s))),
           (Z.leb_spec (blen (Utf8.encode s)) (Z.max m 0));
    first [reflexivity | lia].
Qed.

(** X5.  [objectMaxLength] does not count pairs: the counter it is
    compared with stays 0.  Under [{ objectMaxLength: m }] with [m > 0]
    every Object decodes, however many pairs it has; with [m <= 0] a value
    decodes exactly when no Object with a pair is read. *)
Theorem object_limit_compares_zero v t m :
  represents h v t -> plain t = true ->
  exists n, forall fuel, (n <= fuel)%nat ->
  exists ps,
    encode fuel h v = (map Piece ps, Ok tt) /\
    decode fuel (object_only m) (bytes_of (map Piece ps)) =
    if (m <=? 0) && has_pairs t then Err ObjectLengthExceeded else Ok t.
Proof.
  intros Hr Hp. destruct (encode_decode h v t (object_only m) Hr Hp) as (n & Hn).
  exists n. intros fuel Hf. destruct (Hn fuel Hf) as (ps & He & _ & Hd).
  exists ps. split; [assumption|]. rewrite Hd, verdict_object_only.
  destruct ((m <=? 0) && has_pairs t); reflexivity.
Qed.

(** X6.  What a String comes back as, for every string, well-formed or
    not: each lone surrogate has become U+FFFD, then one leading U+FEFF
    is gone; nothing else changes. *)
Theorem string_comes_back_normalised s :
  code_points s = true ->
  exists n, forall fuel, (n <= fuel)%nat ->
  exists ps,
    encode fuel h (JString s) = (map Piece ps, Ok tt) /\
    decode fuel default_options (bytes_of (map Piece ps)) =
      Ok (VString (strip_bom (map usv s))).
Proof.
  intros Hs%Utf8Tail.code_points_range.
  destruct (Encodes_stream h (JString s) STRING [Utf8.encode s] eq_refl)
    as (out & He & cs & Hcs & Hc & Hout).
  cbn [concat] in Hc. rewrite app_nil_r in Hc.
  destruct (Encodes_encode h _ _ _ He) as (n & Hn).
  exists (S n). intros fuel Hf. exists out. split; [apply Hn; lia|].
  destruct fuel as [|fuel]; [lia|].
  unfold decode, createSplitable. rewrite bytes_of_pieces, Hout.
  rewrite parser_string_chunks by assumption.
  cbn [default_options maxDepth stringMaxSize exceeds length]. unfold over.
  cbn [exceeds]. rewrite andb_false_r, Hc, <- Utf8Tail.encode_usv.
  rewrite Utf8Facts.run_encode; [reflexivity|].
  apply forallb_forall. intros c Hin. apply in_map_iff in Hin as (c0 & <- & Hin).
  apply Utf8Tail.usv_scalar. rewrite Forall_forall in Hs.
  apply Hs, list_elem_of_In, Hin.
Qed.

(** X7.  A String payload that ends in the middle of a multi-byte
    sequence decodes without an error and without a replacement
    character: the chunks are decoded in streaming mode and the decoder is
    never flushed, so the unfinished bytes are dropped. *)
Theorem unfinished_sequence_dropped s c k cs fuel :
  nice_text s = true -> Utf8.is_scalar c = true ->
  (0 < k < length (Utf8.encode_cp c))%nat ->
  Forall valid_chunk cs ->
  concat cs = Utf8.encode s ++ take k (Utf8.encode_cp c) ->
  decode (S fuel) default_options (code STRING :: frames cs) = Ok (VString s).
Proof.
  intros Hn Hc Hk Hcs Hcat. unfold decode, createSplitable.
  rewrite parser_string_chunks by assumption.
  cbn [default_options maxDepth stringMaxSize exceeds length]. unfold over.
  cbn [exceeds]. rewrite andb_false_r, Hcat, Utf8Facts.run_app.
  destruct (nice_text_run s Hn) as [Hr Hs]. rewrite Hr.
  pose proof (Utf8Tail.run_unfinished c k Hc Hk) as Hu.
  destruct (Utf8.run Utf8.init (take k (Utf8.encode_cp c))) as [o st].
  cbn [fst] in Hu. subst o. cbn [fst rbind]. rewrite app_nil_r.
  rewrite <- Utf8Tail.serialize_strip, Hs. reflexivity.
Qed.

(** X8.  A first byte that is the code of no type is refused with
    "Invalid type", whatever follows it. *)
Theorem unknown_tag_rejected b rest o fuel :
  (forall t, b <> code t) -> exceeds 0 (maxDepth o) = false ->
  decode (S fuel) o (b :: rest) = Err InvalidType.
Proof.
  intros Hb Hd. unfold decode, createSplitable. cbn [parser length lapp].
  change (Z.of_nat 0) with 0. rewrite Hd. cbn [readEnoughSize rbind hd].
  rewrite (type_of_byte_none b Hb). reflexivity.
Qed.

(** X9.  The key of a pair must be a String: an Object payload in which a
    pair starts with another byte than the String tag is refused with
    "Invalid key", whatever the pair would have held. *)
Theorem key_must_be_string cs b more s o paths fuel :
  Forall valid_chunk cs -> concat cs = b :: more -> b <> code STRING ->
  exceeds (Z.of_nat (length paths)) (maxDepth o) = false ->
  reaches 0 (objectMaxLength o) = false ->
  parser (S (S fuel)) (lapp (code OBJECT :: frames cs) s) o paths = Err InvalidKey.
Proof.
  intros Hcs Hc Hb Hd Hl. rewrite parser_object_chunks, Hd, Hc by assumption.
  cbn [object_loop lapp hasValue rbind]. rewrite Hl.
  cbn [readEnoughSize rbind hd]. destruct (Z.eqb_spec b (code STRING)); [contradiction|].
  reflexivity.
Qed.

(** X10.  An error inside an element is the error of the Array: when the
    payload holds whole elements and then bytes on which [parser] throws,
    decoding the Array throws the same error; no partial Array is
    returned and nothing is caught. *)
Theorem element_failure_fails_array ts pre bad cs s e paths fuel :
  forallb plain ts = true -> wire_elements Wire ts pre -> bad <> [] ->
  Forall valid_chunk cs -> concat cs = pre ++ bad ->
  (list_sum (map vsize ts) < fuel)%nat ->
  parser fuel (lapp bad (LRet s)) default_options
    (paths ++ [inr (Z.of_nat (length ts))]) = Err e ->
  parser (S fuel) (lapp (code ARRAY :: frames cs) s) default_options paths = Err e.
Proof.
  intros Hp Hw Hbad Hcs Hc Hf He. rewrite parser_array_chunks, Hc by assumption.
  cbn [default_options maxDepth exceeds].
  pose proof (vsize_length ts) as Hlen.
  set (parse := fun s0 p => parser fuel s0 default_options p).
  replace fuel with (length ts + S (fuel - length ts - 1))%nat by lia.
  rewrite (array_loop_prefix parse default_options paths ts); [| |reflexivity|exact Hw].
  - destruct bad as [|x bad]; [congruence|].
    cbn [array_loop lapp hasValue rbind default_options arrayMaxLength reaches app].
    change (lapp (x :: bad) (LRet s)) with (LCons x (lapp bad (LRet s))) in He.
    unfold parse. rewrite He. reflexivity.
  - unfold parse. apply Forall_forall. intros t Ht bs' s' p Hwt _.
    rewrite (parser_wire t); [unfold expected; rewrite verdict_default; reflexivity| |exact Hwt|].
    + rewrite forallb_forall in Hp. apply Hp, list_elem_of_In, Ht.
    + pose proof (vsize_elem t ts Ht). lia.
Qed.

(** X16.  Limits only refuse.  Under any options, decoding an encoding
    returns the value that decoding without limits returns, or throws one
    of the limit errors; a String, Stream, Array or Object over a limit is
    never cut down to the limit. *)
Theorem limits_only_refuse v t o :
  represents h v t -> plain t = true ->
  exists n, forall fuel, (n <= fuel)%nat ->
  exists ps,
    encode fuel h v = (map Piece ps, Ok tt) /\
    (decode fuel o (bytes_of (map Piece ps)) = Ok t \/
     exists e, limit_error e = true /\
               decode fuel o (bytes_of (map Piece ps)) = Err e).
Proof.
  intros Hr Hp. destruct (encode_decode h v t o Hr Hp) as (n & Hn).
  exists n. intros fuel Hf. destruct (Hn fuel Hf) as (ps & He & _ & Hd).
  exists ps. split; [assumption|]. rewrite Hd.
  destruct (verdict o 0 t) as [e|] eqn:Ev; [right | left; reflexivity].
  exists e. split; [eapply verdict_limit_error, Ev | reflexivity].
Qed.

(** X17.  The length of an Array is tested before an element is read:
    under [{ arrayMaxLength: m }] a payload that holds [m] whole elements
    and then any further byte is refused with "Array length exceeded";
    what the further bytes are is never looked at. *)
Theorem array_limit_checked_first ts pre rest cs s m paths fuel :
  forallb plain ts = true ->
  forallb (fun t => longest_array t <=? m) ts = true ->
  wire_elements Wire ts pre -> Z.of_nat (length ts) = m -> rest <> [] ->
  Forall valid_chunk cs -> concat cs = pre ++ rest ->
  (list_sum (map vsize ts) < fuel)%nat ->
  parser (S fuel) (lapp (code ARRAY :: frames cs) s) (array_only m) paths =
  Err ArrayLengthExceeded.
Proof.
  intros Hp Hlen Hw Hm Hrest Hcs Hc Hf. rewrite parser_array_chunks, Hc by assumption.
  cbn [array_only maxDepth exceeds].
  change {| streamMaxSize := Infinity; stringMaxSize := Infinity;
            arrayMaxLength := Finite m; objectMaxLength := Infinity;
            maxDepth := Infinity |} with (array_only m).
  pose proof (vsize_length ts) as Hvl.
  set (parse := fun s0 p => parser fuel s0 (array_only m) p).
  replace fuel with (length ts + S (fuel - length ts - 1))%nat by lia.
  rewrite (array_loop_counts parse m paths ts); [| |exact Hw|cbn [length]; lia].
  - destruct rest as [|x rest]; [congruence|].
    cbn [array_loop lapp hasValue rbind array_only arrayMaxLength reaches app].
    destruct (Z.leb_spec m (Z.of_nat (length ts))); [reflexivity | lia].
  - unfold parse. apply Forall_forall. intros t Ht bs' s' p Hwt _.
    rewrite (parser_wire t); [| |exact Hwt|].
    + unfold expected. rewrite verdict_array_only by lia.
      rewrite forallb_forall in Hlen. rewrite (Hlen t); [reflexivity|].
      apply list_elem_of_In, Ht.
    + rewrite forallb_forall in Hp. apply Hp, list_elem_of_In, Ht.
    + pose proof (vsize_elem t ts Ht). lia.
Qed.

(** X18.  A key is decoded in one piece, not in streaming mode: a key
    whose bytes end in the middle of a multi-byte sequence gets U+FFFD in
    place of the unfinished bytes, where a String value with the same
    bytes loses them. *)
Theorem unfinished_key_replaced k0 c k ck v bv cs s fuel :
  nice_text k0 = true -> Utf8.is_scalar c = true ->
  (0 < k < length (Utf8.encode_cp c))%nat ->
  Forall valid_chunk ck ->
  concat ck = Utf8.encode k0 ++ take k (Utf8.encode_cp c) ->
  plain v = true -> Wire v bv -> (vsize v < fuel)%nat ->
  Forall valid_chunk cs -> concat cs = (code STRING :: frames ck) ++ bv ->
  parser (S (S fuel)) (lapp (code OBJECT :: frames cs) s) default_options [] =
  Ok (VObject [(k0 ++ [65533], v)], s).
Proof.
  intros Hn Hc Hk Hck Hcat Hp Hw Hf Hcs Hcc.
  rewrite parser_object_chunks, Hcc by assumption.
  cbn [default_options maxDepth exceeds length].
  change {| streamMaxSize := Infinity; stringMaxSize := Infinity;
            arrayMaxLength := Infinity; objectMaxLength := Infinity;
            maxDepth := Infinity |} with default_options.
  cbn [app object_loop lapp hasValue rbind].
  cbn [default_options objectMaxLength stringMaxSize reaches].
  cbn [readEnoughSize rbind hd]. rewrite Z.eqb_refl. cbn [negb].
  rewrite lapp_app, readChunkedStream_wire by assumption.
  unfold over. cbn [exceeds]. rewrite andb_false_r. cbn [rbind].
  assert (Utf8.decode (concat ck) = k0 ++ [65533]) as ->.
  { unfold Utf8.decode. rewrite Hcat, Utf8Facts.run_app.
    destruct (nice_text_run k0 Hn) as [Hr Hs]. rewrite Hr.
    destruct (Utf8Tail.run_unfinished_state c k Hc Hk) as (st & -> & Hne).
    destruct (Z.eqb_spec (Utf8.needed st) 0) as [E0|_]; [lia|]. rewrite app_nil_r.
    destruct k0 as [|c0 k0]; [reflexivity|].
    unfold nice_text in Hn. apply andb_true_iff in Hn as [_ Hb].
    apply negb_true_iff in Hb. cbn [app Utf8.serialize fst]. rewrite Hb. reflexivity. }
  change {| streamMaxSize := Infinity; stringMaxSize := Infinity;
            arrayMaxLength := Infinity; objectMaxLength := Infinity;
            maxDepth := Infinity |} with default_options.
  rewrite (parser_wire v Hp bv Hw) by lia. unfold expected.
  rewrite verdict_default. cbn [rbind]. unfold assign.
  rewrite bool_decide_eq_false_2.
  - cbn [rbind set_property]. destruct fuel as [|fuel]; [lia|]. reflexivity.
  - intros E. apply (f_equal (fun l => 65533 ∈ l)) in E.
    assert (65533 ∈ k0 ++ [65533]) as Hin by (apply elem_of_app; right; left).
    rewrite E in Hin. unfold proto_key in Hin.
    repeat (apply elem_of_cons in Hin as [Hin|Hin]; [discriminate|]).
    apply elem_of_nil in Hin. exact Hin.
Qed.

End DecoderTheorems.

(** ** Input that is cut short *)

Section Truncation.

Context {T : TagCodes}.
Import StringFacts.

Lemma readEnoughSize_short pre : forall n s,
  short s -> (length pre < n)%nat ->
  readEnoughSize n (lapp pre s) = Err NotEnoughData.
Proof.
  induction pre as [|x pre IH]; intros n s Hs Hn; (destruct n as [|n]; [cbn in Hn; lia|]).
  - cbn [lapp readEnoughSize]. destruct Hs as [-> | ->]; reflexivity.
  - cbn [lapp readEnoughSize]. rewrite IH by (assumption || (cbn in Hn; lia)).
    reflexivity.
Qed.

Lemma split_data_short d : forall left acc s,
  short s -> Z.of_nat (length d) < left ->
  split_data left acc (lapp d s) = CErr NotEnoughData.
Proof.
  induction d as [|x d IH]; intros left acc s Hs Hl.
  - cbn [lapp]. destruct Hs as [-> | ->]; reflexivity.
  - cbn [lapp split_data]. cbn [length] in Hl.
    destruct (Z.eqb_spec left 1); [lia|]. apply IH; [assumption | lia].
Qed.

Lemma split_head_short pre s :
  short s -> (length pre < 4)%nat ->
  split_head (lapp pre s) = CErr NotEnoughData.
Proof.
  intros Hs Hn.
  destruct pre as [|a [|b [|c [|d pre]]]]; [| | | |cbn in Hn; lia];
    destruct Hs as [-> | ->]; reflexivity.
Qed.

Lemma frames_cons c cs : frames (c :: cs) = frame c ++ frames cs.
Proof. unfold frames. cbn [flat_map]. rewrite app_assoc. reflexivity. Qed.

Lemma length_frame c : length (frame c) = (4 + length c)%nat.
Proof. unfold frame. rewrite length_app, setUint32_length. reflexivity. Qed.

(** The chunks of a stream that is cut short. *)
Lemma split_head_cut cs :
  Forall valid_chunk cs ->
  forall k s, short s -> (k < length (frames cs))%nat ->
  exists cs1 cs2,
    cs = cs1 ++ cs2 /\ split_head (lapp (take k (frames cs)) s) = chunks_cut cs1.
Proof.
  induction 1 as [|c cs Hc Hcs IH]; intros k s Hs Hk.
  - exists [], []. split; [reflexivity|]. apply split_head_short; [assumption|].
    rewrite length_take. cbn in Hk |- *. lia.
  - rewrite frames_cons in Hk |- *. rewrite length_app, length_frame in Hk.
    destruct (Nat.lt_ge_cases k (4 + length c)) as [Hin|Hout].
    + exists [], (c :: cs). split; [reflexivity|]. cbn [chunks_cut].
      rewrite take_app_le by (rewrite length_frame; lia).
      destruct (Nat.lt_ge_cases k 4) as [Hhead|Hdata].
      * apply split_head_short; [assumption|]. rewrite length_take. lia.
      * unfold frame. rewrite take_app_ge by (rewrite setUint32_length; lia).
        rewrite setUint32_length, lapp_app.
        pose proof (getUint32_setUint32 (blen c)) as Hg. destruct Hc as [Hlo Hhi].
        destruct (setUint32 (blen c)) as [|b0 [|b1 [|b2 [|b3 [|]]]]]; try contradiction.
        cbn [lapp split_head]. rewrite Hg, Z.mod_small by lia.
        destruct (Z.eqb_spec (blen c) 0); [lia|].
        apply split_data_short; [assumption|]. rewrite length_take.
        unfold blen in *. lia.
    + rewrite take_app_ge by (rewrite length_frame; lia). rewrite length_frame.
      rewrite lapp_app, split_head_frame by assumption.
      destruct (IH (k - (4 + length c))%nat s Hs ltac:(lia)) as (cs1 & cs2 & E & Hh).
      exists (c :: cs1), cs2. split; [rewrite E; reflexivity|].
      cbn [chunks_cut]. rewrite Hh. reflexivity.
Qed.

Lemma string_loop_cut cs : forall size acc d,
  string_loop (chunks_cut cs) Infinity size acc d = Err NotEnoughData.
Proof.
  induction cs as [|c cs IH]; intros size acc d; cbn [chunks_cut string_loop exceeds];
    [reflexivity|].
  destruct (Utf8.decode_stream d c). apply IH.
Qed.

Lemma concatChunks_cut cs : forall size acc,
  concatChunks (chunks_cut cs) Infinity size acc = Err NotEnoughData.
Proof.
  induction cs as [|c cs IH]; intros size acc; cbn [chunks_cut concatChunks exceeds];
    [reflexivity | apply IH].
Qed.

Lemma Splitable_cut cs :
  Splitable (chunks_cut cs) = lapp (concat cs) (LErr NotEnoughData).
Proof.
  induction cs as [|c cs IH]; cbn [chunks_cut Splitable concat lapp]; [reflexivity|].
  rewrite lapp_app, IH. reflexivity.
Qed.

Lemma take_concat_prefix (cs1 cs2 : list bytes) :
  concat cs1 = take (length (concat cs1)) (concat (cs1 ++ cs2)).
Proof. rewrite concat_app, take_app_le, take_ge by lia. reflexivity. Qed.

(** The Array loop over a payload that is cut short, at or inside an
    element. *)
Lemma array_loop_cut parse paths ts :
  Forall (fun t =>
    (forall bs s' p, Wire t bs -> parse (lapp bs s') p = Ok (t, s')) /\
    (forall bs k p, Wire t bs -> (k < length bs)%nat ->
       parse (lapp (take k bs) (LErr NotEnoughData)) p = Err NotEnoughData)) ts ->
  forall payload j elems n,
    wire_elements Wire ts payload -> (j <= length payload)%nat ->
    (length ts < n)%nat ->
    array_loop parse default_options paths n
      (lapp (take j payload) (LErr NotEnoughData)) elems = Err NotEnoughData.
Proof.
  induction 1 as [|t r [Hfull Hcut] _ IH]; intros payload j elems n Hw Hj Hn;
    (destruct n as [|n]; [cbn in Hn; lia|]).
  - cbn [wire_elements] in Hw. subst payload. rewrite take_nil. reflexivity.
  - destruct Hw as (b1 & b2 & -> & Hw1 & Hw2). cbn [length] in Hn.
    destruct (Wire_cons _ _ Hw1) as (b & more & Hb).
    rewrite length_app in Hj.
    destruct (Nat.lt_ge_cases j (length b1)) as [Hin|Hout].
    + rewrite take_app_le by lia. destruct j as [|j].
      * rewrite take_0. reflexivity.
      * cbn [array_loop].
        replace (hasValue (lapp (take (S j) b1) (LErr NotEnoughData)))
          with (Ok (A:=bool) true) by (rewrite Hb; reflexivity).
        cbn [rbind default_options arrayMaxLength reaches].
        rewrite Hcut by assumption. reflexivity.
    + rewrite take_app_ge by lia. cbn [array_loop].
      replace (hasValue (lapp (b1 ++ take (j - length b1) b2) (LErr NotEnoughData)))
        with (Ok (A:=bool) true) by (rewrite Hb; reflexivity).
      cbn [rbind default_options arrayMaxLength reaches].
      rewrite lapp_app, Hfull by assumption. cbn [rbind].
      apply IH; [assumption | lia | lia].
Qed.

(** The Object loop over a payload that is cut short. *)
Lemma object_loop_cut parse paths ps :
  Forall (fun kv =>
    (forall bs s' p, Wire (snd kv) bs -> parse (lapp bs s') p = Ok (snd kv, s')) /\
    (forall bs k p, Wire (snd kv) bs -> (k < length bs)%nat ->
       parse (lapp (take k bs) (LErr NotEnoughData)) p = Err NotEnoughData)) ps ->
  Forall (fun kv => nice_text (fst kv) = true /\ fst kv <> proto_key) ps ->
  forall payload j props n,
    wire_properties Wire ps payload -> (j <= length payload)%nat ->
    (length ps < n)%nat ->
    object_loop parse default_options paths n
      (lapp (take j payload) (LErr NotEnoughData)) props = Err NotEnoughData.
Proof.
  induction 1 as [|[k v] r [Hfull Hcut] _ IH]; intros Hnice payload j props n Hw Hj Hn;
    (destruct n as [|n]; [cbn in Hn; lia|]).
  - cbn [wire_properties] in Hw. subst payload. rewrite take_nil. reflexivity.
  - destruct Hw as (bk & bv & b2 & -> & (cs & Hcs & Hck & ->) & Hwv & Hw2).
    apply Forall_cons in Hnice as [[Hnk Hpk] Hnice]. cbn [fst snd] in *.
    cbn [length] in Hn. rewrite !length_app in Hj. cbn [length] in Hj.
    destruct j as [|j]; [rewrite take_0; reflexivity|].
    cbn [app take object_loop lapp hasValue rbind].
    cbn [default_options objectMaxLength stringMaxSize reaches].
    cbn [readEnoughSize rbind hd]. rewrite Z.eqb_refl. cbn [negb].
    destruct (Nat.lt_ge_cases j (length (frames cs))) as [Hkey|Hkey].
    + rewrite take_app_le by lia. unfold readChunkedStream, splitChunkedStream.
      destruct (split_head_cut cs Hcs j (LErr NotEnoughData) ltac:(right; reflexivity) Hkey)
        as (cs1 & cs2 & _ & ->).
      rewrite concatChunks_cut. reflexivity.
    + rewrite take_app_ge, lapp_app by lia.
      rewrite readChunkedStream_wire by assumption. unfold over. cbn [exceeds].
      rewrite andb_false_r. cbn [rbind]. rewrite Hck, (decode_encode k Hnk).
      destruct (Nat.lt_ge_cases (j - length (frames cs)) (length bv)) as [Hval|Hval].
      * rewrite take_app_le by lia. rewrite Hcut by assumption. reflexivity.
      * rewrite take_app_ge, lapp_app by lia. rewrite Hfull by assumption.
        cbn [rbind]. unfold assign. rewrite bool_decide_eq_false_2 by assumption.
        cbn [rbind]. apply IH; [assumption | assumption | lia | lia].
Qed.

Lemma readEnoughSize_one b s : readEnoughSize 1 (LCons b s) = Ok ([b], s).
Proof. reflexivity. Qed.

(** [parser] on an encoding that is cut short. *)
Lemma parser_cut t :
  plain t = true ->
  forall bs, Wire t bs ->
  forall k s paths fuel, short s -> (k < length bs)%nat -> (vsize t < fuel)%nat ->
  parser fuel (lapp (take k bs) s) default_options paths = Err NotEnoughData.
Proof.
  induction t as [| |b|x|str|b|ts IH|ps IH] using Value_ind';
    intros Hp bs Hw k s paths fuel Hs Hk Hf;
    (destruct fuel as [|fuel]; [cbn in Hf; lia|]);
    cbn [parser default_options maxDepth exceeds].
  - cbn [Wire] in Hw. subst bs. rewrite readEnoughSize_short;
      [reflexivity | assumption | rewrite length_take; cbn in Hk |- *; lia].
  - cbn [Wire] in Hw. subst bs. rewrite readEnoughSize_short;
      [reflexivity | assumption | rewrite length_take; cbn in Hk |- *; lia].
  - cbn [Wire] in Hw. subst bs. cbn [length] in Hk.
    destruct k as [|k].
    { rewrite readEnoughSize_short; [reflexivity | assumption | cbn; lia]. }
    cbn [take lapp]. rewrite readEnoughSize_one. cbn [rbind hd]. rewrite type_of_byte_code.
    rewrite readEnoughSize_short;
      [reflexivity | assumption | rewrite length_take; cbn; lia].
  - cbn [Wire] in Hw. subst bs. cbn [length] in Hk.
    assert (length (setFloat64 x) = 8%nat) as Hlen by reflexivity.
    destruct k as [|k].
    { rewrite readEnoughSize_short; [reflexivity | assumption | cbn; lia]. }
    cbn [take lapp]. rewrite readEnoughSize_one. cbn [rbind hd]. rewrite type_of_byte_code.
    rewrite (readEnoughSize_short (take k (setFloat64 x)));
      [reflexivity | assumption | rewrite length_take; lia].
  - destruct Hw as (cs & Hcs & Hc & ->). cbn [length] in Hk.
    destruct k as [|k].
    { rewrite readEnoughSize_short; [reflexivity | assumption | cbn; lia]. }
    cbn [take lapp]. rewrite readEnoughSize_one. cbn [rbind hd]. rewrite type_of_byte_code.
    unfold splitChunkedStream.
    destruct (split_head_cut cs Hcs k s Hs ltac:(lia)) as (cs1 & cs2 & _ & ->).
    cbn [stringMaxSize]. rewrite string_loop_cut. reflexivity.
  - destruct Hw as (cs & Hcs & Hc & ->). cbn [length] in Hk.
    destruct k as [|k].
    { rewrite readEnoughSize_short; [reflexivity | assumption | cbn; lia]. }
    cbn [take lapp]. rewrite readEnoughSize_one. cbn [rbind hd]. rewrite type_of_byte_code.
    unfold readChunkedStream, splitChunkedStream.
    destruct (split_head_cut cs Hcs k s Hs ltac:(lia)) as (cs1 & cs2 & _ & ->).
    cbn [streamMaxSize]. rewrite concatChunks_cut. reflexivity.
  - destruct Hw as (payload & (cs & Hcs & Hc & ->) & Hw). cbn [plain] in Hp.
    cbn [length] in Hk. destruct k as [|k].
    { rewrite readEnoughSize_short; [reflexivity | assumption | cbn; lia]. }
    cbn [take lapp]. rewrite readEnoughSize_one. cbn [rbind hd]. rewrite type_of_byte_code.
    unfold splitChunkedStream.
    destruct (split_head_cut cs Hcs k s Hs ltac:(lia)) as (cs1 & cs2 & E & ->).
    rewrite Splitable_cut, (take_concat_prefix cs1 cs2), <- E, Hc.
    cbn [vsize] in Hf. pose proof (vsize_length ts).
    change {| streamMaxSize := Infinity; stringMaxSize := Infinity;
              arrayMaxLength := Infinity; objectMaxLength := Infinity;
              maxDepth := Infinity |} with default_options.
    apply (array_loop_cut _ paths ts); [|exact Hw| |lia].
    + apply Forall_forall. intros t Ht. rewrite Forall_forall in IH.
      assert (plain t = true) as Hpt
        by (rewrite forallb_forall in Hp; apply Hp, list_elem_of_In, Ht).
      pose proof (vsize_elem t ts Ht). split.
      * intros bs' s' p Hwt. rewrite (parser_wire t Hpt bs' Hwt) by lia.
        unfold expected. rewrite verdict_default. reflexivity.
      * intros bs' k' p Hwt Hk'. apply (IH t Ht Hpt bs' Hwt); [right; reflexivity|lia|lia].
    + rewrite <- Hc, E, concat_app, length_app. lia.
  - destruct Hw as (payload & (cs & Hcs & Hc & ->) & Hw). cbn [plain] in Hp.
    apply andb_true_iff in Hp as [Hp Hnd]. rewrite forallb_forall in Hp.
    cbn [length] in Hk. destruct k as [|k].
    { rewrite readEnoughSize_short; [reflexivity | assumption | cbn; lia]. }
    cbn [take lapp]. rewrite readEnoughSize_one. cbn [rbind hd]. rewrite type_of_byte_code.
    unfold splitChunkedStream.
    destruct (split_head_cut cs Hcs k s Hs ltac:(lia)) as (cs1 & cs2 & E & ->).
    rewrite Splitable_cut, (take_concat_prefix cs1 cs2), <- E, Hc.
    cbn [vsize] in Hf. pose proof (vsize_length_props ps).
    change {| streamMaxSize := Infinity; stringMaxSize := Infinity;
              arrayMaxLength := Infinity; objectMaxLength := Infinity;
              maxDepth := Infinity |} with default_options.
    apply (object_loop_cut _ paths ps); [| |exact Hw| |lia].
    + apply Forall_forall. intros [k0 v] Hkv. rewrite Forall_forall in IH.
      specialize (Hp (k0, v) ltac:(apply list_elem_of_In, Hkv)). cbn in Hp.
      apply andb_true_iff in Hp as [_ Hpv].
      pose proof (vsize_prop (k0, v) ps Hkv) as Hsz. cbn [snd] in *.
      assert (vsize v < fuel)%nat as Hlt
        by (apply Nat.succ_lt_mono in Hf; eapply Nat.le_lt_trans; [exact Hsz | exact Hf]).
      split.
      * intros bs' s' p Hwt. rewrite (parser_wire v Hpv bs' Hwt) by exact Hlt.
        unfold expected. rewrite verdict_default. reflexivity.
      * intros bs' k' p Hwt Hk'.
        apply (IH (k0, v) Hkv Hpv bs' Hwt); [right; reflexivity|lia|exact Hlt].
    + apply Forall_forall. intros [k0 v] Hkv. cbn [fst].
      specialize (Hp (k0, v) ltac:(apply list_elem_of_In, Hkv)). cbn in Hp.
      apply andb_true_iff in Hp as [Hp _]. apply andb_true_iff in Hp as [Hn Hk0].
      split; [assumption|]. apply negb_true_iff, bool_decide_eq_false in Hk0. exact Hk0.
    + rewrite <- Hc, E, concat_app, length_app. lia.
Qed.

(** X15.  No proper prefix of an encoding decodes: when the buffer stops
    before the last byte of a value, wherever it stops, in a tag, a
    length field, a chunk or an element nested at any depth, [parser]
    fails with the short read of the byte source and returns no value. *)
Theorem truncated_input_rejected t bs k fuel :
  plain t = true -> Wire t bs -> (k < length bs)%nat -> (vsize t < fuel)%nat ->
  decode fuel default_options (take k bs) = Err NotEnoughData.
Proof.
  intros Hp Hw Hk Hf. unfold decode, createSplitable.
  rewrite (parser_cut t Hp bs Hw k LNil [] fuel); [reflexivity| |exact Hk|exact Hf].
  left. reflexivity.
Qed.

End Truncation.

(** * Worked examples

    The claims at concrete inputs, over the tag table [enum_codes]. *)

#[local] Existing Instance enum_codes.

Ltac solve_represents :=
  repeat first
    [ reflexivity
    | apply rep_null | apply rep_undefined | apply rep_bool | apply rep_number
    | apply rep_string
    | apply rep_Boolean; reflexivity
    | apply rep_Number; reflexivity
    | apply rep_String; reflexivity
    | apply rep_bytes; reflexivity
    | eapply rep_array; [reflexivity|]
    | eapply rep_object; [reflexivity|]
    | match goal with |- Forall2 _ _ _ => constructor end
    | match goal with |- _ /\ _ => split end ].

Lemma test_tree_represented : represents test_heap (JRef 8%nat) test_tree.
Proof. unfold test_tree. solve_represents. Qed.

(** The round trip of [test_heap]'s value 8. *)
Lemma roundtrip_witness :
  represents test_heap (JRef 8%nat) test_tree /\ plain test_tree = true /\
  exists n, forall fuel, (n <= fuel)%nat ->
  exists ps,
    encode fuel test_heap (JRef 8%nat) = (map Piece ps, Ok tt) /\
    decode fuel default_options (bytes_of (map Piece ps)) = Ok test_tree.
Proof.
  split; [exact test_tree_represented|]. split; [reflexivity|].
  apply (roundtrip test_heap (JRef 8%nat) test_tree);
    [exact test_tree_represented | reflexivity].
Defined.

(** A String that starts with U+FEFF comes back without it: ["\uFEFFa"]
    is encoded as EF BB BF 61 and decoded to ["a"]. *)
Lemma roundtrip_counterexample :
  represents ∅ (JString [65279; 97]) (VString [65279; 97]) /\
  encode 8 ∅ (JString [65279; 97]) =
    ([Piece [5]; Piece [0; 0; 0; 4; 239; 187; 191; 97; 0; 0; 0; 0]], Ok tt) /\
  decode 8 default_options [5; 0; 0; 0; 4; 239; 187; 191; 97; 0; 0; 0; 0] =
    Ok (VString [97]).
Proof. split; [apply rep_string|]. split; vm_compute; reflexivity. Qed.

(** The payload of the encoded String ["foo"]. *)
Lemma chunk_termination_witness :
  represents test_heap (JString foo) (VString foo) /\
  chunked_tag (VString foo) = Some STRING /\
  exists n, forall fuel, (n <= fuel)%nat ->
  exists ps payload chunks,
    encode fuel test_heap (JString foo) = (map Piece ps, Ok tt) /\
    bytes_of (map Piece ps) = code STRING :: payload /\
    wire_chunks payload = Some (chunks ++ [[]]) /\
    Forall (fun c => c <> []) chunks.
Proof.
  split; [apply rep_string|]. split; [reflexivity|].
  apply (chunk_termination test_heap (JString foo) (VString foo) STRING);
    [apply rep_string | reflexivity].
Defined.

Lemma huge_length_Z : Z.of_nat huge_length = 4294967296.
Proof. unfold huge_length. apply Z2Nat.id. discriminate. Qed.

#[global] Opaque huge_length.

Lemma blen_repeat x n : blen (repeat x n) = Z.of_nat n.
Proof. unfold blen. rewrite repeat_length. reflexivity. Qed.

Lemma hard_cap_witness :
  let k := Z.to_nat (4294967295 - 0) in
  (Next huge_heap (StreamIterator false None (ArrayIterator [Piece huge_piece]) [] 0 None)
     (Ok (IValue (Piece (frame (concat [] ++ take k huge_piece))),
          StreamIterator false None (ArrayIterator []) [] 0
            (Some (drop k huge_piece)))) /\
   blen (concat [] ++ take k huge_piece) = 4294967295 /\
   take k huge_piece ++ drop k huge_piece = huge_piece) /\
  exists n, forall fuel, (n <= fuel)%nat ->
  exists ps chunks,
    encode fuel huge_heap (JRef 1%nat) = (map Piece ps, Ok tt) /\
    bytes_of (map Piece ps) = code STREAM :: frames chunks /\
    Forall (fun c => 1 <= blen c <= 4294967295) chunks /\
    concat chunks = huge_piece /\
    (4294967295 < blen huge_piece -> (2 <= length chunks)%nat).
Proof.
  apply (hard_cap huge_heap (ArrayIterator [Piece huge_piece]) (ArrayIterator [])
           [] 0 huge_piece (JRef 1%nat) huge_piece).
  - reflexivity.
  - lia.
  - exists 1%nat. split; [reflexivity | discriminate].
  - unfold huge_piece. rewrite blen_repeat, huge_length_Z. reflexivity.
  - apply rep_bytes. unfold huge_heap. apply lookup_singleton_eq.
Defined.

Lemma big_length_Z : Z.of_nat big_length = 5000000.
Proof. unfold big_length. apply Z2Nat.id. discriminate. Qed.

#[global] Opaque big_length.

Lemma soft_threshold_witness :
  exists n, forall fuel, (n <= fuel)%nat ->
    encode fuel big_heap (JRef 1%nat) =
      ([Piece [code STREAM]; Piece (frame big_piece); Piece [0; 0; 0; 0]],
       Ok tt) /\
    decode fuel default_options (code STREAM :: frame big_piece ++ [0; 0; 0; 0]) =
      Ok (VStream big_piece).
Proof.
  apply (soft_threshold big_heap (JRef 1%nat) big_piece).
  - cbn [generator]. unfold deref, big_heap. rewrite lookup_singleton_eq.
    reflexivity.
  - unfold big_piece. rewrite blen_repeat, big_length_Z. reflexivity.
  - unfold big_piece. rewrite blen_repeat, big_length_Z. discriminate.
Defined.

Lemma foo_bar_baz_represented : represents test_heap (JRef 2%nat) foo_bar_baz.
Proof. unfold foo_bar_baz. solve_represents. Qed.

Lemma depth_limit_witness :
  (exists n, forall fuel, (n <= fuel)%nat ->
   exists ps,
     encode fuel test_heap (JRef 2%nat) = (map Piece ps, Ok tt) /\
     decode fuel (depth_only 1) (bytes_of (map Piece ps)) = Err DepthExceeded) /\
  (exists n, forall fuel, (n <= fuel)%nat ->
   exists ps,
     encode fuel test_heap (JRef 2%nat) = (map Piece ps, Ok tt) /\
     decode fuel (depth_only 2) (bytes_of (map Piece ps)) = Ok foo_bar_baz).
Proof.
  split.
  - exact (proj2 (depth_limit test_heap (JRef 2%nat) foo_bar_baz 1
                    foo_bar_baz_represented eq_refl)).
  - exact (proj2 (depth_limit test_heap (JRef 2%nat) foo_bar_baz 2
                    foo_bar_baz_represented eq_refl)).
Defined.

Lemma cyclic_heap_cycle : has_cycle cyclic_heap 1%nat.
Proof.
  exists 1%nat. split; [reflexivity|]. apply tc_once. unfold edge, deref, cyclic_heap.
  rewrite lookup_singleton_eq. cbn [default for_in_values]. set_solver.
Qed.

Lemma cycle_rejection_witness :
  composite (deref cyclic_heap 1%nat) = true /\
  exists n, forall fuel, (n <= fuel)%nat ->
    encode fuel cyclic_heap (JRef 1%nat) = ([], Err CircularReference).
Proof.
  split; [reflexivity|].
  destruct (cycle_rejection cyclic_heap 1%nat eq_refl) as (n & Hn).
  exists n. intros fuel Hf. destruct (Hn fuel Hf) as [[_ He]|[Hno _]].
  - exact He.
  - exfalso. exact (Hno cyclic_heap_cycle).
Defined.

Lemma array_limit_witness :
  (exists n, forall fuel, (n <= fuel)%nat ->
   exists ps,
     encode fuel five_heap (JRef 1%nat) = (map Piece ps, Ok tt) /\
     decode fuel (array_only 3) (bytes_of (map Piece ps)) =
       Err ArrayLengthExceeded) /\
  (exists n, forall fuel, (n <= fuel)%nat ->
   exists ps,
     encode fuel five_heap (JRef 2%nat) = (map Piece ps, Ok tt) /\
     decode fuel (array_only 3) (bytes_of (map Piece ps)) =
       Ok (VArray [VString foo; VString bar; VString baz])).
Proof.
  split.
  - apply (array_limit five_heap (JRef 1%nat)
             (VArray [VBool true; VBool false; VNull; VUndefined; VString foo]) 3);
      [solve_represents | reflexivity | discriminate].
  - apply (array_limit five_heap (JRef 2%nat)
             (VArray [VString foo; VString bar; VString baz]) 3);
      [solve_represents | reflexivity | discriminate].
Defined.







(** [new Boolean(true)] of the test heap. *)
Lemma wrapper_objects_witness :
  (forall fuel,
     encode fuel test_heap (JRef 4%nat) = encode fuel test_heap (JBool true)) /\
  exists n, forall fuel, (n <= fuel)%nat ->
  exists ps,
    encode fuel test_heap (JRef 4%nat) = (map Piece ps, Ok tt) /\
    decode fuel default_options (bytes_of (map Piece ps)) = Ok (VBool true).
Proof.
  apply (wrapper_objects test_heap 4%nat (OBoolean true) (JBool true) (VBool true)).
  - reflexivity.
  - reflexivity.
  - apply rep_bool.
  - reflexivity.
Defined.

Lemma wrapper_objects_counterexample :
  encode 8 bom_heap (JRef 1%nat) =
    ([Piece [5]; Piece [0; 0; 0; 3; 239; 187; 191; 0; 0; 0; 0]], Ok tt) /\
  encode 8 bom_heap (JString [65279]) = encode 8 bom_heap (JRef 1%nat) /\
  decode 8 default_options [5; 0; 0; 0; 3; 239; 187; 191; 0; 0; 0; 0] =
    Ok (VString []).
Proof. repeat split; vm_compute; reflexivity. Qed.

(** ** The further properties at concrete inputs *)

Lemma encoded_is_wire_form_witness :
  exists n, forall fuel, (n <= fuel)%nat ->
  exists ps,
    encode fuel test_heap (JRef 8%nat) = (map Piece ps, Ok tt) /\
    Wire test_tree (concat ps).
Proof.
  exact (encoded_is_wire_form test_heap (JRef 8%nat) test_tree
           test_tree_represented).
Defined.

Lemma valid_chunk_small (c : bytes) :
  (1 <= length c <= 1000)%nat -> valid_chunk c.
Proof. unfold valid_chunk, blen. lia. Qed.

Ltac solve_chunks :=
  repeat first
    [ apply Forall_nil_2
    | apply Forall_cons_2; [apply valid_chunk_small; cbn [length]; lia|] ].

Lemma array_of_true_wire : Wire (VArray [VBool true]) array_of_true.
Proof.
  exists [2; 1]. split.
  - exists [[2; 1]]. split; [solve_chunks|]. split; reflexivity.
  - exists [2; 1], []. split; [reflexivity|]. split; reflexivity.
Qed.


(** ["中"] in one chunk, and with a chunk boundary after its first byte. *)
Lemma chunk_boundaries_irrelevant_witness :
  parser 1 (lapp (code STRING :: frames [[228; 184; 173]]) LNil)
    default_options [] =
  parser 1 (lapp (code STRING :: frames [[228]; [184; 173]]) LNil)
    default_options [].
Proof.
  apply (chunk_boundaries_irrelevant STRING);
    [reflexivity | solve_chunks | solve_chunks | reflexivity].
Defined.

Lemma zhong_wen_wire :
  Wire (VString zhong_wen) (5 :: frames [[228; 184; 173; 230; 150; 135]]).
Proof. exists [[228; 184; 173; 230; 150; 135]]. split; [solve_chunks|]. split; reflexivity. Qed.

(** ["中文"] has two characters and six bytes: it is refused under
    [stringMaxSize] 5 and decoded under 6. *)
Lemma string_limit_counts_bytes_witness :
  decode 1 (string_only 5) (5 :: frames [[228; 184; 173; 230; 150; 135]]) =
    Err StringSizeExceeded /\
  decode 1 (string_only 6) (5 :: frames [[228; 184; 173; 230; 150; 135]]) =
    Ok (VString zhong_wen).
Proof.
  split.
  - exact (string_limit_counts_bytes zhong_wen _ 5 0 eq_refl zhong_wen_wire).
  - exact (string_limit_counts_bytes zhong_wen _ 6 0 eq_refl zhong_wen_wire).
Defined.

Lemma pairs_tree_represented : represents pairs_heap (JRef 1%nat) pairs_tree.
Proof. unfold pairs_tree. solve_represents. Qed.

(** An Object with two pairs decodes under [objectMaxLength] 1. *)
Lemma object_limit_compares_zero_witness :
  exists n, forall fuel, (n <= fuel)%nat ->
  exists ps,
    encode fuel pairs_heap (JRef 1%nat) = (map Piece ps, Ok tt) /\
    decode fuel (object_only 1) (bytes_of (map Piece ps)) = Ok pairs_tree.
Proof.
  exact (object_limit_compares_zero pairs_heap (JRef 1%nat) pairs_tree 1
           pairs_tree_represented eq_refl).
Defined.

(** U+FEFF, a lone high surrogate, ["a"]: what comes back is U+FFFD,
    ["a"]. *)
Lemma string_comes_back_normalised_witness :
  exists n, forall fuel, (n <= fuel)%nat ->
  exists ps,
    encode fuel test_heap (JString [65279; 55357; 97]) = (map Piece ps, Ok tt) /\
    decode fuel default_options (bytes_of (map Piece ps)) =
      Ok (VString [65533; 97]).
Proof.
  apply (string_comes_back_normalised test_heap [65279; 55357; 97]).
  reflexivity.
Defined.

(** ["a"], then the first two of the three bytes of ["中"]. *)
Lemma unfinished_sequence_dropped_witness :
  decode 1 default_options (code STRING :: frames [[97; 228; 184]]) =
  Ok (VString [97]).
Proof.
  apply (unfinished_sequence_dropped [97] 20013 2 [[97; 228; 184]] 0);
    [reflexivity | reflexivity | cbn; lia | solve_chunks | reflexivity].
Defined.

(** The byte 8 is the code of no type in the table [enum_codes]. *)
Lemma unknown_tag_rejected_witness :
  decode 1 default_options [8; 1; 2; 3] = Err InvalidType.
Proof.
  apply (unknown_tag_rejected 8 [1; 2; 3] default_options 0);
    [intros []; discriminate | reflexivity].
Defined.

(** An Object whose first pair starts with the Boolean [true]. *)
Lemma key_must_be_string_witness :
  parser 2 (lapp (code OBJECT :: frames [[2; 1]]) LNil) default_options [] =
  Err InvalidKey.
Proof.
  apply (key_must_be_string [[2; 1]] 2 [1] LNil default_options [] 0);
    [solve_chunks | reflexivity | discriminate | reflexivity | reflexivity].
Defined.

(** An Array that holds [true] and then a byte that is no tag. *)
Lemma element_failure_fails_array_witness :
  parser 3 (lapp (code ARRAY :: frames [[2; 1; 9]]) LNil) default_options [] =
  Err InvalidType.
Proof.
  apply (element_failure_fails_array [VBool true] [2; 1] [9] [[2; 1; 9]] LNil
           InvalidType [] 2);
    [reflexivity
    | exists [2; 1], []; split; [reflexivity|]; split; reflexivity
    | discriminate | solve_chunks | reflexivity | cbn; lia | reflexivity].
Defined.

(** [null] and [true] in turn; and [null], then a function. *)
Lemma sequence_is_concatenation_witness :
  (exists n, forall fuel, (n <= fuel)%nat ->
     drain fuel function_heap (MultiIterator [JNull; JBool true] 0 None) =
     ([Piece [0]; Piece [2]; Piece [1]], Ok tt)) /\
  (exists n, forall fuel, (n <= fuel)%nat ->
     drain fuel function_heap
       (MultiIterator ([JNull; JBool true] ++ JRef 2%nat :: [JNull]) 0 None) =
     ([Piece [0]; Piece [2]; Piece [1]], Err InvalidData)).
Proof.
  assert (Forall2 (fun v out => exists n, encode n function_heap v = (out, Ok tt))
            [JNull; JBool true] [[Piece [0]]; [Piece [2]; Piece [1]]]) as H.
  { apply Forall2_cons; split; [exists 5%nat; reflexivity|].
    apply Forall2_cons; split; [exists 5%nat; reflexivity|]. constructor. }
  split.
  - exact (proj1 (sequence_is_concatenation function_heap _ _ H)).
  - exact (proj2 (sequence_is_concatenation function_heap _ _ H)
             (JRef 2%nat) [JNull] [] InvalidData 1%nat eq_refl).
Defined.

Lemma foo_bar_baz_array_represented :
  represents test_heap (JRef 1%nat) (VArray [VString foo; VString bar; VString baz]).
Proof. solve_represents. Qed.

(** [["foo", "bar", "baz"]]. *)
Lemma chunks_are_filled_witness :
  exists n, forall fuel, (n <= fuel)%nat ->
  exists out chunks,
    encode fuel test_heap (JRef 1%nat) = (map Piece ([code ARRAY] :: out), Ok tt) /\
    concat out = frames chunks /\
    Forall valid_chunk chunks /\
    Forall (fun c => 65536 <= blen c) (removelast chunks).
Proof.
  exact (chunks_are_filled test_heap (JRef 1%nat) _ ARRAY
           foo_bar_baz_array_represented eq_refl).
Defined.

(** Three bytes, then something that is no [Uint8Array]. *)
Lemma stream_item_must_be_bytes_witness :
  exists n, forall fuel, (n <= fuel)%nat ->
  exists out chunks lost,
    encode fuel mixed_heap (JRef 1%nat) =
      (map Piece ([code STREAM] :: out), Err InvalidData) /\
    concat out = flat_map frame chunks /\
    concat [[1; 2; 3]] = concat chunks ++ lost /\ blen lost < 65536 /\
    Forall (fun c => 65536 <= blen c <= 4294967295) chunks.
Proof.
  exact (stream_item_must_be_bytes mixed_heap 1%nat [[1; 2; 3]] [Piece [4]] eq_refl).
Defined.

Lemma nothing_represented : represents nothing_heap (JRef 1%nat) (VArray []).
Proof. solve_represents. Qed.

(** [[]]. *)
Lemma empty_value_is_five_bytes_witness :
  exists n, forall fuel, (n <= fuel)%nat ->
  exists ps,
    encode fuel nothing_heap (JRef 1%nat) = (map Piece ps, Ok tt) /\
    concat ps = [code ARRAY; 0; 0; 0; 0].
Proof.
  exact (empty_value_is_five_bytes nothing_heap (JRef 1%nat) (VArray []) ARRAY
           nothing_represented eq_refl eq_refl).
Defined.

(** [[true]] without its last five bytes: the buffer stops inside the
    element. *)
Lemma truncated_input_rejected_witness :
  decode 3 default_options (take 6 array_of_true) = Err NotEnoughData.
Proof.
  apply (truncated_input_rejected (VArray [VBool true]) array_of_true 6 3);
    [reflexivity | exact array_of_true_wire | cbn; lia | cbn; lia].
Defined.

(** [{ foo: { bar: "baz" } }] under [maxDepth] 1. *)
Lemma limits_only_refuse_witness :
  exists n, forall fuel, (n <= fuel)%nat ->
  exists ps,
    encode fuel test_heap (JRef 2%nat) = (map Piece ps, Ok tt) /\
    (decode fuel (depth_only 1) (bytes_of (map Piece ps)) = Ok foo_bar_baz \/
     exists e, limit_error e = true /\
               decode fuel (depth_only 1) (bytes_of (map Piece ps)) = Err e).
Proof.
  exact (limits_only_refuse test_heap (JRef 2%nat) foo_bar_baz (depth_only 1)
           foo_bar_baz_represented eq_refl).
Defined.

(** [[true]] and one more byte, under [arrayMaxLength] 1: the byte is no
    tag, and is never read. *)
Lemma array_limit_checked_first_witness :
  parser 3 (lapp (code ARRAY :: frames [[2; 1; 9]]) LNil) (array_only 1) [] =
  Err ArrayLengthExceeded.
Proof.
  apply (array_limit_checked_first [VBool true] [2; 1] [9] [[2; 1; 9]] LNil 1 [] 2);
    [reflexivity | reflexivity
    | exists [2; 1], []; split; [reflexivity|]; split; reflexivity
    | reflexivity | discriminate | solve_chunks | reflexivity | cbn; lia].
Defined.

(** An Object with one pair: the key is ["a"] and the first two of the
    three bytes of ["中"], the value is [true]. *)
Lemma unfinished_key_replaced_witness :
  parser 4
    (lapp (code OBJECT ::
           frames [[5; 0; 0; 0; 3; 97; 228; 184; 0; 0; 0; 0; 2; 1]]) LNil)
    default_options [] =
  Ok (VObject [([97; 65533], VBool true)], LNil).
Proof.
  apply (unfinished_key_replaced [97] 20013 2 [[97; 228; 184]] (VBool true) [2; 1]
           [[5; 0; 0; 0; 3; 97; 228; 184; 0; 0; 0; 0; 2; 1]] LNil 2);
    [reflexivity | reflexivity | cbn; lia | solve_chunks | reflexivity
    | reflexivity | reflexivity | cbn; lia | solve_chunks | reflexivity].
Defined.
